(** * Episodic-memory bookkeeping of [conv_split_miniImagenet.py]

    A shallow embedding of [train_task_sequence]: the class-to-task
    partition, the per-run episodic memory (ring buffer and reservoir), the
    replay draws of every algorithm branch, the masks the loop indexes with
    the labels of a task and the abort on a NaN loss; then the mini-batches
    and training steps of a task, and the evaluation of [test_task_sequence]
    on the partition [main] sets up.

    What the script delegates to TensorFlow is an oracle here (the loss of
    each training step); numpy's global generator is an explicit state. *)

From Stdlib Require Import ZArith Lia.
From stdpp Require Import base tactics option list.

Set Default Proof Using "Type".

(** ** numpy's generator

    [np.random] is a global generator.  Its state is modelled as the list of
    raw words it will still deliver; a bounded draw reduces the next word into
    the requested interval.  Every sequence of outcomes of the real generator
    is the image of some list of words. *)

Module NumPy.

Definition RandomState := list nat.

(** A uniform draw in the closed interval [[0, max]]. *)
Definition random_interval (g : RandomState) (max : nat) : nat * RandomState :=
  match g with
  | [] => (0, [])
  | w :: g' => (w mod (S max), g')
  end.

(** [np.arange(start, stop)] and [np.arange(stop)]. *)
Definition arange2 (start stop : nat) : list nat := seq start (stop - start).
Definition arange (stop : nat) : list nat := arange2 0 stop.

(** [x[i], x[j] = x[j], x[i]] *)
Definition swap {A} (x : list A) (i j : nat) : list A :=
  match x !! i, x !! j with
  | Some a, Some b => <[i:=b]> (<[j:=a]> x)
  | _, _ => x
  end.

(** [np.random.shuffle(x)]: Fisher-Yates, in place,
    [for i in reversed(range(1, n)): j = random_interval(i); swap x[i], x[j]]. *)
Fixpoint shuffle_from {A} (i : nat) (g : RandomState) (x : list A)
  : list A * RandomState :=
  match i with
  | 0 => (x, g)
  | S i' => let '(j, g') := random_interval g i in shuffle_from i' g' (swap x i j)
  end.

Definition shuffle {A} (g : RandomState) (x : list A) : list A * RandomState :=
  shuffle_from (length x - 1) g x.

(** [np.random.permutation(n)] *)
Definition permutation (g : RandomState) (n : nat) : list nat * RandomState :=
  shuffle g (arange n).

(** [np.random.choice(n, size, replace=False)]: the first [size] entries of a
    random permutation of [arange(n)]; a [ValueError] ([None]) when the
    sample is larger than the population.  An empty sample of an empty
    population is allowed, as in current numpy. *)
Definition choice (g : RandomState) (n size : nat)
  : option (list nat * RandomState) :=
  if decide (size ≤ n)
  then let '(p, g') := permutation g n in Some (take size p, g')
  else None.

(** Python's [l[a:b]] for integer bounds of either sign. *)
Definition py_index (n : nat) (i : Z) : nat :=
  if decide (i < 0)%Z then Z.to_nat (i + Z.of_nat n) else Nat.min (Z.to_nat i) n.

Definition py_slice {A} (l : list A) (a b : Z) : list A :=
  let a' := py_index (length l) a in
  let b' := py_index (length l) b in
  take (b' - a') (drop a' l).

End NumPy.

Import NumPy.

(** ** Configuration of an experiment *)

(** [MODELS], the valid values of [--imp-method]. *)
Inductive method :=
  | VAN | PI | EWC | MAS | RWALK | M_EWC | S_GEM | A_GEM | FTR_EXT | PNN
  | ER_Reservoir | ER_Ringbuffer | SUBSPACE_PROJ | ER_SUBSPACE
  | PROJ_SUBSPACE_GP | ER_SUBSPACE_GP.

Definition TOTAL_CLASSES : nat := 100.
Definition K_FOR_CROSS_VAL : nat := 3.

(** The command-line arguments the loop reads.  Sizes and counts are the
    non-negative integers the script is run with. *)
Module Args.
Record t := mk {
  num_runs : nat;
  random_seed : Z;
  batch_size : nat;
  train_iters : nat;
  mem_size : nat;
  eps_mem_batch : nat;
  num_tasks : nat;
  train_single_epoch : bool;
  online_cross_val : bool;
  cross_validate_mode : bool;
}.
End Args.

(** The two attributes of [model] the loop reads. *)
Module Model.
Record t := mk {
  imp_method : method;
  num_tasks : nat;
}.
End Model.

(** A loss as [math.isnan] sees it. *)
Inductive pyfloat := finite | pos_inf | neg_inf | nan.

Definition math_isnan (x : pyfloat) : bool :=
  match x with nan => true | _ => false end.

Definition non_finite (x : pyfloat) : bool :=
  match x with finite => false | _ => true end.

(** Exceptions and [sys.exit]. *)
Inductive exn :=
  | ValueError | ZeroDivisionError | IndexError | NameError | PreconditionFailure.

Inductive abort := Raise (e : exn) | SysExit (code : Z).

Inductive outcome (A : Type) := Val (a : A) | Abort (r : abort).
Arguments Val {A} a.
Arguments Abort {A} r.

(** ** A small experiment

    Concrete collaborators on which the development is exercised: images are
    numbered, a label row is the number of its class. *)

(** Two tasks of two classes, four runs of three batches of two exemplars,
    two slots per class. *)
Definition small_args : Args.t :=
  Args.mk 4 1234 2 3 2 4 50 false false false.

(** The small experiment in one pass: [--train-single-epoch]. *)
Definition single_epoch_args : Args.t :=
  Args.mk 1 1234 2 3 2 4 50 true false false.

Definition small_model (m : method) : Model.t := Model.mk m 2.

(** The defaults of the script: [--num-tasks 10], of which [main] keeps
    [10 - K_FOR_CROSS_VAL] for the model. *)
Definition default_args : Args.t :=
  Args.mk 5 1234 16 2000 13 256 10 false false false.

Definition default_model (m : method) : Model.t := Model.mk m (10 - K_FOR_CROSS_VAL).

(** Three exemplars per class. *)
Definition small_data (labels : list nat) : list (nat * nat) :=
  flat_map (λ c, [(10 * c, c); (10 * c + 1, c); (10 * c + 2, c)]) labels.

Definition small_seed (seed : Z) : RandomState :=
  [Z.to_nat seed; 5; 3; 8; 1; 9; 2; 4].

Definition always_finite (runid task iters : nat) : pyfloat := finite.

(** The first step of the first task overflows, the later ones do not. *)
Definition inf_at_first_step (runid task iters : nat) : pyfloat :=
  match runid, task, iters with 0, 0, 0 => pos_inf | _, _, _ => finite end.

(** The second step of the first task yields NaN. *)
Definition nan_at_second_step (runid task iters : nat) : pyfloat :=
  match runid, task, iters with 0, 0, 1 => nan | _, _, _ => finite end.

(** ** Replay draws

    The index arrays each branch of the training loop builds before it reads
    the episodic memory, as functions of the generator. *)

Definition sampler (A : Type) := RandomState → option (A * RandomState).

(** A-GEM, lines 459-463: the reference-gradient batch. *)
Definition agem_mem_sample_mask (episodic_filled_counter eps_mem_batch : nat)
  : sampler (list nat) := λ g,
  if decide (episodic_filled_counter ≤ eps_mem_batch)
  then Some (arange episodic_filled_counter, g)
  else choice g episodic_filled_counter eps_mem_batch.

(** ER-Reservoir, lines 508-513. *)
Definition reservoir_mem_filled_so_far (examples_seen_so_far episodic_mem_size : nat) : nat :=
  if decide (examples_seen_so_far < episodic_mem_size)
  then examples_seen_so_far else episodic_mem_size.

Definition reservoir_er_mem_indices
    (examples_seen_so_far episodic_mem_size eps_mem_batch : nat)
  : sampler (list nat) := λ g,
  let mem_filled_so_far :=
    reservoir_mem_filled_so_far examples_seen_so_far episodic_mem_size in
  '(er_mem_indices, g) ←
    (if decide (mem_filled_so_far < eps_mem_batch)
     then Some (arange mem_filled_so_far, g)
     else choice g mem_filled_so_far eps_mem_batch);
  Some (shuffle g er_mem_indices).

(** ER-Ringbuffer, lines 534-536 (and ER-SUBSPACE-GP, lines 631-633). *)
Definition ringbuffer_mem_filled_so_far (episodic_filled_counter episodic_mem_size : nat) : nat :=
  if decide (episodic_filled_counter ≤ episodic_mem_size)
  then episodic_filled_counter else episodic_mem_size.

Definition ringbuffer_er_mem_indices
    (episodic_filled_counter episodic_mem_size eps_mem_batch : nat)
  : sampler (list nat) := λ g,
  let mem_filled_so_far :=
    ringbuffer_mem_filled_so_far episodic_filled_counter episodic_mem_size in
  '(er_mem_indices, g) ←
    (if decide (mem_filled_so_far ≤ eps_mem_batch)
     then Some (arange mem_filled_so_far, g)
     else choice g mem_filled_so_far eps_mem_batch);
  Some (shuffle g er_mem_indices).

(** ER-SUBSPACE and ER-SUBSPACE-GP, lines 560-563 and 605-608: the region of
    one earlier task, picked at random.  Returns [(tt, er_mem_indices)]. *)
Definition subspace_er_mem_indices (task mem_size classes_per_task : nat)
  : sampler (nat * list nat) := λ g,
  '(picked, g) ← choice g task 1;
  tt ← head picked;
  let mem_offset := tt * mem_size * classes_per_task in
  let er_mem_indices := arange2 mem_offset (mem_offset + mem_size * classes_per_task) in
  let '(er_mem_indices, g) := shuffle g er_mem_indices in
  Some ((tt, er_mem_indices), g).



(** The sampling rule of a replay mini-batch: with [filled] valid slots and a
    requested size [k], the whole buffer when [filled <= k], and otherwise
    [k] pairwise distinct valid slots. *)
Definition sampled_without_replacement (filled k : nat) (idx : list nat) : Prop :=
  (filled ≤ k → idx ≡ₚ seq 0 filled) ∧
  (k < filled → length idx = k ∧ NoDup idx ∧ ∀ i, i ∈ idx → i < filled).


(** ** The training loop

    [train_task_sequence(model, sess, datasets, args)].  The collaborators of
    the loop are parameters of the development:
    - image tensors and label rows are opaque ([Img], [Lab]); [zero_image] and
      [zero_label] are the rows [np.zeros] allocates, [class_of] is the class
      a label row encodes;
    - [np_random_seed] is the generator state [np.random.seed] installs;
    - [generate_projection_matrix] is what that helper does to the generator;
    - [load_task_specific_data labels] is the training data of the classes
      [labels], one entry per exemplar;
    - [sess_run_loss runid task iters] is the loss TensorFlow returns for the
      training step [iters] of task [task] in run [runid]. *)

Section train.

Context {Img Lab : Type}.
Variables (zero_image : Img) (zero_label : Lab).
Variable class_of : Lab → nat.
Variable np_random_seed : Z → RandomState.
Variable generate_projection_matrix : RandomState → RandomState.
Variable load_task_specific_data : list nat → list (Img * Lab).
Variable sess_run_loss : nat → nat → nat → pyfloat.
Variables (model : Model.t) (args : Args.t).

(** What the loop does to its collaborators, in order: the partition it
    records (line 212), the buffers it allocates (lines 229-235), the index
    arrays it reads the episodic memory with, the calls of
    [update_fifo_buffer] and [update_reservior] with the counter each is
    given, and the loss of each training step. *)
Inductive event :=
  | TaskLabels (runid : nat) (task_labels : list (list nat))
  | Allocate (episodic_mem_size : nat)
  | Replay (er_mem_indices : list nat)
  | FifoUpdate (task : nat) (offset : nat)
  | Offer (exemplar : Img * Lab) (seen : nat)
  | TrainStep (runid task iters : nat) (loss : pyfloat).

(** The variables of [train_task_sequence] that outlive a mini-batch,
    numpy's generator, and the events so far. *)
Record state := State {
  np_random : RandomState;
  episodic_images : list Img;
  episodic_labels : list Lab;
  count_cls : list nat;
  episodic_filled_counter : nat;
  examples_seen_so_far : nat;
  log : list event;
}.

Definition initial_state (g : RandomState) : state := State g [] [] [] 0 0 [].

Definition set_np_random (g : RandomState) (s : state) : state :=
  State g (episodic_images s) (episodic_labels s) (count_cls s)
    (episodic_filled_counter s) (examples_seen_so_far s) (log s).

Definition set_slot (slot : nat) (x : Img) (y : Lab) (s : state) : state :=
  State (np_random s) (<[slot:=x]> (episodic_images s))
    (<[slot:=y]> (episodic_labels s)) (count_cls s)
    (episodic_filled_counter s) (examples_seen_so_far s) (log s).

Definition set_count_cls (c : list nat) (s : state) : state :=
  State (np_random s) (episodic_images s) (episodic_labels s) c
    (episodic_filled_counter s) (examples_seen_so_far s) (log s).

Definition set_episodic_filled_counter (n : nat) (s : state) : state :=
  State (np_random s) (episodic_images s) (episodic_labels s) (count_cls s)
    n (examples_seen_so_far s) (log s).

Definition set_examples_seen_so_far (n : nat) (s : state) : state :=
  State (np_random s) (episodic_images s) (episodic_labels s) (count_cls s)
    (episodic_filled_counter s) n (log s).

Definition append_log (e : event) (s : state) : state :=
  State (np_random s) (episodic_images s) (episodic_labels s) (count_cls s)
    (episodic_filled_counter s) (examples_seen_so_far s) (log s ++ [e]).

(** *** State, exceptions and exit *)

Definition M (A : Type) : Type := state → outcome A * state.

Definition ret {A} (a : A) : M A := λ s, (Val a, s).

Definition bind {A B} (m : M A) (f : A → M B) : M B := λ s,
  match m s with
  | (Val a, s') => f a s'
  | (Abort r, s') => (Abort r, s')
  end.

#[local] Instance M_ret : MRet M := @ret.
#[local] Instance M_bind : MBind M := λ A B f m, bind m f.

Definition raise {A} (e : exn) : M A := λ s, (Abort (Raise e), s).
Definition sys_exit {A} (code : Z) : M A := λ s, (Abort (SysExit code), s).
Definition get : M state := λ s, (Val s, s).
Definition modify (f : state → state) : M unit := λ s, (Val (), f s).
Definition emit (e : event) : M unit := modify (append_log e).

(** A [for] loop. *)
Fixpoint for_each {A} (l : list A) (body : A → M unit) : M unit :=
  match l with
  | [] => ret ()
  | a :: l' => body a ;; for_each l' body
  end.

(** A draw from [np.random]; a failed draw is numpy's [ValueError]. *)
Definition draw {A} (f : sampler A) : M A := λ s,
  match f (np_random s) with
  | Some (a, g) => (Val a, set_np_random g s)
  | None => (Abort (Raise ValueError), s)
  end.

(** [a // b] and [a % b] *)
Definition floordiv (a b : nat) : M nat :=
  if decide (b = 0) then raise ZeroDivisionError else ret (a / b).

Definition pymod (a b : Z) : M Z :=
  if decide (b = 0%Z) then raise ZeroDivisionError else ret (a mod b)%Z.

(** [episodic_images[idx]], [episodic_labels[idx]]: an index outside the
    arrays is an [IndexError]. *)
Definition episodic_read (idx : list nat) : M unit :=
  emit (Replay idx) ;;
  s ← get;
  if decide (Forall (λ i, i < length (episodic_images s)
                          ∧ i < length (episodic_labels s)) idx)
  then ret ()
  else raise IndexError.

(** *** The two buffer policies *)

(** Writes one exemplar into a slot of both arrays. *)
Definition write_slot (slot : nat) (x : Img) (y : Lab) : M unit :=
  s ← get;
  if decide (slot < length (episodic_images s) ∧ slot < length (episodic_labels s))
  then modify (set_slot slot x y)
  else raise PreconditionFailure.

(** Modelled from the spec: [update_reservior] of [utils/utils.py] is not
    part of this file.  While the exemplars seen so far do not fill
    the buffer the exemplar is appended at slot [examples_seen_so_far];
    afterwards it is admitted with probability
    [capacity / (examples_seen_so_far + 1)] into a uniformly chosen slot, and
    otherwise discarded.  The counter is the caller's. *)
Definition update_reservior (er_x : Img) (er_y_ : Lab)
    (episodic_mem_size examples_seen_so_far : nat) : M unit :=
  if decide (examples_seen_so_far < episodic_mem_size)
  then write_slot examples_seen_so_far er_x er_y_
  else
    j ← draw (λ g, Some (random_interval g examples_seen_so_far));
    if decide (j < episodic_mem_size) then write_slot j er_x er_y_ else ret ().

(** Modelled from the spec: the base slot of a class's region.  The regions of
    the classes of a task follow each other from the task's base offset, in
    the order of [batch_task_labels], [quota] slots each. *)
Definition class_offset (batch_task_labels : list nat) (quota base c : nat)
  : option nat :=
  pos ← fst <$> list_find (λ c', c' = c) batch_task_labels;
  Some (base + pos * quota).

(** Modelled from the spec: one exemplar of [update_fifo_buffer] of
    [utils/utils.py], which is not part of this file.  The exemplar of class
    [c] goes to slot [class_offset[c] + count_cls[c] % quota] and
    [count_cls[c]] is incremented; a class without a region, or a slot
    outside the buffer, is a fatal precondition failure.  The counts are
    natural numbers, as the spec words them (line 233 stores them in an
    [int32] array). *)
Definition fifo_write (batch_task_labels : list nat) (quota base : nat)
    (exemplar : Img * Lab) : M unit :=
  let c := class_of exemplar.2 in
  match class_offset batch_task_labels quota base c with
  | None => raise PreconditionFailure
  | Some offset =>
      s ← get;
      match count_cls s !! c with
      | None => raise PreconditionFailure
      | Some n =>
          if decide (quota = 0) then raise PreconditionFailure
          else
            write_slot (offset + n mod quota) exemplar.1 exemplar.2 ;;
            modify (λ s, set_count_cls (<[c:=S n]> (count_cls s)) s)
      end
  end.

Definition update_fifo_buffer (batch : list (Img * Lab))
    (batch_task_labels : list nat) (mem_size episodic_filled_counter : nat)
  : M unit :=
  for_each batch (fifo_write batch_task_labels mem_size episodic_filled_counter).

(** A sequence of ring-buffer writes: every exemplar comes with the labels
    of its task and the base offset of that task, as [update_fifo_buffer]
    is given them. *)
Definition fifo_writes (quota : nat)
    (writes : list (list nat * nat * (Img * Lab))) : M unit :=
  for_each writes (λ w, fifo_write w.1.1 quota w.1.2 w.2).

(** How many of [writes] are for class [c]. *)
Definition writes_of_class (c : nat) (writes : list (list nat * nat * (Img * Lab)))
  : nat :=
  length (filter (λ w, class_of w.2.2 = c) writes).

(** *** One mini-batch *)

(** Lines 181-184. *)
Definition use_episodic_memory : bool :=
  match Model.imp_method model with
  | A_GEM | ER_Ringbuffer | ER_Reservoir | ER_SUBSPACE | ER_SUBSPACE_GP => true
  | _ => false
  end.

(** The methods the training step has a branch for: all of [MODELS] but
    S-GEM, for which [loss] is never bound. *)
Definition has_branch : bool :=
  match Model.imp_method model with
  | S_GEM => false
  | _ => true
  end.

(** Lines 339-360: [offset] and [residual] of the batch [iters]. *)
Definition batch_bounds (num_train_examples iters : nat) : M (Z * nat) :=
  let batch_size := Args.batch_size args in
  if Args.train_single_epoch args then
    let offset := iters * batch_size in
    let residual :=
      if decide (offset + batch_size ≤ num_train_examples)
      then batch_size else num_train_examples - offset in
    mret (Z.of_nat offset, residual)
  else
    offset ← pymod (Z.of_nat (iters * batch_size))
                   (Z.of_nat num_train_examples - Z.of_nat batch_size);
    mret (offset, batch_size).

(** [update_fifo_buffer(..., task_labels[task], args.mem_size, count_cls,
    episodic_filled_counter)], lines 483, 552, 595 and 648. *)
Definition put_batch_in_ring_buffer (task : nat) (labels : list nat)
    (batch : list (Img * Lab)) : M unit :=
  s ← get;
  emit (FifoUpdate task (episodic_filled_counter s)) ;;
  update_fifo_buffer batch labels (Args.mem_size args) (episodic_filled_counter s).

(** Lines 529-530: one exemplar is offered to the reservoir, then counted. *)
Definition offer_to_reservoir (episodic_mem_size : nat) (exemplar : Img * Lab)
  : M unit :=
  s ← get;
  emit (Offer exemplar (examples_seen_so_far s)) ;;
  update_reservior exemplar.1 exemplar.2 episodic_mem_size (examples_seen_so_far s) ;;
  modify (λ s, set_examples_seen_so_far (examples_seen_so_far s + 1) s).

(** Lines 527-530. *)
Definition reservoir_update (episodic_mem_size : nat) (batch : list (Img * Lab))
  : M unit :=
  for_each batch (offer_to_reservoir episodic_mem_size).

(** Lines 558-565 and 603-610: replay of one earlier task. *)
Definition replay_earlier_task (task classes_per_task : nat) : M unit :=
  if decide (0 < task) then
    r ← draw (subspace_er_mem_indices task (Args.mem_size args) classes_per_task);
    episodic_read r.2
  else mret ().

(** The part of a training step that touches the episodic memory and the
    generator, by [model.imp_method] (lines 374-649). *)
Definition replay_and_update (task classes_per_task episodic_mem_size : nat)
    (labels : list nat) (batch : list (Img * Lab)) : M unit :=
  match Model.imp_method model with
  | A_GEM =>
      (if decide (task = 0) then mret ()
       else
         s ← get;
         mem_sample_mask ←
           draw (agem_mem_sample_mask (episodic_filled_counter s)
                   (Args.eps_mem_batch args));
         episodic_read mem_sample_mask) ;;
      put_batch_in_ring_buffer task labels batch
  | ER_Reservoir =>
      s ← get;
      er_mem_indices ←
        draw (reservoir_er_mem_indices (examples_seen_so_far s)
                episodic_mem_size (Args.eps_mem_batch args));
      episodic_read er_mem_indices ;;
      reservoir_update episodic_mem_size batch
  | ER_Ringbuffer =>
      s ← get;
      er_mem_indices ←
        draw (ringbuffer_er_mem_indices (episodic_filled_counter s)
                episodic_mem_size (Args.eps_mem_batch args));
      episodic_read er_mem_indices ;;
      put_batch_in_ring_buffer task labels batch
  | ER_SUBSPACE =>
      replay_earlier_task task classes_per_task ;;
      put_batch_in_ring_buffer task labels batch
  | ER_SUBSPACE_GP =>
      replay_earlier_task task classes_per_task ;;
      (if decide (task = 0) then mret ()
       else
         s ← get;
         er_mem_indices ←
           draw (ringbuffer_er_mem_indices (episodic_filled_counter s)
                   episodic_mem_size (Args.eps_mem_batch args));
         episodic_read er_mem_indices) ;;
      put_batch_in_ring_buffer task labels batch
  | _ => mret ()
  end.

(** *** Evaluation

    [test_task_sequence(model, sess, test_data, test_tasks, task)], lines
    741-815, with [TIME_MY_METHOD], [MEASURE_PERF_ON_EPS_MEMORY] and
    [MULTI_TASK] at their value [False].  An accuracy is opaque ([Acc], with
    [zero_acc] the entry [np.zeros] allocates); [accuracy_eval tt labels mask]
    is what [model.accuracy] (or [model.accuracy[tt]]) evaluates to on the
    test data of the classes [labels] when [mask] is fed as
    [model.output_mask].  The projection matrices are taken to have an entry
    per task of the model. *)

(** [logit_mask]: one row over the classes, or one row per task. *)
Inductive logit_mask :=
  | Mask1 (mask : list bool)
  | Mask2 (mask : list (list bool)).

(** Line 750. *)
Definition multi_head : bool :=
  match Model.imp_method model with
  | PNN | A_GEM | ER_Ringbuffer => true
  | _ => false
  end.

(** [mask[labels] = 1.0]: an [IndexError] ([None]) when a label is not a
    column of the mask. *)
Definition set_ones (mask : list bool) (labels : list nat) : option (list bool) :=
  if decide (Forall (λ c, c < length mask) labels)
  then Some (foldr (λ c m, <[c:=true]> m) mask labels)
  else None.

(** Lines 776-777, 787-788 and 802-803: the mask is cleared, then the
    classes of task [tt] are switched on, in row [tt] when there is a row
    per task. *)
Definition task_logit_mask (tt : nat) (labels : list nat) : option logit_mask :=
  if multi_head then
    let zeros := replicate (Model.num_tasks model) (replicate TOTAL_CLASSES false) in
    row ← zeros !! tt;
    row ← set_ones row labels;
    Some (Mask2 (<[tt:=row]> zeros))
  else
    Mask1 <$> set_ones (replicate TOTAL_CLASSES false) labels.

(** Lines 767-815: [for tt, labels in enumerate(test_tasks)], from position
    [tt] on. *)
Fixpoint test_loop {Acc} (accuracy_eval : nat → list nat → logit_mask → Acc)
    (task tt : nat) (test_tasks : list (list nat)) (final_acc : list Acc)
  : outcome (list Acc) :=
  match test_tasks with
  | [] => Val final_acc
  | labels :: test_tasks =>
      if decide (task < tt) then Val final_acc
      else
        match task_logit_mask tt labels with
        | None => Abort (Raise IndexError)
        | Some mask =>
            let acc := accuracy_eval tt labels mask in
            if decide (tt < length final_acc)
            then test_loop accuracy_eval task (S tt) test_tasks (<[tt:=acc]> final_acc)
            else Abort (Raise IndexError)
        end
  end.

Definition test_task_sequence {Acc} (zero_acc : Acc)
    (accuracy_eval : nat → list nat → logit_mask → Acc)
    (test_tasks : list (list nat)) (task : nat) : outcome (list Acc) :=
  test_loop accuracy_eval task 0 test_tasks
    (replicate (Model.num_tasks model) zero_acc).

(** Whether a mask lets class [c] through for the head of task [head]. *)
Definition mask_at (mask : logit_mask) (head c : nat) : option bool :=
  match mask with
  | Mask1 m => m !! c
  | Mask2 m => row ← m !! head; row !! c
  end.


(** *** What the loop does with the masks and the evaluation *)

(** The outcome of a computation that does not touch the state. *)
Definition lift {A} (o : outcome A) : M A := λ s, (o, s).

(** [logit_mask[labels] = 1.0] on the row of line 238 (lines 296 and 300). *)
Definition assign_logit_mask (labels : list nat) : M unit :=
  match set_ones (replicate TOTAL_CLASSES false) labels with
  | Some _ => mret ()
  | None => raise IndexError
  end.

(** The mask of task [task] alone, in the layout of the method: a row of
    [pnn_logit_mask] or [nd_logit_mask], or [logit_mask] (lines 326-337 and
    708-712). *)
Definition assign_task_mask (task : nat) (labels : list nat) : M unit :=
  match task_logit_mask task labels with
  | Some _ => mret ()
  | None => raise IndexError
  end.

(** The calls of [test_task_sequence] on the partition of the run (lines
    324, 704 and 723).  The accuracies go to [runs], which the development
    does not follow; of a call the loop keeps whether it raises, and that
    does not depend on the accuracies. *)
Definition evaluate (task_labels : list (list nat)) (task : nat) : M unit :=
  lift (test_task_sequence () (λ _ _ _, ()) task_labels task) ;; mret ().

(** Line 322. *)
Definition snapshot_due (iters : nat) : bool :=
  bool_decide (iters ≤ 20)
  || (bool_decide (20 < iters) && bool_decide (iters mod 50 = 0)).

(** Lines 321-337: with [--train-single-epoch] and without
    [--cross-validate-mode] the performance is snapshot before each of the
    first 21 steps and before every 50th, and the mask of the current task is
    set again. *)
Definition snapshot (task_labels : list (list nat)) (task iters : nat) : M unit :=
  if Args.train_single_epoch args && negb (Args.cross_validate_mode args) then
    if snapshot_due iters then
      evaluate task_labels task ;;
      assign_task_mask task (default [] (task_labels !! task))
    else mret ()
  else mret ().

(** Lines 339-658: the body of [for iters in range(num_iters)] from the
    batch on; [snapshot] comes before it.  The branches set masks as well
    (lines 385-393, 445-457, 473-474, 517-520, 540-542, 569-570, 578-579,
    611-612 and 623-624), always with the labels of tasks up to the current
    one, which lines 296, 300 or 324 have indexed before the first step of
    the task: those writes raise nothing and are left out. *)
Definition train_iter (runid task classes_per_task episodic_mem_size : nat)
    (labels : list nat) (train : list (Img * Lab)) (iters : nat) : M unit :=
  '(offset, residual) ← batch_bounds (length train) iters;
  let batch := py_slice train offset (offset + Z.of_nat residual) in
  replay_and_update task classes_per_task episodic_mem_size labels batch ;;
  loss ← (if has_branch then mret (sess_run_loss runid task iters)
          else raise NameError);
  emit (TrainStep runid task iters loss) ;;
  if math_isnan loss then sys_exit 0 else mret ().

(** [train_x[offset:offset+residual]] of step [iters], as [train_iter] cuts
    it. *)
Definition batch_of (train : list (Img * Lab)) (iters : nat)
  : M (list (Img * Lab)) :=
  '(offset, residual) ← batch_bounds (length train) iters;
  mret (py_slice train offset (offset + Z.of_nat residual)).

(** What [train_iter] does with its batch. *)
Definition train_on_batch (runid task classes_per_task episodic_mem_size : nat)
    (labels : list nat) (iters : nat) (batch : list (Img * Lab)) : M unit :=
  replay_and_update task classes_per_task episodic_mem_size labels batch ;;
  loss ← (if has_branch then mret (sess_run_loss runid task iters)
          else raise NameError);
  emit (TrainStep runid task iters loss) ;;
  if math_isnan loss then sys_exit 0 else mret ().

(** Lines 319-658: the body of [for iters in range(num_iters)]. *)
Definition train_step (runid task classes_per_task episodic_mem_size : nat)
    (task_labels : list (list nat)) (train : list (Img * Lab)) (iters : nat)
  : M unit :=
  snapshot task_labels task iters ;;
  train_iter runid task classes_per_task episodic_mem_size
    (default [] (task_labels !! task)) train iters.

(** *** One task, one run, all runs *)

(** Lines 252-689: the body of [for task in range(len(task_labels))] up to
    the counter; [after_task] is the rest. *)
Definition train_task (runid classes_per_task episodic_mem_size : nat)
    (task_labels : list (list nat)) (task : nat) : M unit :=
  let labels := default [] (task_labels !! task) in
  let task_train := load_task_specific_data labels in
  let num_train_examples := length task_train in
  num_iters ←
    (if Args.train_single_epoch args
     then floordiv (num_train_examples + Args.batch_size args - 1) (Args.batch_size args)
     else mret (Args.train_iters args));
  (if Args.train_single_epoch args && negb (Args.cross_validate_mode args)
   then mret () else assign_logit_mask labels) ;;
  perm ← draw (λ g, Some (shuffle g (arange num_train_examples)));
  let train := omap (λ i, task_train !! i) perm in
  for_each (seq 0 num_iters)
    (train_step runid task classes_per_task episodic_mem_size task_labels train) ;;
  if use_episodic_memory
  then modify (λ s, set_episodic_filled_counter
                      (episodic_filled_counter s
                       + Args.mem_size args * classes_per_task) s)
  else mret ().

(** Lines 697-730: the evaluation after the task and, with
    [--train-single-epoch], without [--cross-validate-mode] and for PNN, the
    mask of the task once more. *)
Definition after_task (task_labels : list (list nat)) (task : nat) : M unit :=
  evaluate task_labels task ;;
  if Args.train_single_epoch args && negb (Args.cross_validate_mode args)
  then match Model.imp_method model with
       | PNN => assign_task_mask task (default [] (task_labels !! task))
       | _ => mret ()
       end
  else mret ().

(** Lines 199-203. *)
Definition label_array (classes_per_task total_classes : nat) : list nat :=
  if Args.online_cross_val args then arange total_classes
  else
    let class_label_offset := K_FOR_CROSS_VAL * classes_per_task in
    arange2 class_label_offset (total_classes + class_label_offset).

(** Lines 206-208: [label_array[tt_offset:tt_offset+classes_per_task]] for
    each task [tt]. *)
Definition split_task_labels (shuffled : list nat) (classes_per_task num_tasks : nat)
  : list (list nat) :=
  (λ tt, let tt_offset := tt * classes_per_task in
         take classes_per_task (drop tt_offset shuffled)) <$> seq 0 num_tasks.

(** Lines 229-235. *)
Definition allocate (episodic_mem_size : nat) : M unit :=
  modify (λ s,
    State (np_random s)
      (replicate episodic_mem_size zero_image)
      (replicate episodic_mem_size zero_label)
      (replicate TOTAL_CLASSES 0) 0 0
      (log s ++ [Allocate episodic_mem_size])).

(** Line 192, [np.random.seed(seed)]: a [ValueError] unless
    [0 <= seed < 2**32]. *)
Definition seed_generator (seed : Z) : M unit :=
  if decide (0 ≤ seed < 2 ^ 32)%Z
  then modify (set_np_random (np_random_seed seed))
  else raise ValueError.

(** Lines 188-734: the body of [for runid in range(args.num_runs)]. *)
Definition train_run (runid : nat) : M (list (list nat)) :=
  seed_generator (Args.random_seed args + Z.of_nat runid) ;;
  classes_per_task ← floordiv TOTAL_CLASSES (Args.num_tasks args);
  let total_classes := classes_per_task * Model.num_tasks model in
  shuffled ← draw (λ g, Some (shuffle g (label_array classes_per_task total_classes)));
  let task_labels := split_task_labels shuffled classes_per_task (Model.num_tasks model) in
  emit (TaskLabels runid task_labels) ;;
  let episodic_mem_size := Args.mem_size args * total_classes in
  (if use_episodic_memory then allocate episodic_mem_size else mret ()) ;;
  modify (λ s, set_np_random (generate_projection_matrix (np_random s)) s) ;;
  for_each (seq 0 (length task_labels))
    (λ task,
       train_task runid classes_per_task episodic_mem_size task_labels task ;;
       after_task task_labels task) ;;
  mret task_labels.

Fixpoint run_loop (runids : list nat) (task_labels_dataset : list (list (list nat)))
  : M (list (list (list nat))) :=
  match runids with
  | [] => mret task_labels_dataset
  | runid :: runids =>
      task_labels ← train_run runid;
      run_loop runids (task_labels_dataset ++ [task_labels])
  end.

(** [train_task_sequence]; of its result, [task_labels_dataset]. *)
Definition train_task_sequence : M (list (list (list nat))) :=
  run_loop (seq 0 (Args.num_runs args)) [].

(** An execution from the generator state [g]. *)
Definition execute (g : RandomState) : outcome (list (list (list nat))) * state :=
  train_task_sequence (initial_state g).

(** *** What every execution maintains *)

(** The three quantities every run derives from the arguments: line 197,
    the increment of line 689, and line 215. *)
Definition cpt : nat := TOTAL_CLASSES / Args.num_tasks args.
Definition per_task_quota : nat := Args.mem_size args * cpt.
Definition capacity : nat := Args.mem_size args * (cpt * Model.num_tasks model).

(** The partition of run [runid] as a function of the arguments alone. *)
Definition run_task_labels (runid : nat) : option (list (list nat)) :=
  if decide (Args.num_tasks args = 0) then None
  else
    let g := np_random_seed (Args.random_seed args + Z.of_nat runid) in
    let shuffled := (shuffle g (label_array cpt (cpt * Model.num_tasks model))).1 in
    Some (split_task_labels shuffled cpt (Model.num_tasks model)).

Definition offer_seen (e : event) : option nat :=
  match e with Offer _ seen => Some seen | _ => None end.

Definition is_allocate (e : event) : bool :=
  match e with Allocate _ => true | _ => false end.

Definition is_task_labels (e : event) : bool :=
  match e with TaskLabels _ _ => true | _ => false end.

Definition step_loss (e : event) : option pyfloat :=
  match e with TrainStep _ _ _ loss => Some loss | _ => None end.

(** The training steps whose loss satisfies [bad]. *)
Definition step_with (bad : pyfloat → bool) (e : event) : bool :=
  match step_loss e with Some loss => bad loss | None => false end.

Definition nan_step : event → bool := step_with math_isnan.

(** "A training step whose loss is [bad] ends the process at once": such a
    step is the last thing that happened, and the process ended with
    [sys.exit(0)]. *)
Definition fatal_loss {A} (bad : pyfloat → bool) (r : outcome A * state) : Prop :=
  ∀ pre e post,
    log r.2 = pre ++ e :: post → step_with bad e = true →
    post = [] ∧ r.1 = Abort (SysExit 0).

(** A family of [n_tasks] pairwise disjoint sets of [per_task] distinct
    labels each. *)
Definition task_partition (n_tasks per_task : nat) (task_labels : list (list nat))
  : Prop :=
  length task_labels = n_tasks ∧
  Forall (λ labels, length labels = per_task) task_labels ∧
  NoDup (concat task_labels).

(** The events since the buffers were last allocated, that is since the
    current run set up its episodic memory. *)
Definition since_allocate (l : list event) : list event :=
  fold_left (λ acc e, if is_allocate e then [] else acc ++ [e]) l [].

Definition count_events (f : event → bool) (l : list event) : nat :=
  length (filter (λ e, f e = true) l).

Definition event_ok (e : event) : Prop :=
  match e with
  | TaskLabels runid task_labels => run_task_labels runid = Some task_labels
  | Allocate n => n = capacity
  | Replay idx => Forall (λ i, i < capacity) idx
  | FifoUpdate task offset => offset = task * Args.mem_size args * cpt
  | Offer _ _ => True
  | TrainStep _ _ _ _ => True
  end.

Definition buffers_sized (s : state) : Prop :=
  length (episodic_images s) = capacity ∧ length (episodic_labels s) = capacity.

(** Holds of every state an execution goes through, but for the two steps
    between line 212 and line 235. *)
Definition Inv (s : state) : Prop :=
  Forall event_ok (log s) ∧
  omap offer_seen (since_allocate (log s)) = seq 0 (examples_seen_so_far s) ∧
  episodic_filled_counter s ≤ capacity ∧
  count_events is_allocate (log s)
    = (if use_episodic_memory then count_events is_task_labels (log s) else 0) ∧
  (count_events is_allocate (log s) ≠ 0 → buffers_sized s).

(** While the loop goes on no step has had a NaN loss. *)
Definition Normal (s : state) : Prop :=
  Inv s ∧ Forall (λ e, nan_step e = false) (log s).

(** During task [task] of a run. *)
Definition InTask (task : nat) (s : state) : Prop :=
  Normal s ∧
  (use_episodic_memory = true →
   buffers_sized s ∧ episodic_filled_counter s = task * per_task_quota).

(** After an abort: a NaN step is the last thing that happened, and it ended
    the process with [sys.exit(0)]. *)
Definition nan_abort (r : abort) (l : list event) : Prop :=
  Forall (λ e, nan_step e = false) l ∨
  ∃ l' e, l = l' ++ [e] ∧ Forall (λ e, nan_step e = false) l' ∧
          nan_step e = true ∧ r = SysExit 0.

Definition Aborted (r : abort) (s : state) : Prop :=
  Inv s ∧ nan_abort r (log s) ∧ r ≠ Raise IndexError.

(** Every label is a column of the masks. *)
Definition labels_in_range (task_labels : list (list nat)) : Prop :=
  Forall (Forall (λ c, c < TOTAL_CLASSES)) task_labels.

(** The evaluation of the tasks up to [task] has what it indexes: a column
    for every label, an entry of [final_acc] for every task, and a row for
    task [task]. *)
Definition can_evaluate (task_labels : list (list nat)) (task : nat) : Prop :=
  labels_in_range task_labels ∧
  length task_labels ≤ Model.num_tasks model ∧
  task < Model.num_tasks model.

(** The labels the runs draw their tasks from (lines 199-203) are columns of
    the masks. *)
Definition labels_fit : Prop :=
  Forall (λ c, c < TOTAL_CLASSES) (label_array cpt (cpt * Model.num_tasks model)).

(** The last thing that happened is a read of the episodic memory: a read
    that raises leaves the log so. *)
Definition last_is_read (l : list event) : bool :=
  match last l with
  | Some (Replay _) => true
  | _ => false
  end.

(** Between two training steps of task [task]. *)
Definition Between (task : nat) (s : state) : Prop :=
  InTask task s ∧ last_is_read (log s) = false.

(** After an abort of a run: as [Aborted], but for the [IndexError] of a mask
    that has no column for a label; that one is raised between two steps. *)
Definition Stopped (r : abort) (s : state) : Prop :=
  Inv s ∧ nan_abort r (log s) ∧
  (r = Raise IndexError → ¬ labels_fit ∧ last_is_read (log s) = false).


(** A check: it returns, or raises [IndexError] when [ok] fails, and changes
    nothing. *)
Definition checks (ok : Prop) (m : M unit) : Prop :=
  ∀ s, m s = (Val (), s) ∨ (m s = (Abort (Raise IndexError), s) ∧ ¬ ok).

(** A computation that leaves an observation [f] of the state as it found
    it, however it ends. *)
Definition keeps {X A} (f : state → X) (m : M A) : Prop :=
  ∀ s, f (m s).2 = f s.

(** A computation that only adds to the log. *)
Definition grows {A} (m : M A) : Prop :=
  ∀ s, ∃ rest, log (m s).2 = log s ++ rest.

(** The reservoir holds what it was offered: every slot below
    [min(examples_seen_so_far, episodic_mem_size)] holds an exemplar that was
    offered since the buffers were allocated, and every slot from
    [examples_seen_so_far] on still holds the rows [np.zeros] put there. *)
Definition reservoir_valid (s : state) : Prop :=
  (∀ i, i < examples_seen_so_far s `min` capacity →
     ∃ exemplar seen,
       Offer exemplar seen ∈ since_allocate (log s) ∧
       episodic_images s !! i = Some exemplar.1 ∧
       episodic_labels s !! i = Some exemplar.2) ∧
  (∀ i, examples_seen_so_far s ≤ i →
     (∀ x, episodic_images s !! i = Some x → x = zero_image) ∧
     (∀ y, episodic_labels s !! i = Some y → y = zero_label)).

Definition buffer_lengths (s : state) : nat * nat :=
  (length (episodic_images s), length (episodic_labels s)).

(** Pre- and postconditions of a computation: [Q] on a normal return, [R]
    when it raises or exits. *)
Definition triple {A} (P : state → Prop) (m : M A)
    (Q : A → state → Prop) (R : abort → state → Prop) : Prop :=
  ∀ s, P s →
    match m s with
    | (Val a, s') => Q a s'
    | (Abort r, s') => R r s'
    end.

(** *** Facts about the generator *)

Section numpy_facts.
Context {A : Type}.
Implicit Types (x l : list A) (g : RandomState).




Lemma insert_head_Permutation l j (a b : A) :
  l !! j = Some b → b :: <[j:=a]> l ≡ₚ a :: l.
Proof.
  revert j. induction l as [|c l IH]; intros [|j] Hj; simplify_eq/=.
  - apply perm_swap.
  - rewrite perm_swap, (IH _ Hj). apply perm_swap.
Qed.

Lemma swap_Permutation x i j : swap x i j ≡ₚ x.
Proof.
  unfold swap.
  destruct (x !! i) as [a|] eqn:Hi; [|done].
  destruct (x !! j) as [b|] eqn:Hj; [|done].
  revert i j Hi Hj. induction x as [|c x IH]; intros [|i] [|j] Hi Hj;
    simplify_eq/=; try done.
  - by apply insert_head_Permutation.
  - by apply insert_head_Permutation.
  - f_equiv. by apply IH.
Qed.

Lemma shuffle_from_Permutation i g x : (shuffle_from i g x).1 ≡ₚ x.
Proof.
  revert g x. induction i as [|i IH]; intros g x; simpl; [done|].
  destruct (random_interval g (S i)) as [j g'].
  rewrite IH. apply swap_Permutation.
Qed.

Lemma shuffle_Permutation g x : (shuffle g x).1 ≡ₚ x.
Proof. apply shuffle_from_Permutation. Qed.

Lemma shuffle_length g x : length (shuffle g x).1 = length x.
Proof. by rewrite shuffle_Permutation. Qed.
End numpy_facts.

(** Fisher-Yates reaches every arrangement: the order of a shuffled array is
  decided by the generator alone. *)
Section shuffle_reach.
Context {A : Type}.
Implicit Types (x p r : list A) (g : RandomState).






End shuffle_reach.

(** What [np.random.choice(n, size, replace=False)] delivers. *)
Lemma permutation_Permutation g n : (permutation g n).1 ≡ₚ seq 0 n.
Proof.
  unfold permutation, arange, arange2. rewrite shuffle_Permutation.
  by rewrite Nat.sub_0_r.
Qed.

Lemma choice_is_Some g n size :
  size ≤ n → choice g n size = Some (take size (permutation g n).1, (permutation g n).2).
Proof.
  intros Hle. unfold choice. rewrite decide_True by done.
  by destruct (permutation g n).
Qed.

Lemma take_permutation_spec g n size :
  size ≤ n →
  let idx := take size (permutation g n).1 in
  length idx = size ∧ NoDup idx ∧ (∀ i, i ∈ idx → i < n).
Proof.
  intros Hle idx. pose proof (permutation_Permutation g n) as Hp.
  split_and!.
  - unfold idx. rewrite length_take, Hp, length_seq. lia.
  - eapply sublist_NoDup; [|apply sublist_take].
  rewrite Hp. apply NoDup_seq.
  - intros i Hi. apply elem_of_take in Hi as (k & Hk & _).
  apply list_elem_of_lookup_2 in Hk. rewrite Hp in Hk.
  apply elem_of_seq in Hk. lia.
Qed.

Lemma take_permutation_all g n : take n (permutation g n).1 ≡ₚ seq 0 n.
Proof.
  pose proof (permutation_Permutation g n) as Hp.
  rewrite take_ge; [done|]. by rewrite Hp, length_seq.
Qed.

Lemma sampled_without_replacement_Permutation filled k idx idx' :
  idx ≡ₚ idx' →
  sampled_without_replacement filled k idx →
  sampled_without_replacement filled k idx'.
Proof.
  intros Hp [Hfull Hsub]. split.
  - intros Hle. by rewrite <-Hp, Hfull.
  - intros Hlt. destruct (Hsub Hlt) as (Hlen & Hnd & Hin).
  rewrite <-Hp. split_and!; [done..|].
  intros i. rewrite <-Hp. apply Hin.
Qed.

Lemma arange_sampled filled k :
  filled ≤ k → sampled_without_replacement filled k (arange filled).
Proof.
  intros Hle. split; [|lia]. intros _.
  unfold arange, arange2. by rewrite Nat.sub_0_r.
Qed.

Lemma choice_sampled g filled k :
  k ≤ filled →
  sampled_without_replacement filled k (take k (permutation g filled).1).
Proof.
  intros Hle. split.
  - intros Hle'. assert (k = filled) as -> by lia. apply take_permutation_all.
  - intros _. by apply take_permutation_spec.
Qed.

Example reservoir_draw_small :
  reservoir_er_mem_indices 3 10 5 [7; 1] = Some ([0; 2; 1], []).
Proof. reflexivity. Qed.

Example ringbuffer_draw_subsampled :
  ringbuffer_er_mem_indices 6 20 2 [3; 3; 1; 0; 1; 1] = Some ([2; 4], []).
Proof. reflexivity. Qed.

Example reservoir_draw_full :
  reservoir_er_mem_indices 6 20 6 [3; 3; 1; 0; 1; 1; 0; 0; 0; 2; 1]
  = Some ([3; 0; 1; 5; 2; 4], [1]).
Proof. reflexivity. Qed.

Lemma shuffled_sampled g filled k idx :
  sampled_without_replacement filled k idx →
  sampled_without_replacement filled k (shuffle g idx).1.
Proof.
  intros Hs. eapply sampled_without_replacement_Permutation; [|exact Hs].
  symmetry. apply shuffle_Permutation.
Qed.

Lemma sampled_bound filled k idx :
  sampled_without_replacement filled k idx → Forall (λ i, i < filled) idx.
Proof.
  intros [Hfull Hsub]. apply Forall_forall. intros i Hi.
  destruct (decide (filled ≤ k)) as [Hle|Hgt].
  - rewrite (Hfull Hle) in Hi. apply elem_of_seq in Hi. lia.
  - destruct Hsub as (_ & _ & Hin); [lia|]. by apply Hin.
Qed.

Lemma reservoir_draw_spec examples_seen_so_far episodic_mem_size k g :
  ∃ idx g',
  reservoir_er_mem_indices examples_seen_so_far episodic_mem_size k g
    = Some (idx, g') ∧
  sampled_without_replacement
    (reservoir_mem_filled_so_far examples_seen_so_far episodic_mem_size) k idx.
Proof.
  unfold reservoir_er_mem_indices.
  set (filled := reservoir_mem_filled_so_far _ _).
  destruct (decide (filled < k)) as [Hlt|Hge]; simpl.
  - eexists _, _. split; [f_equal; apply surjective_pairing|].
  apply shuffled_sampled, arange_sampled. lia.
  - rewrite choice_is_Some by lia. simpl.
  eexists _, _. split; [f_equal; apply surjective_pairing|].
  apply shuffled_sampled, choice_sampled. lia.
Qed.

Lemma ringbuffer_draw_spec episodic_filled_counter episodic_mem_size k g :
  ∃ idx g',
  ringbuffer_er_mem_indices episodic_filled_counter episodic_mem_size k g
    = Some (idx, g') ∧
  sampled_without_replacement
    (ringbuffer_mem_filled_so_far episodic_filled_counter episodic_mem_size) k idx.
Proof.
  unfold ringbuffer_er_mem_indices.
  set (filled := ringbuffer_mem_filled_so_far _ _).
  destruct (decide (filled ≤ k)) as [Hle|Hgt]; simpl.
  - eexists _, _. split; [f_equal; apply surjective_pairing|].
  by apply shuffled_sampled, arange_sampled.
  - rewrite choice_is_Some by lia. simpl.
  eexists _, _. split; [f_equal; apply surjective_pairing|].
  apply shuffled_sampled, choice_sampled. lia.
Qed.

Lemma agem_draw_spec episodic_filled_counter k g :
  ∃ idx g',
  agem_mem_sample_mask episodic_filled_counter k g = Some (idx, g') ∧
  sampled_without_replacement episodic_filled_counter k idx.
Proof.
  unfold agem_mem_sample_mask.
  destruct (decide (episodic_filled_counter ≤ k)) as [Hle|Hgt].
  - eexists _, _. split; [done|]. by apply arange_sampled.
  - rewrite choice_is_Some by lia.
  eexists _, _. split; [done|]. apply choice_sampled. lia.
Qed.

Lemma subspace_draw_spec task mem_size classes_per_task g :
  0 < task →
  ∃ tt idx g',
  subspace_er_mem_indices task mem_size classes_per_task g = Some ((tt, idx), g') ∧
  tt < task ∧
  idx ≡ₚ seq (tt * mem_size * classes_per_task) (mem_size * classes_per_task).
Proof.
  intros Htask. unfold subspace_er_mem_indices.
  rewrite choice_is_Some by lia. simpl.
  destruct (take_permutation_spec g task 1 ltac:(lia)) as (Hlen & _ & Hin).
  destruct (take 1 (permutation g task).1) as [|tt [|??]] eqn:Hpick;
  simplify_eq/=.
  destruct (shuffle _ _) as [idx g'] eqn:Hsh.
  eexists tt, idx, g'. split_and!; [done| |].
  - apply Hin. by left.
  - pose proof (shuffle_Permutation (permutation g task).2
    (arange2 (tt * mem_size * classes_per_task)
       (tt * mem_size * classes_per_task + mem_size * classes_per_task))) as Hp.
  rewrite Hsh in Hp. simpl in Hp. rewrite Hp. unfold arange2.
  by replace (tt * mem_size * classes_per_task + mem_size * classes_per_task
              - tt * mem_size * classes_per_task)
    with (mem_size * classes_per_task) by lia.
Qed.

(** ** Reasoning rules *)

Section rules.
Context {A B : Type}.
Implicit Types (P : state → Prop) (R : abort → state → Prop).

Lemma triple_ret P (a : A) (Q : A → state → Prop) R :
  (∀ s, P s → Q a s) → triple P (mret a) Q R.
Proof. intros H s Hs. by apply H. Qed.

Lemma triple_bind P (m : M A) (f : A → M B) (Q' : A → state → Prop)
    (Q : B → state → Prop) R :
  triple P m Q' R → (∀ a, triple (Q' a) (f a) Q R) → triple P (m ≫= f) Q R.
Proof.
  intros Hm Hf s Hs. specialize (Hm s Hs).
  unfold mbind, M_bind, bind. destruct (m s) as [[a|r] s']; [|done].
  by apply Hf.
Qed.

Lemma triple_conseq P P' (m : M A) (Q Q' : A → state → Prop) R R' :
  triple P' m Q' R' →
  (∀ s, P s → P' s) → (∀ a s, Q' a s → Q a s) → (∀ r s, R' r s → R r s) →
  triple P m Q R.
Proof.
  intros Hm HP HQ HR s Hs. specialize (Hm s (HP s Hs)).
  destruct (m s) as [[a|r] s']; auto.
Qed.

Lemma triple_raise P (e : exn) (Q : A → state → Prop) R :
  (∀ s, P s → R (Raise e) s) → triple P (raise e) Q R.
Proof. intros H s Hs. by apply H. Qed.

Lemma triple_draw P (f : sampler A) (Q : A → state → Prop) R :
  (∀ s a g, P s → f (np_random s) = Some (a, g) → Q a (set_np_random g s)) →
  (∀ s, P s → f (np_random s) = None → R (Raise ValueError) s) →
  triple P (draw f) Q R.
Proof.
  intros HS HN s Hs. unfold draw.
  destruct (f (np_random s)) as [[a g]|] eqn:Hf; eauto.
Qed.
End rules.

Lemma triple_seq {B} (P I : state → Prop) (m : M unit) (k : M B)
    (Q : B → state → Prop) R :
  triple P m (λ _, I) R → triple I k Q R → triple P (m ;; k) Q R.
Proof. intros Hm Hk. eapply triple_bind; [exact Hm|]. by intros []. Qed.

Lemma triple_assume {A} (P : state → Prop) (φ : Prop) (m : M A)
    (Q : A → state → Prop) R :
  (φ → triple P m Q R) → triple (λ s, P s ∧ φ) m Q R.
Proof. intros H s [Hs Hφ]. by apply H. Qed.

Lemma triple_get P (Q : state → state → Prop) R :
  (∀ s, P s → Q s s) → triple P get Q R.
Proof. intros H s Hs. by apply H. Qed.

Lemma triple_modify P (f : state → state) (Q : unit → state → Prop) R :
  (∀ s, P s → Q () (f s)) → triple P (modify f) Q R.
Proof. intros H s Hs. by apply H. Qed.

Lemma triple_for_each {A} (I : nat → state → Prop) R (l : list A)
    (body : A → M unit) :
  (∀ i a, l !! i = Some a → triple (I i) (body a) (λ _, I (S i)) R) →
  triple (I 0) (for_each l body) (λ _, I (length l)) R.
Proof.
  revert I. induction l as [|a l IH]; intros I Hbody.
  - by apply triple_ret.
  - cbn [for_each]. eapply triple_bind.
    + apply (Hbody 0 a). done.
    + intros []. apply (IH (λ i, I (S i))).
      intros i b Hi. apply (Hbody (S i) b). done.
Qed.

Lemma triple_for_each_inv {A} (I : state → Prop) R (l : list A)
    (body : A → M unit) :
  (∀ a, a ∈ l → triple I (body a) (λ _, I) R) →
  triple I (for_each l body) (λ _, I) R.
Proof.
  intros Hbody. apply (triple_for_each (λ _, I)).
  intros i a Hi. apply Hbody. by eapply list_elem_of_lookup_2.
Qed.

(** ** The log *)

Lemma since_allocate_snoc l e :
  since_allocate (l ++ [e]) = if is_allocate e then [] else since_allocate l ++ [e].
Proof. unfold since_allocate. by rewrite fold_left_app. Qed.

Lemma count_events_snoc f l e :
  count_events f (l ++ [e]) = count_events f l + (if f e then 1 else 0).
Proof.
  unfold count_events. rewrite filter_app, length_app. f_equal.
  rewrite filter_cons, filter_nil. by destruct (f e); simpl.
Qed.

Lemma omap_snoc {X Y} (f : X → option Y) l x :
  omap f (l ++ [x]) = omap f l ++ (match f x with Some y => [y] | None => [] end).
Proof. rewrite omap_app. simpl. by destruct (f x). Qed.

(** An event that is neither an allocation, a partition nor an offer leaves
    [Inv] alone. *)
Lemma Inv_append_log e s :
  event_ok e → is_allocate e = false → is_task_labels e = false →
  offer_seen e = None →
  Inv s → Inv (append_log e s).
Proof.
  intros Hok Hal Htl Hof (Hev & Hseen & Hcnt & Hcount & Hsized).
  unfold Inv, buffers_sized in *; simpl.
  rewrite since_allocate_snoc, !count_events_snoc, Hal, Htl, omap_snoc, Hof.
  rewrite app_nil_r, !Nat.add_0_r. split_and!; try done.
  apply Forall_app. split; [done|]. by apply Forall_singleton.
Qed.

Lemma Inv_set_np_random g s : Inv s → Inv (set_np_random g s).
Proof. done. Qed.

Lemma Inv_set_count_cls c s : Inv s → Inv (set_count_cls c s).
Proof. done. Qed.

Lemma Inv_set_slot i x y s : Inv s → Inv (set_slot i x y s).
Proof.
  intros (Hev & Hseen & Hcnt & Hcount & Hsized).
  unfold Inv, buffers_sized in *; simpl. rewrite !length_insert. done.
Qed.

Lemma Inv_offer x s :
  Inv s →
  Inv (set_examples_seen_so_far (examples_seen_so_far s + 1)
       (append_log (Offer x (examples_seen_so_far s)) s)).
Proof.
  intros (Hev & Hseen & Hcnt & Hcount & Hsized).
  unfold Inv, buffers_sized in *; simpl.
  rewrite since_allocate_snoc, !count_events_snoc; simpl.
  rewrite omap_snoc; simpl.
  rewrite !Nat.add_0_r, Hseen, Nat.add_1_r, seq_S. split_and!; try done.
  apply Forall_app. split; [done|]. by apply Forall_singleton.
Qed.

(** ** What the steps of a mini-batch maintain *)

Lemma InTask_set_np_random task g s : InTask task s → InTask task (set_np_random g s).
Proof. done. Qed.

Lemma InTask_set_count_cls task c s : InTask task s → InTask task (set_count_cls c s).
Proof. done. Qed.

Lemma InTask_set_slot task i x y s : InTask task s → InTask task (set_slot i x y s).
Proof.
  intros [[HG Hnan] Hep]. split; [split; [by apply Inv_set_slot|done]|].
  intros H. destruct (Hep H) as [[? ?] ?].
  unfold buffers_sized; simpl. by rewrite !length_insert.
Qed.

Lemma InTask_append_log task e s :
  event_ok e → is_allocate e = false → is_task_labels e = false →
  offer_seen e = None → nan_step e = false →
  InTask task s → InTask task (append_log e s).
Proof.
  intros Hok Hal Htl Hof He [[HG Hnan] Hep].
  split; [split; [by apply Inv_append_log|]|done].
  simpl. apply Forall_app. split; [done|]. by apply Forall_singleton.
Qed.

Lemma InTask_offer task x s :
  InTask task s →
  InTask task (set_examples_seen_so_far (examples_seen_so_far s + 1)
                 (append_log (Offer x (examples_seen_so_far s)) s)).
Proof.
  intros [[HG Hnan] Hep]. split; [split; [by apply Inv_offer|]|done].
  simpl. apply Forall_app. split; [done|]. by apply Forall_singleton.
Qed.

Lemma Normal_Aborted r s : Normal s → r ≠ Raise IndexError → Aborted r s.
Proof. intros [HG Hnan] Hr. split_and!; [done|by left|done]. Qed.

Lemma InTask_Aborted task r s : InTask task s → r ≠ Raise IndexError → Aborted r s.
Proof. intros [HN _]. by apply Normal_Aborted. Qed.

Lemma write_slot_spec task slot x y :
  triple (InTask task) (write_slot slot x y) (λ _, InTask task) Aborted.
Proof.
  intros s Hs. unfold write_slot, mbind, M_bind, bind, get.
  destruct (decide _); simpl.
  - by apply InTask_set_slot.
  - by eapply InTask_Aborted.
Qed.

Lemma fifo_write_spec task batch_task_labels quota base exemplar :
  triple (InTask task) (fifo_write batch_task_labels quota base exemplar)
    (λ _, InTask task) Aborted.
Proof.
  unfold fifo_write.
  destruct (class_offset _ _ _ _) as [offset|];
    [|apply triple_raise; intros s Hs; by eapply InTask_Aborted].
  intros s Hs. unfold mbind at 1. unfold M_bind, bind, get.
  destruct (count_cls s !! _) as [n|];
    [|by eapply InTask_Aborted].
  destruct (decide (quota = 0)); [by eapply InTask_Aborted|].
  revert s Hs. fold (triple (InTask task)
    (write_slot (offset + n mod quota) exemplar.1 exemplar.2 ;;
     modify (λ s, set_count_cls (<[class_of exemplar.2:=S n]> (count_cls s)) s))
    (λ _, InTask task) Aborted).
  eapply triple_bind; [apply write_slot_spec|].
  intros []. apply triple_modify. intros s Hs. by apply InTask_set_count_cls.
Qed.

Lemma update_fifo_buffer_spec task batch batch_task_labels quota base :
  triple (InTask task) (update_fifo_buffer batch batch_task_labels quota base)
    (λ _, InTask task) Aborted.
Proof.
  apply triple_for_each_inv. intros exemplar _. apply fifo_write_spec.
Qed.

Lemma per_task_quota_assoc task :
  task * per_task_quota = task * Args.mem_size args * cpt.
Proof. unfold per_task_quota. lia. Qed.

Lemma put_batch_in_ring_buffer_spec task labels batch :
  use_episodic_memory = true →
  triple (InTask task) (put_batch_in_ring_buffer task labels batch)
    (λ _, InTask task) Aborted.
Proof.
  intros Hep. unfold put_batch_in_ring_buffer.
  eapply triple_bind.
  { apply (triple_get _ (λ a s, a = s ∧ InTask task s)). done. }
  intros s0. eapply triple_bind.
  - apply (triple_modify _ _ (λ _, InTask task)).
    intros s [-> Hs]. apply InTask_append_log; try done.
    simpl. destruct Hs as [_ Hc]. destruct (Hc Hep) as [_ ->].
    apply per_task_quota_assoc.
  - intros []. apply update_fifo_buffer_spec.
Qed.

(** With buffers of the size it is told, [update_reservior] neither raises
    nor exits. *)
Lemma write_slot_safe (I : state → Prop) slot x y :
  (∀ s, I s → I (set_slot slot x y s)) →
  (∀ s, I s → buffers_sized s) →
  slot < capacity →
  triple I (write_slot slot x y) (λ _, I) (λ _ _, False).
Proof.
  intros Hslot Hsized Hlt s Hs. unfold write_slot, mbind, M_bind, bind, get.
  destruct (Hsized s Hs) as [Hx Hy].
  rewrite decide_True by (rewrite Hx, Hy; lia). simpl. by apply Hslot.
Qed.

Lemma update_reservior_safe (I : state → Prop) x y seen :
  (∀ g s, I s → I (set_np_random g s)) →
  (∀ i s, I s → I (set_slot i x y s)) →
  (∀ s, I s → buffers_sized s) →
  triple I (update_reservior x y capacity seen) (λ _, I) (λ _ _, False).
Proof.
  intros Hrng Hslot Hsized. unfold update_reservior. destruct (decide _).
  - apply write_slot_safe; auto.
  - eapply triple_bind.
    + apply (triple_draw _ _ (λ _, I)).
      * intros s a g Hs _. by apply Hrng.
      * intros s Hs Hf. done.
    + intros j. destruct (decide _).
      * apply write_slot_safe; auto.
      * by apply triple_ret.
Qed.

Lemma reservoir_update_spec task batch :
  use_episodic_memory = true →
  triple (InTask task) (reservoir_update capacity batch)
    (λ _, InTask task) Aborted.
Proof.
  intros Hep. apply triple_for_each_inv. intros exemplar _.
  unfold offer_to_reservoir.
  set (I1 := λ s, InTask task
    (set_examples_seen_so_far (examples_seen_so_far s + 1) s)).
  eapply triple_bind.
  { apply (triple_get _ (λ a s, a = s ∧ InTask task s)). done. }
  intros s0. eapply triple_bind.
  { apply (triple_modify _ _
      (λ _ s, I1 s ∧ examples_seen_so_far s = examples_seen_so_far s0)).
    intros s [-> Hs]. split; [|done]. exact (InTask_offer task exemplar s Hs). }
  intros []. eapply triple_bind.
  { eapply triple_conseq.
    - apply (update_reservior_safe I1).
      + intros g s Hs. exact (InTask_set_np_random task g _ Hs).
      + intros i s Hs. exact (InTask_set_slot task i _ _ _ Hs).
      + intros s [_ Hs]. by destruct (Hs Hep).
    - intros s [Hs _]. exact Hs.
    - intros a s Hs. exact Hs.
    - intros r s []. }
  intros []. apply triple_modify. intros s Hs. exact Hs.
Qed.

Lemma use_episodic_memory_of m :
  Model.imp_method model = m →
  match m with
  | A_GEM | ER_Ringbuffer | ER_Reservoir | ER_SUBSPACE | ER_SUBSPACE_GP => True
  | _ => False
  end →
  use_episodic_memory = true.
Proof. intros Hm. unfold use_episodic_memory. rewrite Hm. by destruct m. Qed.

Lemma episodic_read_spec task idx :
  use_episodic_memory = true →
  Forall (λ i, i < capacity) idx →
  triple (InTask task) (episodic_read idx) (λ _, InTask task) Aborted.
Proof.
  intros Hep Hidx s Hs. unfold episodic_read, mbind, M_bind, bind, emit, modify, get.
  pose proof (InTask_append_log task (Replay idx) s Hidx eq_refl eq_refl eq_refl
                eq_refl Hs) as Hs'.
  destruct Hs' as [HN Hc]. destruct (Hc Hep) as [[Hx Hy] Hcnt].
  rewrite decide_True; [by split|].
  rewrite Hx, Hy. eapply Forall_impl; [exact Hidx|]. simpl. lia.
Qed.

(** A draw whose indices are below the capacity, followed by the read. *)
Lemma replay_with_spec task (f : state → sampler (list nat)) :
  use_episodic_memory = true →
  (∀ s idx g', InTask task s → f s (np_random s) = Some (idx, g') →
               Forall (λ i, i < capacity) idx) →
  triple (InTask task)
    (s ← get; idx ← draw (f s); episodic_read idx)
    (λ _, InTask task) Aborted.
Proof.
  intros Hep Hf. eapply triple_bind.
  { apply (triple_get _ (λ a s, a = s ∧ InTask task s)). done. }
  intros s0. eapply triple_bind.
  - apply (triple_draw _ _ (λ idx s, InTask task s ∧ Forall (λ i, i < capacity) idx)).
    + intros s idx g' [-> Hs] Hdraw. split; [by apply InTask_set_np_random|].
      by eapply Hf.
    + intros s [-> Hs] _. by eapply InTask_Aborted.
  - intros idx. apply triple_assume. intros Hidx.
    by apply episodic_read_spec.
Qed.

Lemma replay_earlier_task_spec task :
  use_episodic_memory = true →
  triple (InTask task) (replay_earlier_task task cpt) (λ _, InTask task) Aborted.
Proof.
  intros Hep. unfold replay_earlier_task.
  destruct (decide (0 < task)) as [Htask|]; [|by apply triple_ret].
  eapply triple_bind.
  - apply (triple_draw _ _
      (λ r s, InTask task s ∧ Forall (λ i, i < capacity) r.2)).
    + intros s [tt idx] g' Hs Hdraw. split; [by apply InTask_set_np_random|].
      destruct (subspace_draw_spec task (Args.mem_size args) cpt (np_random s) Htask)
        as (tt' & idx' & g'' & Heq & Htt & Hperm).
      rewrite Heq in Hdraw. simplify_eq/=.
      destruct Hs as [[(_ & _ & Hcap & _) _] Hc].
      destruct (Hc Hep) as [_ Hcnt].
      apply Forall_forall. intros i Hi. rewrite Hperm in Hi.
      apply elem_of_seq in Hi. unfold per_task_quota in Hcnt. nia.
    + intros s Hs _. by eapply InTask_Aborted.
  - intros r. apply triple_assume. intros Hidx. by apply episodic_read_spec.
Qed.

Lemma ringbuffer_replay_spec task :
  use_episodic_memory = true →
  triple (InTask task)
    (s ← get;
     er_mem_indices ←
       draw (ringbuffer_er_mem_indices (episodic_filled_counter s) capacity
               (Args.eps_mem_batch args));
     episodic_read er_mem_indices)
    (λ _, InTask task) Aborted.
Proof.
  intros Hep.
  apply (replay_with_spec task
    (λ s, ringbuffer_er_mem_indices (episodic_filled_counter s) capacity
            (Args.eps_mem_batch args)) Hep).
  intros s idx g' Hs Hdraw.
  destruct (ringbuffer_draw_spec (episodic_filled_counter s) capacity
              (Args.eps_mem_batch args) (np_random s)) as (idx' & g'' & Heq & Hsam).
  rewrite Heq in Hdraw. simplify_eq.
  eapply Forall_impl; [by eapply sampled_bound|].
  intros i. simpl. unfold ringbuffer_mem_filled_so_far. case_decide; lia.
Qed.

Lemma replay_and_update_spec task labels batch :
  triple (InTask task) (replay_and_update task cpt capacity labels batch)
    (λ _, InTask task) Aborted.
Proof.
  unfold replay_and_update.
  destruct (Model.imp_method model) eqn:Hm; try (by apply triple_ret);
    pose proof (use_episodic_memory_of _ Hm I) as Hep.
  - (* A-GEM *)
    eapply triple_seq; [|by apply put_batch_in_ring_buffer_spec].
    destruct (decide (task = 0)); [by apply triple_ret|].
    apply (replay_with_spec task
      (λ s, agem_mem_sample_mask (episodic_filled_counter s)
              (Args.eps_mem_batch args)) Hep).
    intros s idx g' Hs Hdraw.
    destruct (agem_draw_spec (episodic_filled_counter s)
                (Args.eps_mem_batch args) (np_random s)) as (idx' & g'' & Heq & Hsam).
    rewrite Heq in Hdraw. simplify_eq.
    destruct Hs as [[(_ & _ & Hcap & _) _] _].
    eapply Forall_impl; [by eapply sampled_bound|]. intros i. simpl. lia.
  - (* ER-Reservoir *)
    eapply triple_bind.
    { apply (triple_get _ (λ a s, a = s ∧ InTask task s)). done. }
    intros s0. eapply triple_bind.
    { apply (triple_draw _ _
        (λ idx s, InTask task s ∧ Forall (λ i, i < capacity) idx)).
      - intros s idx g' [-> Hs] Hdraw. split; [by apply InTask_set_np_random|].
        destruct (reservoir_draw_spec (examples_seen_so_far s) capacity
                    (Args.eps_mem_batch args) (np_random s))
          as (idx' & g'' & Heq & Hsam).
        rewrite Heq in Hdraw. simplify_eq.
        eapply Forall_impl; [by eapply sampled_bound|].
        intros i. simpl. unfold reservoir_mem_filled_so_far. case_decide; lia.
      - intros s [-> Hs] _. by eapply InTask_Aborted. }
    intros idx. eapply triple_seq.
    { apply triple_assume. intros Hidx. by apply episodic_read_spec. }
    by apply reservoir_update_spec.
  - (* ER-Ringbuffer *)
    eapply triple_bind.
    { apply (triple_get _ (λ a s, a = s ∧ InTask task s)). done. }
    intros s0. eapply triple_bind.
    { apply (triple_draw _ _
        (λ idx s, InTask task s ∧ Forall (λ i, i < capacity) idx)).
      - intros s idx g' [-> Hs] Hdraw. split; [by apply InTask_set_np_random|].
        destruct (ringbuffer_draw_spec (episodic_filled_counter s) capacity
                    (Args.eps_mem_batch args) (np_random s))
          as (idx' & g'' & Heq & Hsam).
        rewrite Heq in Hdraw. simplify_eq.
        eapply Forall_impl; [by eapply sampled_bound|].
        intros i. simpl. unfold ringbuffer_mem_filled_so_far. case_decide; lia.
      - intros s [-> Hs] _. by eapply InTask_Aborted. }
    intros idx. eapply triple_seq.
    { apply triple_assume. intros Hidx. by apply episodic_read_spec. }
    by apply put_batch_in_ring_buffer_spec.
  - (* ER-SUBSPACE *)
    eapply triple_seq; [by apply replay_earlier_task_spec|].
    by apply put_batch_in_ring_buffer_spec.
  - (* ER-SUBSPACE-GP *)
    eapply triple_seq; [by apply replay_earlier_task_spec|].
    eapply triple_seq; [|by apply put_batch_in_ring_buffer_spec].
    destruct (decide (task = 0)); [by apply triple_ret|].
    by apply ringbuffer_replay_spec.
Qed.

(** ** Masks and evaluation *)

Lemma foldr_insert_length (mask : list bool) labels :
  length (foldr (λ c m, <[c:=true]> m) mask labels) = length mask.
Proof.
  induction labels as [|a labels IH]; [done|]. simpl. by rewrite length_insert.
Qed.

Lemma foldr_insert_lookup (mask : list bool) labels c :
  c < length mask →
  foldr (λ c m, <[c:=true]> m) mask labels !! c
  = Some (if decide (c ∈ labels) then true else default false (mask !! c)).
Proof.
  intros Hc. induction labels as [|a labels IH]; cbn [foldr].
  - destruct (decide (c ∈ [])) as [?%elem_of_nil|_]; [done|].
    by destruct (lookup_lt_is_Some_2 mask c Hc) as [b ->].
  - destruct (decide (a = c)) as [->|Hne].
    + rewrite list_lookup_insert_eq by (by rewrite foldr_insert_length).
      rewrite decide_True; [done|]. apply list_elem_of_here.
    + rewrite list_lookup_insert_ne by done. rewrite IH.
      destruct (decide (c ∈ labels)) as [Hin|Hnin].
      * rewrite decide_True; [done|]. by apply list_elem_of_further.
      * rewrite decide_False; [done|].
        intros [?|?]%elem_of_cons; [congruence|done].
Qed.

Lemma set_ones_zeros n labels :
  match set_ones (replicate n false) labels with
  | Some row =>
      Forall (λ c, c < n) labels ∧ length row = n ∧
      ∀ c, c < n → row !! c = Some (bool_decide (c ∈ labels))
  | None => ¬ Forall (λ c, c < n) labels
  end.
Proof.
  unfold set_ones. rewrite length_replicate.
  destruct (decide _) as [Hall|Hnot]; [|done].
  split_and!; [done|by rewrite foldr_insert_length, length_replicate|].
  intros c Hc. rewrite foldr_insert_lookup by (by rewrite length_replicate).
  rewrite lookup_replicate_2 by done. simpl.
  by destruct (decide (c ∈ labels)) as [Hin|Hnin];
    [rewrite bool_decide_true|rewrite bool_decide_false].
Qed.

Lemma task_logit_mask_is_Some tt labels :
  Forall (λ c, c < TOTAL_CLASSES) labels →
  tt < Model.num_tasks model →
  is_Some (task_logit_mask tt labels).
Proof.
  intros Hall Htt. unfold task_logit_mask.
  pose proof (set_ones_zeros TOTAL_CLASSES labels) as Hset.
  destruct (set_ones _ labels) as [row|]; [|done].
  destruct multi_head; [|done].
  rewrite lookup_replicate_2 by done. simpl.
  pose proof (set_ones_zeros TOTAL_CLASSES labels) as Hset'.
  by destruct (set_ones _ labels).
Qed.

Lemma task_logit_mask_defined tt labels :
  is_Some (task_logit_mask tt labels) ↔
  Forall (λ c, c < TOTAL_CLASSES) labels ∧
  (multi_head = true → tt < Model.num_tasks model).
Proof.
  unfold task_logit_mask.
  pose proof (set_ones_zeros TOTAL_CLASSES labels) as Hset.
  revert Hset. generalize TOTAL_CLASSES. intros n Hset.
  destruct multi_head.
  - destruct (decide (tt < Model.num_tasks model)) as [Htt|Htt].
    + rewrite lookup_replicate_2 by done. simpl.
      destruct (set_ones _ labels) as [row|]; simpl.
      * split; [intros _; split; [by destruct Hset|done]|by eexists].
      * split; [by intros [? ?]|by intros [Hall _]].
    + rewrite (proj1 (lookup_replicate_None _ _ _)) by lia. simpl.
      split; [by intros [? ?]|]. intros [_ H]. specialize (H eq_refl). lia.
  - destruct (set_ones _ labels) as [row|]; simpl.
    + split; [intros _; split; [by destruct Hset|done]|by eexists].
    + split; [by intros [? ?]|by intros [Hall _]].
Qed.

Lemma task_logit_mask_spec tt labels :
  match task_logit_mask tt labels with
  | Some mask =>
      (∀ c, mask_at mask tt c
            = if decide (c < TOTAL_CLASSES)
              then Some (bool_decide (c ∈ labels)) else None) ∧
      (∀ head c, multi_head = true → head ≠ tt →
         head < Model.num_tasks model → c < TOTAL_CLASSES →
         mask_at mask head c = Some false)
  | None =>
      ¬ Forall (λ c, c < TOTAL_CLASSES) labels ∨
      (multi_head = true ∧ Model.num_tasks model ≤ tt)
  end.
Proof.
  unfold task_logit_mask.
  pose proof (set_ones_zeros TOTAL_CLASSES labels) as Hset.
  revert Hset. generalize TOTAL_CLASSES. intros n Hset.
  assert (∀ row : list bool,
            length row = n →
            (∀ c, c < n → row !! c = Some (bool_decide (c ∈ labels))) →
            ∀ c, row !! c = if decide (c < n)
                            then Some (bool_decide (c ∈ labels)) else None)
    as Hall.
  { intros row Hlen Hrow c. destruct (decide _) as [Hc|Hc]; [by apply Hrow|].
    apply lookup_ge_None_2. lia. }
  destruct multi_head.
  - destruct (decide (tt < Model.num_tasks model)) as [Htt|Htt].
    + rewrite lookup_replicate_2 by done. simpl.
      destruct (set_ones _ labels) as [row|]; simpl; [|by left].
      destruct Hset as (_ & Hlen & Hrow). split.
      * intros c.
        rewrite list_lookup_insert_eq by (by rewrite length_replicate).
        simpl. by apply Hall.
      * intros head c _ Hne Hhead Hc.
        rewrite list_lookup_insert_ne by done.
        rewrite lookup_replicate_2 by done. simpl.
        by apply lookup_replicate_2.
    + rewrite (proj1 (lookup_replicate_None _ _ _)) by lia. simpl.
      right. split; [done|lia].
  - destruct (set_ones _ labels) as [row|]; simpl; [|by left].
    destruct Hset as (_ & Hlen & Hrow). split; [by apply Hall|]. by intros.
Qed.

Lemma test_loop_spec {Acc} (accuracy_eval : nat → list nat → logit_mask → Acc)
    task test_tasks : ∀ tt final_acc,
  Forall (Forall (λ c, c < TOTAL_CLASSES)) test_tasks →
  tt + length test_tasks ≤ Model.num_tasks model →
  length final_acc = Model.num_tasks model →
  ∃ result,
    test_loop accuracy_eval task tt test_tasks final_acc = Val result ∧
    length result = Model.num_tasks model ∧
    (∀ j labels, test_tasks !! j = Some labels → tt + j ≤ task →
       ∃ mask, task_logit_mask (tt + j) labels = Some mask ∧
               result !! (tt + j) = Some (accuracy_eval (tt + j) labels mask)) ∧
    (∀ i, i < tt ∨ task < i ∨ tt + length test_tasks ≤ i →
       result !! i = final_acc !! i).
Proof.
  induction test_tasks as [|labels test_tasks IH];
    intros tt final_acc Hall Hlen Hacc.
  - exists final_acc. by split_and!.
  - apply Forall_cons in Hall as [Hlabels Hall]. simpl in Hlen.
    cbn [test_loop length].
    destruct (decide (task < tt)) as [Hgt|Hle].
    { exists final_acc. split_and!; try done. intros j l _ Hj. lia. }
    destruct (task_logit_mask_is_Some tt labels Hlabels ltac:(lia)) as [mask Hmask].
    rewrite Hmask, decide_True by lia.
    destruct (IH (S tt) (<[tt:=accuracy_eval tt labels mask]> final_acc) Hall
                ltac:(lia) ltac:(by rewrite length_insert))
      as (result & Hrun & Hres & Hdone & Hrest).
    exists result. split_and!; [done|done| |].
    + intros [|j] l Hj Hjt; simpl in Hj.
      * injection Hj as <-. rewrite Nat.add_0_r. exists mask. split; [done|].
        rewrite Hrest by lia. apply list_lookup_insert_eq. lia.
      * replace (tt + S j) with (S tt + j) by lia. apply Hdone; [done|lia].
    + intros i Hi. rewrite Hrest by lia. apply list_lookup_insert_ne. lia.
Qed.

(** An evaluation returns or raises [IndexError]. *)
Lemma test_loop_outcome {Acc} (accuracy_eval : nat → list nat → logit_mask → Acc)
    task test_tasks : ∀ tt final_acc,
  (∃ result, test_loop accuracy_eval task tt test_tasks final_acc = Val result) ∨
  test_loop accuracy_eval task tt test_tasks final_acc = Abort (Raise IndexError).
Proof.
  induction test_tasks as [|labels test_tasks IH]; intros tt final_acc;
    cbn [test_loop].
  - left. by eexists.
  - destruct (decide (task < tt)); [left; by eexists|].
    destruct (task_logit_mask tt labels); [|by right].
    destruct (decide _); [apply IH|by right].
Qed.

(** Whether an evaluation raises does not depend on the accuracies. *)
Lemma test_loop_raises {Acc Acc'} (f : nat → list nat → logit_mask → Acc)
    (f' : nat → list nat → logit_mask → Acc') task test_tasks : ∀ tt acc acc',
  length acc = length acc' →
  match test_loop f task tt test_tasks acc, test_loop f' task tt test_tasks acc' with
  | Val _, Val _ => True
  | Abort r, Abort r' => r = r'
  | _, _ => False
  end.
Proof.
  induction test_tasks as [|labels test_tasks IH]; intros tt acc acc' Hlen;
    cbn [test_loop]; [done|].
  destruct (decide (task < tt)); [done|].
  destruct (task_logit_mask tt labels); [|done].
  rewrite <-Hlen. destruct (decide (tt < length acc)); [|done].
  apply IH. by rewrite !length_insert.
Qed.

Lemma test_task_sequence_raises {Acc Acc'} (zero_acc : Acc) (zero_acc' : Acc')
    (f : nat → list nat → logit_mask → Acc)
    (f' : nat → list nat → logit_mask → Acc') test_tasks task :
  match test_task_sequence zero_acc f test_tasks task,
        test_task_sequence zero_acc' f' test_tasks task with
  | Val _, Val _ => True
  | Abort r, Abort r' => r = r'
  | _, _ => False
  end.
Proof. apply test_loop_raises. by rewrite !length_replicate. Qed.

Lemma labels_in_range_lookup task_labels task :
  labels_in_range task_labels →
  Forall (λ c, c < TOTAL_CLASSES) (default [] (task_labels !! task)).
Proof.
  intros Hall. destruct (task_labels !! task) as [labels|] eqn:Hl; [|done].
  by apply (proj1 (Forall_lookup _ _) Hall task labels).
Qed.

Lemma checks_ret ok : checks ok (mret ()).
Proof. intros s. by left. Qed.

Lemma checks_seq ok (m k : M unit) : checks ok m → checks ok k → checks ok (m ;; k).
Proof.
  intros Hm Hk s. unfold mbind, M_bind, bind.
  destruct (Hm s) as [->|[-> Hno]]; [apply Hk|by right].
Qed.


Lemma checks_triple (P : state → Prop) ok m (R : abort → state → Prop) :
  checks ok m →
  (∀ s, P s → ¬ ok → R (Raise IndexError) s) →
  triple P m (λ _, P) R.
Proof.
  intros Hm HR s Hs. destruct (Hm s) as [->|[-> Hno]]; [done|by apply HR].
Qed.

Lemma checks_assign_logit_mask task_labels task :
  checks (can_evaluate task_labels task)
    (assign_logit_mask (default [] (task_labels !! task))).
Proof.
  intros s. unfold assign_logit_mask.
  pose proof (set_ones_zeros TOTAL_CLASSES (default [] (task_labels !! task))) as H.
  destruct (set_ones _ _); [by left|right]. split; [done|].
  intros [Hall _]. by apply H, labels_in_range_lookup.
Qed.

Lemma checks_assign_task_mask task_labels task :
  checks (can_evaluate task_labels task)
    (assign_task_mask task (default [] (task_labels !! task))).
Proof.
  intros s. unfold assign_task_mask.
  destruct (task_logit_mask _ _) eqn:Hmask; [by left|right]. split; [done|].
  intros (Hall & _ & Htask).
  destruct (task_logit_mask_is_Some task (default [] (task_labels !! task)))
    as [mask Hsome]; [by apply labels_in_range_lookup|done|congruence].
Qed.

Lemma checks_evaluate task_labels task :
  checks (can_evaluate task_labels task) (evaluate task_labels task).
Proof.
  intros s. unfold evaluate, lift, mbind, M_bind, bind, test_task_sequence.
  destruct (test_loop _ _ _ _ _) as [result|r] eqn:Hrun; [by left|right].
  destruct (test_loop_outcome (λ _ _ _, ()) task task_labels 0
              (replicate (Model.num_tasks model) ())) as [[result' Heq]|Heq];
    [congruence|].
  rewrite Hrun in Heq. injection Heq as ->. split; [done|].
  intros (Hall & Hlen & _).
  destruct (test_loop_spec (λ _ _ _, ()) task task_labels 0
              (replicate (Model.num_tasks model) ()) Hall ltac:(lia)
              ltac:(by rewrite length_replicate)) as (result & Hres & _).
  congruence.
Qed.

Lemma checks_snapshot task_labels task iters :
  checks (can_evaluate task_labels task) (snapshot task_labels task iters).
Proof.
  unfold snapshot. destruct (_ && _); [|apply checks_ret].
  destruct (snapshot_due iters); [|apply checks_ret].
  apply checks_seq; [apply checks_evaluate|apply checks_assign_task_mask].
Qed.

Lemma checks_after_task task_labels task :
  checks (can_evaluate task_labels task) (after_task task_labels task).
Proof.
  unfold after_task. apply checks_seq; [apply checks_evaluate|].
  destruct (_ && _); [|apply checks_ret].
  destruct (Model.imp_method model);
    first [apply checks_ret|apply checks_assign_task_mask].
Qed.

Lemma Aborted_Stopped r s : Aborted r s → Stopped r s.
Proof. intros (HI & Hnan & Hr). by split_and!. Qed.

Lemma Normal_Stopped r s : Normal s → r ≠ Raise IndexError → Stopped r s.
Proof. intros Hs Hr. by apply Aborted_Stopped, Normal_Aborted. Qed.

(** A check of the labels of a run, between two steps of a task. *)
Lemma check_spec task_labels task task' m :
  (labels_fit → can_evaluate task_labels task) →
  checks (can_evaluate task_labels task) m →
  triple (Between task') m (λ _, Between task') Stopped.
Proof.
  intros Hfit Hm. apply (checks_triple _ _ _ _ Hm).
  intros s [[[HI Hnan] _] Hlast] Hno. split_and!; [done|by left|].
  intros _. split; [|done]. intros Hf. by apply Hno, Hfit.
Qed.

Lemma last_is_read_snoc l e :
  last_is_read (l ++ [e]) = match e with Replay _ => true | _ => false end.
Proof. unfold last_is_read. by rewrite last_snoc. Qed.

(** ** Tasks and runs *)

Lemma step_end_spec task runid iters loss :
  triple (InTask task)
    (emit (TrainStep runid task iters loss) ;;
     if math_isnan loss then sys_exit 0 else mret ())
    (λ _, Between task) Aborted.
Proof.
  intros s Hs. unfold mbind, M_bind, bind, emit, modify.
  destruct (math_isnan loss) eqn:Hnan; simpl.
  - destruct Hs as [[HG Hfree] _]. split_and!; [|right|done].
    + by apply Inv_append_log.
    + by exists (log s), (TrainStep runid task iters loss).
  - split; [by apply InTask_append_log|]. simpl. by rewrite last_is_read_snoc.
Qed.

Lemma batch_bounds_spec task num_train_examples iters :
  triple (InTask task) (batch_bounds num_train_examples iters)
    (λ _, InTask task) Aborted.
Proof.
  unfold batch_bounds. destruct (Args.train_single_epoch args).
  - by apply triple_ret.
  - unfold pymod. destruct (decide _).
    + intros s Hs. by eapply InTask_Aborted.
    + intros s Hs. done.
Qed.

Lemma train_iter_spec runid task labels train iters :
  triple (InTask task) (train_iter runid task cpt capacity labels train iters)
    (λ _, Between task) Aborted.
Proof.
  unfold train_iter. eapply triple_bind; [apply batch_bounds_spec|].
  intros [offset residual]. eapply triple_seq; [apply replay_and_update_spec|].
  eapply triple_bind.
  - instantiate (1 := λ _, InTask task). destruct has_branch.
    + by apply triple_ret.
    + apply triple_raise. intros s Hs. by eapply InTask_Aborted.
  - intros loss. apply step_end_spec.
Qed.

Lemma Inv_set_episodic_filled_counter n s :
  n ≤ capacity → Inv s → Inv (set_episodic_filled_counter n s).
Proof. intros Hn (Hev & Hseen & Hcnt & Hcount & Hsized). by split_and!. Qed.

Lemma capacity_quota : capacity = Model.num_tasks model * per_task_quota.
Proof. unfold capacity, per_task_quota. lia. Qed.

Lemma train_task_spec runid task_labels task :
  task < Model.num_tasks model →
  (labels_fit → can_evaluate task_labels task) →
  triple (Between task) (train_task runid cpt capacity task_labels task)
    (λ _, Between (S task)) Stopped.
Proof.
  intros Htask Hfit. unfold train_task.
  eapply triple_bind.
  { instantiate (1 := λ _, Between task).
    destruct (Args.train_single_epoch args); [|by apply triple_ret].
    unfold floordiv. destruct (decide _).
    - apply triple_raise. intros s [Hs _].
      by eapply Aborted_Stopped, InTask_Aborted.
    - by apply triple_ret. }
  intros num_iters. apply (triple_seq _ (Between task)).
  { destruct (_ && _); [by apply triple_ret|].
    apply (check_spec task_labels task); [done|apply checks_assign_logit_mask]. }
  eapply triple_bind.
  { apply (triple_draw _ _ (λ _, Between task)).
    - intros s a g [Hs Hlast] _. split; [by apply InTask_set_np_random|done].
    - intros s [Hs _] _. by eapply Aborted_Stopped, InTask_Aborted. }
  intros perm. eapply triple_seq.
  { apply triple_for_each_inv. intros iters _. unfold train_step.
    apply (triple_seq _ (Between task)).
    - apply (check_spec task_labels task); [done|apply checks_snapshot].
    - eapply triple_conseq; [apply train_iter_spec|by intros s [Hs _]|done|].
      intros r s. apply Aborted_Stopped. }
  destruct use_episodic_memory eqn:Hep.
  - apply triple_modify. intros s [[[HG Hfree] Hc] Hlast].
    destruct (Hc Hep) as [Hsized Hcnt].
    assert (episodic_filled_counter s + Args.mem_size args * cpt
            = S task * per_task_quota) as Hnew.
    { rewrite Hcnt. unfold per_task_quota. lia. }
    split; [|done]. split; [split; [|done]|].
    + apply Inv_set_episodic_filled_counter; [|done].
      rewrite Hnew, capacity_quota. apply Nat.mul_le_mono_r. lia.
    + intros _. split; [done|]. exact Hnew.
  - apply triple_ret. intros s [[HN _] Hlast]. split; [|done].
    split; [done|]. intros ?; congruence.
Qed.

Lemma split_task_labels_length shuffled classes_per_task num_tasks :
  length (split_task_labels shuffled classes_per_task num_tasks) = num_tasks.
Proof. unfold split_task_labels. by rewrite length_fmap, length_seq. Qed.

Lemma concat_split_task_labels shuffled classes_per_task n :
  concat (split_task_labels shuffled classes_per_task n)
  = take (n * classes_per_task) shuffled.
Proof.
  unfold split_task_labels. induction n as [|n IH]; [by rewrite take_0|].
  rewrite seq_S, fmap_app, concat_app, IH. simpl.
  rewrite app_nil_r, take_take_drop. f_equal. lia.
Qed.

Lemma label_array_NoDup classes_per_task total_classes :
  NoDup (label_array classes_per_task total_classes) ∧
  length (label_array classes_per_task total_classes) = total_classes.
Proof.
  unfold label_array, arange, arange2.
  destruct (Args.online_cross_val args); rewrite length_seq;
    (split; [apply NoDup_seq|lia]).
Qed.

Lemma run_task_labels_concat runid task_labels :
  run_task_labels runid = Some task_labels →
  concat task_labels ≡ₚ label_array cpt (cpt * Model.num_tasks model).
Proof.
  unfold run_task_labels. destruct (decide _); [done|]. intros [= <-].
  rewrite concat_split_task_labels, take_ge.
  - apply shuffle_Permutation.
  - rewrite shuffle_length.
    destruct (label_array_NoDup cpt (cpt * Model.num_tasks model)) as [_ ->]. lia.
Qed.

(** Lines 212-235: once the partition is recorded, a run with episodic
    memory allocates its buffers. *)
Lemma start_of_run_spec runid task_labels :
  run_task_labels runid = Some task_labels →
  triple (λ s', ∃ s, Normal s ∧ s' = append_log (TaskLabels runid task_labels) s)
    (if use_episodic_memory then allocate capacity else mret ())
    (λ _, Between 0) Aborted.
Proof.
  intros Hlabels s' (s & [(Hev & Hseen & Hcnt & Hcount & Hsized) Hfree] & ->).
  unfold allocate, modify, Between, InTask, Normal, Inv, buffers_sized.
  destruct use_episodic_memory eqn:Hep; simpl.
  - rewrite !since_allocate_snoc, !count_events_snoc, last_is_read_snoc; simpl.
    rewrite !length_replicate. split_and!; try done; try lia.
    + rewrite !Forall_app, !Forall_singleton. done.
    + rewrite !Forall_app, !Forall_singleton. done.
  - rewrite !since_allocate_snoc, !count_events_snoc, last_is_read_snoc; simpl.
    rewrite omap_snoc; simpl. rewrite app_nil_r, Nat.add_0_r.
    split_and!; try done.
    + rewrite !Forall_app, !Forall_singleton. done.
    + rewrite !Forall_app, !Forall_singleton. done.
Qed.

Lemma Normal_set_np_random g s : Normal s → Normal (set_np_random g s).
Proof. done. Qed.

Lemma train_run_spec runid :
  triple Normal (train_run runid)
    (λ task_labels s, Normal s ∧ run_task_labels runid = Some task_labels)
    Stopped.
Proof.
  unfold train_run.
  set (g0 := np_random_seed (Args.random_seed args + Z.of_nat runid)).
  apply (triple_seq _ (λ s, Normal s ∧ np_random s = g0)).
  { unfold seed_generator. destruct (decide _).
    - apply triple_modify.
      intros s Hs. split; [by apply Normal_set_np_random|done].
    - apply triple_raise. intros s Hs. by apply Normal_Stopped. }
  eapply triple_bind.
  { instantiate (1 := λ a s, (Normal s ∧ np_random s = g0)
                             ∧ (a = cpt ∧ Args.num_tasks args ≠ 0)).
    unfold floordiv. destruct (decide _).
    - apply triple_raise. intros s [Hs _]. by apply Normal_Stopped.
    - apply triple_ret. intros s Hs. done. }
  intros classes_per_task. apply triple_assume. intros [-> Hnum].
  eapply triple_bind.
  { apply (triple_draw _ _
      (λ a s, Normal s ∧
              a = (shuffle g0 (label_array cpt (cpt * Model.num_tasks model))).1)).
    - intros s a g [Hs Hg] Hdraw. rewrite Hg in Hdraw.
      injection Hdraw as Hdraw.
      split; [by apply Normal_set_np_random|]. by rewrite Hdraw.
    - intros s [Hs _] _. by apply Normal_Stopped. }
  intros shuffled. apply triple_assume. intros ->.
  eapply triple_seq.
  { apply (triple_modify _ _
      (λ _ s', ∃ s, Normal s ∧ s' = append_log (TaskLabels runid
         (split_task_labels
            (shuffle g0 (label_array cpt (cpt * Model.num_tasks model))).1
            cpt (Model.num_tasks model))) s)).
    intros s Hs. by exists s. }
  assert (run_task_labels runid = Some (split_task_labels
            (shuffle g0 (label_array cpt (cpt * Model.num_tasks model))).1
            cpt (Model.num_tasks model))) as Hlabels.
  { unfold run_task_labels. by rewrite decide_False by done. }
  cbv zeta. fold capacity. eapply triple_seq.
  { eapply triple_conseq; [by apply start_of_run_spec|done|done|].
    intros r s. apply Aborted_Stopped. }
  eapply triple_seq.
  { apply (triple_modify _ _ (λ _, Between 0)).
    intros s [Hs Hlast]. split; [by apply InTask_set_np_random|done]. }
  eapply triple_seq.
  { apply (triple_for_each Between).
    intros i task Hi. apply lookup_seq in Hi as [-> Hi].
    rewrite split_task_labels_length in Hi. simpl.
    assert (labels_fit → can_evaluate
              (split_task_labels
                 (shuffle g0 (label_array cpt (cpt * Model.num_tasks model))).1
                 cpt (Model.num_tasks model)) i) as Hfit.
    { intros Hf. split_and!; [|by rewrite split_task_labels_length|done].
      apply Forall_concat. by rewrite (run_task_labels_concat _ _ Hlabels). }
    apply (triple_seq _ (Between (S i))); [by apply train_task_spec|].
    apply (check_spec _ i _ _ Hfit), checks_after_task. }
  apply triple_ret. intros s [[Hs _] _]. by split.
Qed.

Lemma run_loop_spec runids task_labels_dataset :
  triple Normal (run_loop runids task_labels_dataset)
    (λ result s, Normal s ∧
       ∃ rest, result = task_labels_dataset ++ rest ∧
               Forall2 (λ runid task_labels,
                          run_task_labels runid = Some task_labels) runids rest)
    Stopped.
Proof.
  revert task_labels_dataset. induction runids as [|runid runids IH];
    intros task_labels_dataset; simpl.
  - apply triple_ret. intros s Hs. split; [done|].
    exists []. by rewrite app_nil_r.
  - eapply triple_bind; [apply train_run_spec|]. intros task_labels.
    apply triple_assume. intros Hlabels.
    eapply triple_conseq; [apply IH|done| |done].
    intros result s [Hs (rest & -> & Hrest)]. split; [done|].
    exists (task_labels :: rest). split; [by rewrite <-app_assoc|].
    by constructor.
Qed.

Lemma Normal_initial_state g : Normal (initial_state g).
Proof.
  unfold Normal, Inv, initial_state, count_events; simpl.
  split_and!; try done; [lia|by destruct use_episodic_memory].
Qed.

(** Every execution ends in a state that satisfies the invariant. *)
Lemma execute_spec g :
  match execute g with
  | (Val result, s) =>
      Normal s ∧
      Forall2 (λ runid task_labels, run_task_labels runid = Some task_labels)
        (seq 0 (Args.num_runs args)) result
  | (Abort r, s) => Stopped r s
  end.
Proof.
  pose proof (run_loop_spec (seq 0 (Args.num_runs args)) [] (initial_state g)
                (Normal_initial_state g)) as H.
  unfold execute, train_task_sequence.
  destruct (run_loop _ _ _) as [[result|r] s]; [|done].
  destruct H as [Hs (rest & -> & Hrest)]. done.
Qed.

Lemma execute_Inv g : Inv (execute g).2.
Proof.
  pose proof (execute_spec g) as H.
  destruct (execute g) as [[result|r] s]; simpl.
  - by destruct H as [[HG _] _].
  - by destruct H as [HG _].
Qed.

(** ** What a mini-batch leaves alone

    Neither the counter [episodic_filled_counter] nor the lengths of the two
    arrays are touched by anything a training step does. *)

Section keeps.
Context {X : Type} (f : state → X).
Hypothesis f_rng : ∀ g s, f (set_np_random g s) = f s.
Hypothesis f_slot : ∀ i x y s, f (set_slot i x y s) = f s.
Hypothesis f_cls : ∀ c s, f (set_count_cls c s) = f s.
Hypothesis f_log : ∀ e s, f (append_log e s) = f s.
Hypothesis f_seen : ∀ n s, f (set_examples_seen_so_far n s) = f s.

Lemma keeps_ret {A} (a : A) : keeps f (mret a).
Proof using Type. done. Qed.

Lemma keeps_raise {A} e : keeps f (raise (A:=A) e).
Proof using Type. done. Qed.

Lemma keeps_sys_exit {A} code : keeps f (sys_exit (A:=A) code).
Proof using Type. done. Qed.

Lemma keeps_get : keeps f get.
Proof using Type. done. Qed.



Lemma keeps_bind {A B} (m : M A) (k : A → M B) :
  keeps f m → (∀ a, keeps f (k a)) → keeps f (m ≫= k).
Proof using Type.
  intros Hm Hk s. unfold mbind, M_bind, bind. specialize (Hm s).
  destruct (m s) as [[a|r] s']; simpl in *; [|done].
  by rewrite Hk.
Qed.

Lemma keeps_for_each {A} (l : list A) (body : A → M unit) :
  (∀ a, keeps f (body a)) → keeps f (for_each l body).
Proof using Type.
  intros Hbody. induction l as [|a l IH]; simpl; [done|].
  apply keeps_bind; [apply Hbody|]. by intros [].
Qed.

Lemma keeps_draw {A} (sample : sampler A) : keeps f (draw sample).
Proof using f_rng.
  intros s. unfold draw. by destruct (sample (np_random s)) as [[a g]|]; simpl.
Qed.

Lemma keeps_emit e : keeps f (emit e).
Proof using f_log. intros s. apply f_log. Qed.

Lemma keeps_episodic_read idx : keeps f (episodic_read idx).
Proof using f_log.
  unfold episodic_read. apply keeps_bind; [apply keeps_emit|]. intros [].
  apply keeps_bind; [apply keeps_get|]. intros s.
  destruct (decide _); [apply keeps_ret|apply keeps_raise].
Qed.

Lemma keeps_write_slot slot x y : keeps f (write_slot slot x y).
Proof using f_slot.
  unfold write_slot. apply keeps_bind; [apply keeps_get|]. intros s.
  destruct (decide _); [|apply keeps_raise]. intros s'. apply f_slot.
Qed.

Lemma keeps_update_reservior er_x er_y_ episodic_mem_size seen :
  keeps f (update_reservior er_x er_y_ episodic_mem_size seen).
Proof using f_rng f_slot.
  unfold update_reservior. destruct (decide _); [apply keeps_write_slot|].
  apply keeps_bind; [apply keeps_draw|]. intros j.
  destruct (decide _); [apply keeps_write_slot|apply keeps_ret].
Qed.

Lemma keeps_fifo_write batch_task_labels quota base exemplar :
  keeps f (fifo_write batch_task_labels quota base exemplar).
Proof using f_slot f_cls.
  unfold fifo_write. destruct (class_offset _ _ _ _); [|apply keeps_raise].
  apply keeps_bind; [apply keeps_get|]. intros s.
  destruct (count_cls s !! _); [|apply keeps_raise].
  destruct (decide _); [apply keeps_raise|].
  apply keeps_bind; [apply keeps_write_slot|]. intros [] s'. apply f_cls.
Qed.

Lemma keeps_update_fifo_buffer batch batch_task_labels mem_size base :
  keeps f (update_fifo_buffer batch batch_task_labels mem_size base).
Proof using f_slot f_cls. apply keeps_for_each. intros a. apply keeps_fifo_write. Qed.

Lemma keeps_put_batch_in_ring_buffer task labels batch :
  keeps f (put_batch_in_ring_buffer task labels batch).
Proof using f_slot f_cls f_log.
  unfold put_batch_in_ring_buffer. apply keeps_bind; [apply keeps_get|]. intros s.
  apply keeps_bind; [apply keeps_emit|]. intros [].
  apply keeps_update_fifo_buffer.
Qed.

Lemma keeps_reservoir_update episodic_mem_size batch :
  keeps f (reservoir_update episodic_mem_size batch).
Proof using f_rng f_slot f_log f_seen.
  apply keeps_for_each. intros exemplar. unfold offer_to_reservoir.
  apply keeps_bind; [apply keeps_get|]. intros s.
  apply keeps_bind; [apply keeps_emit|]. intros [].
  apply keeps_bind; [apply keeps_update_reservior|]. intros [] s'. apply f_seen.
Qed.

Lemma keeps_replay_earlier_task task classes_per_task :
  keeps f (replay_earlier_task task classes_per_task).
Proof using f_rng f_log.
  unfold replay_earlier_task. destruct (decide _); [|apply keeps_ret].
  apply keeps_bind; [apply keeps_draw|]. intros r. apply keeps_episodic_read.
Qed.

Lemma keeps_replay (sample : state → sampler (list nat)) :
  keeps f (s ← get; idx ← draw (sample s); episodic_read idx).
Proof using f_rng f_log.
  apply keeps_bind; [apply keeps_get|]. intros s.
  apply keeps_bind; [apply keeps_draw|]. intros idx. apply keeps_episodic_read.
Qed.

Lemma keeps_replay_and_update task classes_per_task episodic_mem_size labels batch :
  keeps f (replay_and_update task classes_per_task episodic_mem_size labels batch).
Proof using f_rng f_slot f_cls f_log f_seen.
  unfold replay_and_update. destruct (Model.imp_method model);
    try apply keeps_ret.
  - apply keeps_bind; [|intros []; apply keeps_put_batch_in_ring_buffer].
    destruct (decide _); [apply keeps_ret|].
    apply (keeps_replay (λ s, agem_mem_sample_mask _ _)).
  - apply keeps_bind; [apply keeps_get|]. intros s.
    apply keeps_bind; [apply keeps_draw|]. intros idx.
    apply keeps_bind; [apply keeps_episodic_read|]. intros [].
    apply keeps_reservoir_update.
  - apply keeps_bind; [apply keeps_get|]. intros s.
    apply keeps_bind; [apply keeps_draw|]. intros idx.
    apply keeps_bind; [apply keeps_episodic_read|]. intros [].
    apply keeps_put_batch_in_ring_buffer.
  - apply keeps_bind; [apply keeps_replay_earlier_task|]. intros [].
    apply keeps_put_batch_in_ring_buffer.
  - apply keeps_bind; [apply keeps_replay_earlier_task|]. intros [].
    apply keeps_bind; [|intros []; apply keeps_put_batch_in_ring_buffer].
    destruct (decide _); [apply keeps_ret|].
    apply (keeps_replay (λ s, ringbuffer_er_mem_indices _ _ _)).
Qed.

Lemma keeps_train_iter runid task classes_per_task episodic_mem_size labels train iters :
  keeps f (train_iter runid task classes_per_task episodic_mem_size labels train iters).
Proof using f_rng f_slot f_cls f_log f_seen.
  unfold train_iter. apply keeps_bind.
  { unfold batch_bounds. destruct (Args.train_single_epoch args); [apply keeps_ret|].
    apply keeps_bind; [|intros ?; apply keeps_ret].
    unfold pymod. destruct (decide _); [apply keeps_raise|apply keeps_ret]. }
  intros [offset residual].
  apply keeps_bind; [apply keeps_replay_and_update|]. intros [].
  apply keeps_bind.
  { destruct has_branch; [apply keeps_ret|apply keeps_raise]. }
  intros loss. apply keeps_bind; [apply keeps_emit|]. intros [].
  destruct (math_isnan loss); [apply keeps_sys_exit|apply keeps_ret].
Qed.

Lemma keeps_triple {A} (m : M A) (x : X) :
  keeps f m →
  triple (λ s, f s = x) m (λ _ s, f s = x) (λ _ s, f s = x).
Proof using Type.
  intros Hm s Hs. specialize (Hm s).
  destruct (m s) as [[a|r] s']; simpl in *; congruence.
Qed.
End keeps.


Lemma buffer_lengths_set_slot i x y s :
  buffer_lengths (set_slot i x y s) = buffer_lengths s.
Proof. unfold buffer_lengths; simpl. by rewrite !length_insert. Qed.

Lemma keeps_lengths_train_iter runid task classes_per_task episodic_mem_size
    labels train iters :
  keeps buffer_lengths
    (train_iter runid task classes_per_task episodic_mem_size labels train iters).
Proof. apply keeps_train_iter; try done. apply buffer_lengths_set_slot. Qed.


(** ** The class-to-task partition *)

Lemma split_task_labels_partition shuffled classes_per_task n :
  NoDup shuffled → length shuffled = classes_per_task * n →
  task_partition n classes_per_task
    (split_task_labels shuffled classes_per_task n).
Proof.
  intros Hnd Hlen. split_and!.
  - apply split_task_labels_length.
  - unfold split_task_labels. apply Forall_fmap, Forall_seq. intros tt Htt. simpl.
    rewrite length_take, length_drop, Hlen. nia.
  - rewrite concat_split_task_labels, take_ge by lia. done.
Qed.

Lemma run_task_labels_partition runid :
  match run_task_labels runid with
  | Some task_labels =>
      task_partition (Model.num_tasks model)
        (TOTAL_CLASSES / Args.num_tasks args) task_labels
  | None => Args.num_tasks args = 0
  end.
Proof.
  unfold run_task_labels. destruct (decide _); [done|].
  destruct (label_array_NoDup cpt (cpt * Model.num_tasks model)) as [Hnd Hlen].
  apply split_task_labels_partition.
  - by rewrite shuffle_Permutation.
  - by rewrite shuffle_length.
Qed.

(** C8, as amended. Every partition a run generates is a family of
    [model.num_tasks] pairwise disjoint sets of
    [TOTAL_CLASSES // args.num_tasks] distinct class labels each (and a run
    generates one unless [args.num_tasks] is zero). *)
Theorem task_labels_partition g :
  Forall (λ e, match e with
               | TaskLabels _ task_labels =>
                   task_partition (Model.num_tasks model)
                     (TOTAL_CLASSES / Args.num_tasks args) task_labels
               | _ => True
               end) (log (execute g).2) ∧
  ∀ runid,
    match run_task_labels runid with
    | Some task_labels =>
        task_partition (Model.num_tasks model)
          (TOTAL_CLASSES / Args.num_tasks args) task_labels
    | None => Args.num_tasks args = 0
    end.
Proof.
  split; [|apply run_task_labels_partition].
  destruct (execute_Inv g) as [Hev _].
  eapply Forall_impl; [exact Hev|]. intros [runid task_labels| | | | |]; try done.
  simpl. intros Hrun. pose proof (run_task_labels_partition runid) as H.
  by rewrite Hrun in H.
Qed.

(** ** The episodic memory over an execution *)


(** C9. No replay read is out of bounds: every index array used to read the
    episodic memory holds indices below [episodic_mem_size]; a read with such
    indices of buffers of that size returns, and a read that does not return
    raises [IndexError] with its indices as the last thing logged; an
    execution that ends with an [IndexError] ends between two steps, not in
    a read, and only when the masks have no column for some label of the
    runs; [episodic_filled_counter] never exceeds [episodic_mem_size], the
    reservoir bound is [min(examples_seen_so_far, episodic_mem_size)], and
    the region of an earlier task [tt < task] lies below
    [task * mem_size * classes_per_task]. *)
Theorem replay_reads_in_bounds g :
  (∀ idx i, Replay idx ∈ log (execute g).2 → i ∈ idx → i < capacity) ∧
  (∀ idx s, buffers_sized s → Forall (λ i, i < capacity) idx →
     (episodic_read idx s).1 = Val ()) ∧
  (∀ idx s, (episodic_read idx s).1 = Val () ∨
     (episodic_read idx s).1 = Abort (Raise IndexError) ∧
     last_is_read (log (episodic_read idx s).2) = true) ∧
  ((execute g).1 = Abort (Raise IndexError) →
   ¬ labels_fit ∧ last_is_read (log (execute g).2) = false) ∧
  episodic_filled_counter (execute g).2 ≤ capacity ∧
  (∀ seen, reservoir_mem_filled_so_far seen capacity = seen `min` capacity) ∧
  (∀ task h, 0 < task →
     ∃ tt idx h',
       subspace_er_mem_indices task (Args.mem_size args) cpt h
         = Some ((tt, idx), h') ∧
       tt < task ∧
       ∀ i, i ∈ idx → tt * per_task_quota ≤ i < task * per_task_quota).
Proof.
  split_and!.
  - intros idx i Hin Hi. destruct (execute_Inv g) as [Hev _].
    apply (proj1 (Forall_forall _ _) Hev) in Hin. simpl in Hin.
    by apply (proj1 (Forall_forall _ _) Hin).
  - intros idx s [Hx Hy] Hidx.
    unfold episodic_read, mbind, M_bind, bind, emit, modify, get; simpl.
    rewrite decide_True; [done|].
    eapply Forall_impl; [exact Hidx|]. simpl. intros i Hi. lia.
  - intros idx s.
    unfold episodic_read, mbind, M_bind, bind, emit, modify, get; simpl.
    destruct (decide _); [by left|right]. simpl.
    by rewrite last_is_read_snoc.
  - pose proof (execute_spec g) as H.
    destruct (execute g) as [[result|r] s]; simpl; [done|].
    destruct H as (_ & _ & Hr). intros [= ->]. by apply Hr.
  - by destruct (execute_Inv g) as (_ & _ & Hcnt & _).
  - intros seen. unfold reservoir_mem_filled_so_far. case_decide; lia.
  - intros task h Htask.
    destruct (subspace_draw_spec task (Args.mem_size args) cpt h Htask)
      as (tt & idx & h' & Heq & Htt & Hperm).
    exists tt, idx, h'. split_and!; [done..|].
    intros i Hi. rewrite Hperm in Hi. apply elem_of_seq in Hi.
    unfold per_task_quota. nia.
Qed.

Lemma before_last_event {X} (pre post l : list X) (e e' : X) :
  pre ++ e :: post = l ++ [e'] → post = [] ∨ e ∈ l.
Proof.
  intros Heq. destruct (decide (post = [])) as [->|Hne]; [by left|right].
  destruct (exists_last Hne) as (post' & e3 & ->).
  assert (pre ++ e :: post' ++ [e3] = (pre ++ e :: post') ++ [e3]) as Hre.
  { by rewrite <-app_assoc. }
  rewrite Hre in Heq. apply app_inj_tail in Heq as [<- _].
  apply elem_of_app. right. apply list_elem_of_here.
Qed.

(** C7, as amended. A training step whose loss is NaN is the last thing an
    execution does: the process ends there with [sys.exit(0)]. *)
Theorem nan_loss_is_fatal g : fatal_loss math_isnan (execute g).
Proof.
  intros pre e post Hlog He.
  pose proof (execute_spec g) as H.
  assert (∀ l, Forall (λ e, nan_step e = false) l → e ∉ l) as Hfresh.
  { intros l Hfree Hin. apply (proj1 (Forall_forall _ _) Hfree) in Hin.
    unfold nan_step in Hin. congruence. }
  destruct (execute g) as [[result|r] s]; simpl in *.
  - destruct H as [[_ Hfree] _]. exfalso. apply (Hfresh _ Hfree).
    rewrite Hlog. apply elem_of_app. right. apply list_elem_of_here.
  - destruct H as (_ & [Hfree|(l' & e' & Hl & Hfree & He' & ->)] & _).
    + exfalso. apply (Hfresh _ Hfree).
      rewrite Hlog. apply elem_of_app. right. apply list_elem_of_here.
    + rewrite Hlog in Hl. apply before_last_event in Hl as [->|Hin]; [done|].
      by apply Hfresh in Hfree.
Qed.

(** C5. The buffers of a run with episodic memory are allocated once, when
    the run starts, as [episodic_mem_size = args.mem_size * total_classes]
    zero rows each; nothing a training step does (replay draws and reads,
    ring-buffer and reservoir writes) changes the length of either array, so
    both lengths are [episodic_mem_size] for the rest of the execution. *)
Theorem buffers_sized_throughout g :
  (∀ n s,
     episodic_images (allocate n s).2 = replicate n zero_image ∧
     episodic_labels (allocate n s).2 = replicate n zero_label) ∧
  (∀ n, Allocate n ∈ log (execute g).2 → n = capacity) ∧
  count_events is_allocate (log (execute g).2)
    = (if use_episodic_memory
       then count_events is_task_labels (log (execute g).2) else 0) ∧
  (count_events is_allocate (log (execute g).2) ≠ 0 →
   length (episodic_images (execute g).2) = capacity ∧
   length (episodic_labels (execute g).2) = capacity) ∧
  (∀ batch labels quota base,
     keeps buffer_lengths (update_fifo_buffer batch labels quota base)) ∧
  (∀ x y size seen, keeps buffer_lengths (update_reservior x y size seen)) ∧
  (∀ idx, keeps buffer_lengths (episodic_read idx)) ∧
  (∀ runid task labels train iters,
     keeps buffer_lengths (train_iter runid task cpt capacity labels train iters)).
Proof.
  destruct (execute_Inv g) as (Hev & _ & _ & Hcount & Hsized).
  split_and!; try done.
  - intros n Hin. by apply (proj1 (Forall_forall _ _) Hev) in Hin.
  - intros. apply keeps_update_fifo_buffer; try done.
    apply buffer_lengths_set_slot.
  - intros. apply keeps_update_reservior; try done.
    apply buffer_lengths_set_slot.
  - intros. by apply keeps_episodic_read.
  - intros. apply keeps_lengths_train_iter.
Qed.

Lemma train_iter_batch_of runid task classes_per_task episodic_mem_size
    labels train iters s :
  train_iter runid task classes_per_task episodic_mem_size labels train iters s
  = (batch_of train iters
       ≫= train_on_batch runid task classes_per_task episodic_mem_size labels iters) s.
Proof.
  unfold train_iter, batch_of, train_on_batch, mbind, M_bind, bind.
  by destruct (batch_bounds (length train) iters s) as [[[offset residual]|r] s'].
Qed.

(** Lines 529-530 with buffers of the size the run allocated: the offer is
    logged, the reservoir neither raises nor changes a length, the counter
    moves by one. *)
Lemma offer_to_reservoir_run x s :
  buffers_sized s →
  ∃ s',
    offer_to_reservoir capacity x s = (Val (), s') ∧
    buffers_sized s' ∧
    examples_seen_so_far s' = examples_seen_so_far s + 1 ∧
    log s' = log s ++ [Offer x (examples_seen_so_far s)].
Proof.
  intros Hsized. unfold offer_to_reservoir, mbind, M_bind, bind, get, emit, modify.
  set (s1 := append_log (Offer x (examples_seen_so_far s)) s).
  assert (triple buffers_sized
            (update_reservior x.1 x.2 capacity (examples_seen_so_far s))
            (λ _, buffers_sized) (λ _ _, False)) as Hsafe.
  { apply update_reservior_safe; [done| |done].
    intros i s' [Hx Hy]. unfold buffers_sized; simpl. by rewrite !length_insert. }
  specialize (Hsafe s1 Hsized).
  pose proof (keeps_update_reservior (λ s', (log s', examples_seen_so_far s'))
                (λ _ _, eq_refl) (λ _ _ _ _, eq_refl) x.1 x.2 capacity
                (examples_seen_so_far s) s1) as Hkeep.
  destruct (update_reservior _ _ _ _ s1) as [[[]|r] s2]; [|done].
  simpl in Hkeep. injection Hkeep as Hlog Hseen.
  eexists. split_and!; [done|done|..]; simpl.
  - by rewrite Hseen.
  - by rewrite Hlog.
Qed.

Lemma reservoir_update_run batch s :
  buffers_sized s →
  ∃ s',
    reservoir_update capacity batch s = (Val (), s') ∧
    buffers_sized s' ∧
    examples_seen_so_far s' = examples_seen_so_far s + length batch ∧
    log s' = log s ++ imap (λ i x, Offer x (examples_seen_so_far s + i)) batch.
Proof.
  revert s. induction batch as [|x batch IH]; intros s Hsized.
  - exists s. simpl. by rewrite Nat.add_0_r, app_nil_r.
  - destruct (offer_to_reservoir_run x s Hsized) as (s1 & Hstep & Hsized1 & Hseen1 & Hlog1).
    destruct (IH s1 Hsized1) as (s' & Hrun & Hsized' & Hseen' & Hlog').
    exists s'. unfold reservoir_update in *. cbn [for_each].
    unfold mbind, M_bind, bind. rewrite Hstep, Hrun.
    split_and!; [done..| |].
    + rewrite Hseen', Hseen1. simpl. lia.
    + rewrite Hlog', Hlog1, Hseen1, <-app_assoc. simpl.
      rewrite Nat.add_0_r. do 2 f_equal.
      apply imap_ext. intros i y _. simpl. f_equal. lia.
Qed.

(** Lines 507-530 with buffers of the size the run allocated: the replay is
    drawn and read, the batch of the step is offered, the step is logged. *)
Lemma reservoir_step_run runid task labels train iters batch s :
  Model.imp_method model = ER_Reservoir →
  buffers_sized s →
  batch_of train iters s = (Val batch, s) →
  ∃ er_mem_indices s',
    train_iter runid task cpt capacity labels train iters s
    = (if math_isnan (sess_run_loss runid task iters)
       then Abort (SysExit 0) else Val (), s') ∧
    log s'
    = log s ++ [Replay er_mem_indices]
        ++ imap (λ i x, Offer x (examples_seen_so_far s + i)) batch
        ++ [TrainStep runid task iters (sess_run_loss runid task iters)] ∧
    examples_seen_so_far s' = examples_seen_so_far s + length batch.
Proof.
  intros Hm Hsized Hbatch. rewrite train_iter_batch_of.
  unfold mbind at 1. unfold M_bind, bind. rewrite Hbatch.
  destruct (reservoir_draw_spec (examples_seen_so_far s) capacity
              (Args.eps_mem_batch args) (np_random s))
    as (idx & g' & Hdraw & Hsam).
  set (s1 := append_log (Replay idx) (set_np_random g' s)).
  assert (episodic_read idx (set_np_random g' s) = (Val (), s1)) as Hread.
  { unfold episodic_read, mbind, M_bind, bind, emit, modify, get; simpl.
    rewrite decide_True; [done|].
    eapply Forall_impl; [by eapply sampled_bound|]. simpl. intros i Hi.
    destruct Hsized as [-> ->].
    unfold reservoir_mem_filled_so_far in Hi. case_decide; lia. }
  destruct (reservoir_update_run batch s1 Hsized)
    as (s2 & Hrun & _ & Hseen & Hlog).
  exists idx.
  exists (append_log (TrainStep runid task iters (sess_run_loss runid task iters)) s2).
  split_and!.
  - unfold train_on_batch, replay_and_update, has_branch. rewrite Hm.
    unfold mbind, M_bind, bind, get, draw, emit, modify, mret, M_ret, ret.
    rewrite Hdraw, Hread, Hrun.
    by destruct (math_isnan _).
  - simpl. rewrite Hlog. simpl. by rewrite <-!app_assoc.
  - simpl. by rewrite Hseen.
Qed.

(** C2. The reservoir loop offers every exemplar of the batch once, in order,
    each with the value of [examples_seen_so_far] at that moment, and leaves
    the counter increased by the size of the batch, whatever the reservoir
    did with the exemplars; a training step of ER-Reservoir reads its replay,
    offers exactly the exemplars of its own batch [train_x[offset:offset +
    residual]] in that way, and then logs its loss; over an execution the
    offers made since the run allocated its memory carry the values
    [0, 1, ..., N-1], and the counter is [N]. *)
Theorem examples_seen_counts_offers g batch s :
  buffers_sized s →
  (∃ s',
     reservoir_update capacity batch s = (Val (), s') ∧
     examples_seen_so_far s' = examples_seen_so_far s + length batch ∧
     log s' = log s ++ imap (λ i x, Offer x (examples_seen_so_far s + i)) batch) ∧
  (Model.imp_method model = ER_Reservoir →
   ∀ runid task labels train iters,
     batch_of train iters s = (Val batch, s) →
     ∃ er_mem_indices s',
       train_iter runid task cpt capacity labels train iters s
       = (if math_isnan (sess_run_loss runid task iters)
          then Abort (SysExit 0) else Val (), s') ∧
       log s'
       = log s ++ [Replay er_mem_indices]
           ++ imap (λ i x, Offer x (examples_seen_so_far s + i)) batch
           ++ [TrainStep runid task iters (sess_run_loss runid task iters)] ∧
       examples_seen_so_far s' = examples_seen_so_far s + length batch) ∧
  omap offer_seen (since_allocate (log (execute g).2))
    = seq 0 (examples_seen_so_far (execute g).2).
Proof.
  intros Hsized. split_and!.
  - destruct (reservoir_update_run batch s Hsized) as (s' & ? & _ & ? & ?).
    by exists s'.
  - intros Hm runid task labels train iters Hbatch.
    by apply reservoir_step_run.
  - by destruct (execute_Inv g) as (_ & Hseen & _).
Qed.

(** ** What the replay draws from *)

Lemma grows_ret {A} (a : A) : grows (mret a).
Proof. intros s. exists []. by rewrite app_nil_r. Qed.

Lemma grows_keeps {A} (m : M A) : keeps log m → grows m.
Proof. intros Hm s. exists []. by rewrite Hm, app_nil_r. Qed.

Lemma grows_emit e : grows (emit e).
Proof. intros s. by exists [e]. Qed.

Lemma grows_bind {A B} (m : M A) (k : A → M B) :
  grows m → (∀ a, grows (k a)) → grows (m ≫= k).
Proof.
  intros Hm Hk s. unfold mbind, M_bind, bind. destruct (Hm s) as [r1 H1].
  destruct (m s) as [[a|r] s1]; simpl in *.
  - destruct (Hk a s1) as [r2 H2]. exists (r1 ++ r2).
    by rewrite H2, H1, app_assoc.
  - by exists r1.
Qed.

Lemma grows_for_each {A} (l : list A) (body : A → M unit) :
  (∀ a, grows (body a)) → grows (for_each l body).
Proof.
  intros Hbody. induction l as [|a l IH]; simpl; [apply grows_ret|].
  apply grows_bind; [apply Hbody|]. by intros [].
Qed.

Lemma grows_reservoir_update episodic_mem_size batch :
  grows (reservoir_update episodic_mem_size batch).
Proof.
  apply grows_for_each. intros exemplar. unfold offer_to_reservoir.
  apply grows_bind; [apply grows_keeps, keeps_get|]. intros s.
  apply grows_bind; [apply grows_emit|]. intros [].
  apply grows_bind; [by apply grows_keeps, keeps_update_reservior|]. intros [].
  apply grows_keeps. by intros s'.
Qed.


(** A replay logs its index array first, whatever follows. *)
Lemma replay_first (sample : state → sampler (list nat)) (k : M unit) idx g' s :
  sample s (np_random s) = Some (idx, g') → grows k →
  ∃ rest,
    log ((s0 ← get; er_mem_indices ← draw (sample s0);
          episodic_read er_mem_indices ;; k) s).2
    = log s ++ Replay idx :: rest.
Proof.
  intros Hdraw Hk. unfold mbind, M_bind, bind, get, draw. rewrite Hdraw.
  unfold episodic_read, mbind, M_bind, bind, emit, modify, get. cbn.
  destruct (decide _); cbn.
  - destruct (Hk (append_log (Replay idx) (set_np_random g' s))) as [rest Hrest].
    exists rest. rewrite Hrest. simpl. by rewrite <-app_assoc.
  - by exists [].
Qed.

Lemma reservoir_mem_filled_so_far_min seen size :
  reservoir_mem_filled_so_far seen size = seen `min` size.
Proof. unfold reservoir_mem_filled_so_far. case_decide; lia. Qed.

Lemma ringbuffer_mem_filled_so_far_min counter size :
  ringbuffer_mem_filled_so_far counter size = counter `min` size.
Proof. unfold ringbuffer_mem_filled_so_far. case_decide; lia. Qed.

Lemma reservoir_step_draw task labels batch s :
  Model.imp_method model = ER_Reservoir →
  ∃ idx rest,
    log (replay_and_update task cpt capacity labels batch s).2
    = log s ++ Replay idx :: rest ∧
    sampled_without_replacement (examples_seen_so_far s `min` capacity)
      (Args.eps_mem_batch args) idx.
Proof.
  intros Hm. unfold replay_and_update. rewrite Hm.
  destruct (reservoir_draw_spec (examples_seen_so_far s) capacity
              (Args.eps_mem_batch args) (np_random s))
    as (idx & g' & Hdraw & Hsam).
  rewrite reservoir_mem_filled_so_far_min in Hsam.
  destruct (replay_first
              (λ s, reservoir_er_mem_indices (examples_seen_so_far s) capacity
                      (Args.eps_mem_batch args))
              (reservoir_update capacity batch) idx g' s Hdraw
              (grows_reservoir_update capacity batch)) as [rest Hlog].
  by exists idx, rest.
Qed.

(** Lines 552-553: the call of [update_fifo_buffer] logs the counter it is
    given and nothing else. *)
Lemma put_batch_in_ring_buffer_log task labels batch s :
  log (put_batch_in_ring_buffer task labels batch s).2
  = log s ++ [FifoUpdate task (episodic_filled_counter s)].
Proof.
  unfold put_batch_in_ring_buffer, mbind, M_bind, bind, get, emit, modify. cbn.
  set (s1 := append_log (FifoUpdate task (episodic_filled_counter s)) s).
  pose proof (keeps_update_fifo_buffer log (λ _ _ _ _, eq_refl) (λ _ _, eq_refl)
                batch labels (Args.mem_size args) (episodic_filled_counter s) s1)
    as Hkeep.
  by destruct (update_fifo_buffer _ _ _ _ s1) as [[[]|r] s2].
Qed.

Lemma ringbuffer_step_draw task labels batch s :
  Model.imp_method model = ER_Ringbuffer →
  ∃ idx,
    sampled_without_replacement (episodic_filled_counter s `min` capacity)
      (Args.eps_mem_batch args) idx ∧
    (log (replay_and_update task cpt capacity labels batch s).2
     = log s ++ [Replay idx; FifoUpdate task (episodic_filled_counter s)]
     ∨ log (replay_and_update task cpt capacity labels batch s).2
       = log s ++ [Replay idx]).
Proof.
  intros Hm. unfold replay_and_update. rewrite Hm.
  destruct (ringbuffer_draw_spec (episodic_filled_counter s) capacity
              (Args.eps_mem_batch args) (np_random s))
    as (idx & g' & Hdraw & Hsam).
  rewrite ringbuffer_mem_filled_so_far_min in Hsam.
  exists idx. split; [done|].
  unfold mbind, M_bind, bind, get, draw. rewrite Hdraw.
  unfold episodic_read, mbind, M_bind, bind, emit, modify, get. cbn.
  destruct (decide _); cbn; [left|by right].
  rewrite put_batch_in_ring_buffer_log. simpl. by rewrite <-app_assoc.
Qed.

(** *** The slots of the reservoir *)

Lemma reservoir_valid_append_log e s :
  is_allocate e = false → reservoir_valid s → reservoir_valid (append_log e s).
Proof.
  intros He [Hlow Hhigh]. split; [|done]. intros i Hi.
  destruct (Hlow i Hi) as (x & n & Hin & Hx & Hy). exists x, n.
  split_and!; [|done|done]. simpl. rewrite since_allocate_snoc, He.
  apply elem_of_app. by left.
Qed.

(** The write of an offered exemplar, counted: into the next free slot while
    the reservoir is not full, into any slot afterwards. *)
Lemma reservoir_valid_write exemplar n slot s :
  reservoir_valid s →
  Offer exemplar n ∈ since_allocate (log s) →
  slot < length (episodic_images s) ∧ slot < length (episodic_labels s) →
  slot = examples_seen_so_far s
  ∨ (capacity ≤ examples_seen_so_far s ∧ slot < capacity) →
  reservoir_valid
    (set_examples_seen_so_far (examples_seen_so_far s + 1)
       (set_slot slot exemplar.1 exemplar.2 s)).
Proof.
  intros [Hlow Hhigh] Hin [Hx Hy] Hslot. split; simpl.
  - intros i Hi. destruct (decide (i = slot)) as [->|Hne].
    + exists exemplar, n. by rewrite !list_lookup_insert_eq.
    + rewrite !list_lookup_insert_ne by done. apply Hlow. lia.
  - intros i Hi. rewrite !list_lookup_insert_ne by lia. apply Hhigh. lia.
Qed.

Lemma reservoir_valid_skip s :
  capacity ≤ examples_seen_so_far s →
  reservoir_valid s →
  reservoir_valid (set_examples_seen_so_far (examples_seen_so_far s + 1) s).
Proof.
  intros Hfull [Hlow Hhigh]. split; simpl.
  - intros i Hi. apply Hlow. lia.
  - intros i Hi. apply Hhigh. lia.
Qed.

Lemma offer_to_reservoir_valid exemplar :
  triple reservoir_valid (offer_to_reservoir capacity exemplar)
    (λ _, reservoir_valid) (λ _, reservoir_valid).
Proof.
  intros s Hs.
  set (n := examples_seen_so_far s).
  set (s1 := append_log (Offer exemplar n) s).
  assert (reservoir_valid s1) as Hs1 by (by apply reservoir_valid_append_log).
  assert (Offer exemplar n ∈ since_allocate (log s1)) as Hin.
  { simpl. rewrite since_allocate_snoc. simpl.
    apply elem_of_app. right. apply list_elem_of_here. }
  unfold offer_to_reservoir, mbind, M_bind, bind, get, emit, modify. cbn.
  fold n s1. unfold update_reservior.
  destruct (decide (n < capacity)) as [Hlt|Hge].
  - unfold write_slot, mbind, M_bind, bind, get, modify.
    destruct (decide _) as [Hslot|]; [|done]. cbn.
    apply (reservoir_valid_write exemplar n n s1); auto.
  - unfold mbind, M_bind, bind, draw. cbn.
    destruct (random_interval (np_random s) n) as [j g'].
    set (s2 := set_np_random g' s1).
    destruct (decide (j < capacity)) as [Hj|Hj].
    + unfold write_slot, mbind, M_bind, bind, get, modify.
      destruct (decide _) as [Hslot|]; [|done]. cbn.
      apply (reservoir_valid_write exemplar n j s2); auto.
      right. simpl. fold n. lia.
    + cbn. apply (reservoir_valid_skip s2); [simpl; fold n; lia|done].
Qed.

Lemma replay_and_update_valid task classes_per_task labels batch :
  Model.imp_method model = ER_Reservoir →
  triple reservoir_valid
    (replay_and_update task classes_per_task capacity labels batch)
    (λ _, reservoir_valid) (λ _, reservoir_valid).
Proof.
  intros Hm. unfold replay_and_update. rewrite Hm.
  apply (triple_bind _ _ _ (λ _, reservoir_valid)); [by apply triple_get|].
  intros s0.
  apply (triple_bind _ _ _ (λ _, reservoir_valid)).
  { apply triple_draw; [|done]. by intros s a g Hs _. }
  intros idx. apply (triple_seq _ reservoir_valid).
  { intros s Hs.
    unfold episodic_read, mbind, M_bind, bind, emit, modify, get. cbn.
    destruct (decide _); cbn; by apply reservoir_valid_append_log. }
  apply triple_for_each_inv. intros exemplar _. apply offer_to_reservoir_valid.
Qed.

Lemma train_iter_valid runid task classes_per_task labels train iters :
  Model.imp_method model = ER_Reservoir →
  triple reservoir_valid
    (train_iter runid task classes_per_task capacity labels train iters)
    (λ _, reservoir_valid) (λ _, reservoir_valid).
Proof.
  intros Hm. unfold train_iter.
  apply (triple_bind _ _ _ (λ _, reservoir_valid)).
  { unfold batch_bounds. destruct (Args.train_single_epoch args);
      [by apply triple_ret|].
    apply (triple_bind _ _ _ (λ _, reservoir_valid));
      [|intros a; by apply triple_ret].
    unfold pymod. destruct (decide _); [by apply triple_raise|by apply triple_ret]. }
  intros [offset residual].
  apply (triple_seq _ reservoir_valid); [by apply replay_and_update_valid|].
  apply (triple_bind _ _ _ (λ _, reservoir_valid)).
  { destruct has_branch; [by apply triple_ret|by apply triple_raise]. }
  intros loss. apply (triple_seq _ reservoir_valid).
  { apply triple_modify. intros s Hs. by apply reservoir_valid_append_log. }
  destruct (math_isnan loss); [by intros s Hs|by apply triple_ret].
Qed.

Lemma train_run_valid runid :
  Model.imp_method model = ER_Reservoir →
  triple reservoir_valid (train_run runid)
    (λ _, reservoir_valid) (λ _, reservoir_valid).
Proof.
  intros Hm. unfold train_run.
  assert (use_episodic_memory = true) as Hep
    by (unfold use_episodic_memory; by rewrite Hm).
  rewrite Hep.
  apply (triple_seq _ reservoir_valid).
  { unfold seed_generator.
    destruct (decide _); [by apply triple_modify|by apply triple_raise]. }
  unfold floordiv at 1. destruct (decide (Args.num_tasks args = 0)) as [|Hnum].
  { by apply triple_raise. }
  apply (triple_bind _ _ _ (λ a s, reservoir_valid s ∧ a = cpt));
    [by apply triple_ret|].
  intros classes_per_task. apply triple_assume. intros ->.
  apply (triple_bind _ _ _ (λ _, reservoir_valid)).
  { apply triple_draw; [|done]. by intros s a g Hs _. }
  intros shuffled. cbv zeta. fold capacity.
  set (task_labels := split_task_labels shuffled _ _).
  apply (triple_seq _ reservoir_valid).
  { apply triple_modify. intros s Hs. by apply reservoir_valid_append_log. }
  apply (triple_seq _ reservoir_valid).
  { apply triple_modify. intros s Hs. split; simpl.
    - intros i Hi. lia.
    - intros i _. split; intros x Hx; apply lookup_replicate in Hx; by destruct Hx. }
  apply (triple_seq _ reservoir_valid); [by apply triple_modify|].
  apply (triple_seq _ reservoir_valid); [|by apply triple_ret].
  apply triple_for_each_inv. intros task _.
  apply (triple_seq _ reservoir_valid);
    [|by apply (checks_triple _ _ _ _ (checks_after_task task_labels task))].
  unfold train_task.
  apply (triple_bind _ _ _ (λ _, reservoir_valid)).
  { destruct (Args.train_single_epoch args); [|by apply triple_ret].
    unfold floordiv. destruct (decide _); [by apply triple_raise|by apply triple_ret]. }
  intros num_iters.
  apply (triple_seq _ reservoir_valid).
  { destruct (_ && _); [by apply triple_ret|].
    by apply (checks_triple _ _ _ _ (checks_assign_logit_mask task_labels task)). }
  apply (triple_bind _ _ _ (λ _, reservoir_valid)).
  { apply triple_draw; [|done]. by intros s a g Hs _. }
  intros perm. rewrite Hep.
  apply (triple_seq _ reservoir_valid); [|by apply triple_modify].
  apply triple_for_each_inv. intros iters _. unfold train_step.
  apply (triple_seq _ reservoir_valid);
    [by apply (checks_triple _ _ _ _ (checks_snapshot task_labels task iters))|].
  by apply train_iter_valid.
Qed.

Lemma run_loop_valid runids task_labels_dataset :
  Model.imp_method model = ER_Reservoir →
  triple reservoir_valid (run_loop runids task_labels_dataset)
    (λ _, reservoir_valid) (λ _, reservoir_valid).
Proof.
  intros Hm. revert task_labels_dataset.
  induction runids as [|runid runids IH]; intros task_labels_dataset; simpl.
  - by apply triple_ret.
  - eapply triple_bind; [by apply train_run_valid|].
    intros task_labels. apply IH.
Qed.

Lemma reservoir_valid_initial_state g : reservoir_valid (initial_state g).
Proof. split; simpl; [intros i Hi; lia|done]. Qed.

(** C1, as amended. In the ER-Reservoir and ER-Ringbuffer branches the
    replay draw always succeeds, and with [k] the requested size
    ([args.eps_mem_batch]) and [filled] the bound of lines 508 and 534 it is
    the whole range [[0, filled)] when [filled <= k] and otherwise [k]
    pairwise distinct indices below [filled]; each training step draws
    against its own counter, which with the ring buffer is the offset it
    goes on to pass to [update_fifo_buffer].  For ER-Reservoir [filled] is
    [min(examples_seen_so_far, episodic_mem_size)], and that is the number
    of valid slots: throughout an execution the slots below it hold
    exemplars that were offered and the slots from [examples_seen_so_far] on
    hold the zero rows of the allocation.  For ER-Ringbuffer [filled] is
    [min(episodic_filled_counter, episodic_mem_size)], and the counter is
    [task * args.mem_size * classes_per_task]: the slots reserved for the
    tasks that were completed, written or not. *)
Theorem replay_batch_without_replacement g :
  (∀ seen size, reservoir_mem_filled_so_far seen size = seen `min` size) ∧
  (∀ counter size, ringbuffer_mem_filled_so_far counter size = counter `min` size) ∧
  (∀ seen size k h, ∃ idx h',
     reservoir_er_mem_indices seen size k h = Some (idx, h') ∧
     sampled_without_replacement (seen `min` size) k idx) ∧
  (∀ counter size k h, ∃ idx h',
     ringbuffer_er_mem_indices counter size k h = Some (idx, h') ∧
     sampled_without_replacement (counter `min` size) k idx) ∧
  (Model.imp_method model = ER_Reservoir →
   ∀ task labels batch s, ∃ idx rest,
     log (replay_and_update task cpt capacity labels batch s).2
     = log s ++ Replay idx :: rest ∧
     sampled_without_replacement (examples_seen_so_far s `min` capacity)
       (Args.eps_mem_batch args) idx) ∧
  (Model.imp_method model = ER_Ringbuffer →
   ∀ task labels batch s, ∃ idx,
     sampled_without_replacement (episodic_filled_counter s `min` capacity)
       (Args.eps_mem_batch args) idx ∧
     (log (replay_and_update task cpt capacity labels batch s).2
      = log s ++ [Replay idx; FifoUpdate task (episodic_filled_counter s)]
      ∨ log (replay_and_update task cpt capacity labels batch s).2
        = log s ++ [Replay idx])) ∧
  (Model.imp_method model = ER_Reservoir →
   reservoir_valid (execute g).2 ∧
   ∀ runid task labels train iters s,
     reservoir_valid s →
     reservoir_valid (train_iter runid task cpt capacity labels train iters s).2) ∧
  (∀ task offset,
     FifoUpdate task offset ∈ log (execute g).2 →
     offset = task * Args.mem_size args * cpt).
Proof.
  split_and!.
  - apply reservoir_mem_filled_so_far_min.
  - apply ringbuffer_mem_filled_so_far_min.
  - intros seen size k h.
    destruct (reservoir_draw_spec seen size k h) as (idx & h' & Hdraw & Hsam).
    exists idx, h'. by rewrite <-reservoir_mem_filled_so_far_min.
  - intros counter size k h.
    destruct (ringbuffer_draw_spec counter size k h) as (idx & h' & Hdraw & Hsam).
    exists idx, h'. by rewrite <-ringbuffer_mem_filled_so_far_min.
  - intros Hm task labels batch s. by apply reservoir_step_draw.
  - intros Hm task labels batch s. by apply ringbuffer_step_draw.
  - intros Hm. split.
    + pose proof (run_loop_valid (seq 0 (Args.num_runs args)) [] Hm
                    (initial_state g) (reservoir_valid_initial_state g)) as H.
      unfold execute, train_task_sequence.
      by destruct (run_loop _ _ _) as [[result|r] s].
    + intros runid task labels train iters s Hs.
      pose proof (train_iter_valid runid task cpt labels train iters Hm s Hs) as H.
      by destruct (train_iter _ _ _ _ _ _ _ s) as [[[]|r] s'].
  - intros task offset Hin. destruct (execute_Inv g) as [Hev _].
    by apply (proj1 (Forall_forall _ _) Hev) in Hin.
Qed.

(** ** Which draws are shuffled *)














(** ** The ring buffer *)

Lemma for_each_app {X} (l1 l2 : list X) (body : X → M unit) s :
  for_each (l1 ++ l2) body s = (for_each l1 body ;; for_each l2 body) s.
Proof.
  revert s. induction l1 as [|a l1 IH]; intros s; simpl; [done|].
  unfold mbind, M_bind, bind in *.
  destruct (body a s) as [[[]|r] s1]; [|done]. apply IH.
Qed.

(** A write that returns went to the slot the modulo rule names. *)
Lemma fifo_write_Val labels quota base exemplar s s' :
  fifo_write labels quota base exemplar s = (Val (), s') →
  ∃ offset n,
    class_offset labels quota base (class_of exemplar.2) = Some offset ∧
    count_cls s !! class_of exemplar.2 = Some n ∧
    offset + n mod quota < length (episodic_images s) ∧
    s' = set_count_cls (<[class_of exemplar.2:=S n]> (count_cls s))
           (set_slot (offset + n mod quota) exemplar.1 exemplar.2 s).
Proof.
  unfold fifo_write, write_slot.
  destruct (class_offset _ _ _ _) as [offset|]; [|done].
  unfold mbind, M_bind, bind, get, modify.
  destruct (count_cls s !! _) as [n|] eqn:Hn; [|done].
  destruct (decide (quota = 0)); [done|].
  case_decide as Hd; [|done]. destruct Hd as [Hx Hy]. simpl.
  intros [= <-]. by exists offset, n.
Qed.

Lemma fifo_writes_counts quota writes s s' c :
  fifo_writes quota writes s = (Val (), s') →
  count_cls s' !! c = (λ n, n + writes_of_class c writes) <$> count_cls s !! c.
Proof.
  revert s. induction writes as [|w writes IH]; intros s Hrun.
  - injection Hrun as <-. unfold writes_of_class. simpl.
    destruct (count_cls s !! c) as [n|]; simpl; [|done]. f_equal. lia.
  - unfold fifo_writes in Hrun. cbn [for_each] in Hrun.
    unfold mbind, M_bind, bind in Hrun.
    destruct (fifo_write _ _ _ _ s) as [[[]|r] s1] eqn:Hw; [|done].
    apply fifo_write_Val in Hw as (offset & n & _ & Hn & _ & ->).
    rewrite (IH _ Hrun). simpl. unfold writes_of_class. rewrite filter_cons.
    destruct (decide (class_of w.2.2 = c)) as [Heq|Hne].
    + subst c. rewrite Hn, list_lookup_insert_eq by (by eapply lookup_lt_Some).
      simpl. f_equal. lia.
    + by rewrite list_lookup_insert_ne by done.
Qed.

(** C6. Starting from the counts of line 233, the write that follows [before]
    lands, for its class [c], at slot [class_offset[c] + n % quota], where
    [n] is the number of writes for [c] among [before], whatever writes for
    other classes are among them; and [count_cls[c]] becomes [n + 1],
    wrapped or not. *)
Theorem fifo_nth_write_slot quota before labels base exemplar s0 s2 :
  count_cls s0 = replicate TOTAL_CLASSES 0 →
  fifo_writes quota (before ++ [(labels, base, exemplar)]) s0 = (Val (), s2) →
  let c := class_of exemplar.2 in
  let n := writes_of_class c before in
  ∃ s1 offset,
    fifo_writes quota before s0 = (Val (), s1) ∧
    class_offset labels quota base c = Some offset ∧
    offset + n mod quota < length (episodic_images s1) ∧
    episodic_images s2 = <[offset + n mod quota:=exemplar.1]> (episodic_images s1) ∧
    episodic_labels s2 = <[offset + n mod quota:=exemplar.2]> (episodic_labels s1) ∧
    count_cls s2 !! c = Some (S n).
Proof.
  intros Hzero Hrun c n. unfold fifo_writes in Hrun.
  rewrite for_each_app in Hrun. unfold mbind, M_bind, bind in Hrun.
  destruct (for_each before _ s0) as [[[]|r] s1] eqn:Hbefore; [|done].
  cbn [for_each] in Hrun. unfold mbind, M_bind, bind in Hrun. simpl in Hrun.
  destruct (fifo_write labels quota base exemplar s1) as [[[]|r] s2'] eqn:Hw; [|done].
  injection Hrun as <-.
  apply fifo_write_Val in Hw as (offset & n' & Hoff & Hn' & Hslot & ->).
  pose proof (fifo_writes_counts quota before s0 s1 c Hbefore) as Hcount.
  fold c in Hn'. rewrite Hn', Hzero in Hcount.
  destruct (replicate TOTAL_CLASSES 0 !! c) as [z|] eqn:Hz; [|done].
  apply lookup_replicate in Hz as [-> _]. simpl in Hcount.
  injection Hcount as ->. fold n.
  exists s1, offset. split_and!; try done. simpl. fold c.
  apply list_lookup_insert_eq. by eapply lookup_lt_Some.
Qed.


(** ** The mini-batches of a task

    Lines 288-310 and 339-360: the order in which the training data of a task
    is visited, and the window of it each training step is fed. *)

Lemma omap_ext_Forall {X Y} (f g : X → option Y) (l : list X) :
  Forall (λ x, f x = g x) l → omap f l = omap g l.
Proof.
  induction 1 as [|x l Hx _ IH]; [done|]. simpl. rewrite Hx.
  destruct (g x); [by f_equal|done].
Qed.

Lemma omap_lookup_seq {X} (l : list X) :
  omap (λ i, l !! i) (seq 0 (length l)) = l.
Proof.
  induction l as [|x l IH] using rev_ind; [done|].
  rewrite length_app. cbn [length]. rewrite Nat.add_1_r, seq_S, omap_snoc.
  cbn [Nat.add]. rewrite list_lookup_middle by done. f_equal.
  rewrite <-IH at 2. apply omap_ext_Forall, Forall_seq.
  intros i Hi. apply lookup_app_l. lia.
Qed.

Lemma py_slice_window {X} (l : list X) (a r : nat) :
  a ≤ length l →
  py_slice l (Z.of_nat a) (Z.of_nat a + Z.of_nat r) = take r (drop a l).
Proof.
  intros Ha. unfold py_slice, py_index.
  rewrite !decide_False by lia.
  rewrite <-Nat2Z.inj_add, !Nat2Z.id.
  rewrite (Nat.min_l a) by done.
  destruct (decide (a + r ≤ length l)) as [Hle|Hgt].
  - rewrite Nat.min_l by done. f_equal. lia.
  - rewrite Nat.min_r by lia.
    rewrite !take_ge; [done| |]; rewrite length_drop; lia.
Qed.

Lemma concat_windows {X} (l : list X) (w n : nat) :
  concat ((λ i, take w (drop (i * w) l)) <$> seq 0 n) = take (n * w) l.
Proof.
  induction n as [|n IH]; [by rewrite take_0|].
  rewrite seq_S, fmap_app, concat_app, IH. simpl.
  rewrite app_nil_r, take_take_drop. f_equal. lia.
Qed.

(** Lines 292-294: [num_iters] is the ceiling of
    [num_train_examples / batch_size]. *)
Lemma ceiling_iters n b :
  b ≠ 0 →
  n ≤ (n + b - 1) / b * b ∧ ∀ i, i < (n + b - 1) / b → i * b < n.
Proof.
  intros Hb.
  pose proof (Nat.div_mod_eq (n + b - 1) b) as Hdm.
  pose proof (Nat.mod_upper_bound (n + b - 1) b Hb) as Hlt.
  split; [nia|]. intros i Hi. nia.
Qed.

Lemma batch_bounds_single_epoch n iters s :
  Args.train_single_epoch args = true →
  batch_bounds n iters s
  = (Val (Z.of_nat (iters * Args.batch_size args),
          if decide (iters * Args.batch_size args + Args.batch_size args ≤ n)
          then Args.batch_size args else n - iters * Args.batch_size args), s).
Proof. intros H. unfold batch_bounds. by rewrite H. Qed.

Lemma batch_of_single_epoch (train : list (Img * Lab)) iters s :
  Args.train_single_epoch args = true →
  iters * Args.batch_size args ≤ length train →
  batch_of train iters s
  = (Val (take (Args.batch_size args) (drop (iters * Args.batch_size args) train)), s).
Proof.
  intros Hse Hle. unfold batch_of, mbind, M_bind, bind.
  rewrite batch_bounds_single_epoch by done. simpl. unfold ret. do 2 f_equal.
  rewrite py_slice_window by done.
  case_decide as Hd; [done|].
  rewrite !take_ge; [done| |]; rewrite length_drop; lia.
Qed.

Lemma batch_bounds_multi_epoch n iters s :
  Args.train_single_epoch args = false →
  Args.batch_size args < n →
  batch_bounds n iters s
  = (Val (Z.of_nat ((iters * Args.batch_size args) mod (n - Args.batch_size args)),
          Args.batch_size args), s).
Proof.
  intros Hse Hlt. unfold batch_bounds, pymod. rewrite Hse.
  rewrite decide_False by lia.
  unfold mbind, M_bind, bind, ret, mret, M_ret, ret.
  do 3 f_equal. rewrite <-Nat2Z.inj_sub by lia.
  by rewrite Nat2Z.inj_mod.
Qed.

(** X1. Lines 305-310: the order in which a task's training data is visited
    is a rearrangement of that data, whatever the generator delivers: every
    exemplar of the task occurs in [train_x] exactly as often as in the
    loaded data. *)
Theorem shuffled_train_is_permutation (task_train : list (Img * Lab)) g :
  omap (λ i, task_train !! i) (shuffle g (arange (length task_train))).1
  ≡ₚ task_train.
Proof.
  rewrite shuffle_Permutation. unfold arange, arange2.
  by rewrite Nat.sub_0_r, omap_lookup_seq.
Qed.

(** X2. Lines 292-294 and 339-344: with [--train-single-epoch] and a
    non-zero batch size, the [num_iters] batches of a task are cut without
    error, none is empty or longer than [args.batch_size], and in order they
    make up the shuffled training data exactly: every exemplar is fed once. *)
Theorem single_epoch_batches_cover (train : list (Img * Lab)) s :
  Args.train_single_epoch args = true →
  Args.batch_size args ≠ 0 →
  ∃ batches,
    Forall2 (λ iters batch,
               batch_of train iters s = (Val batch, s) ∧
               0 < length batch ≤ Args.batch_size args)
      (seq 0 ((length train + Args.batch_size args - 1) / Args.batch_size args))
      batches ∧
    concat batches = train.
Proof.
  intros Hse Hb.
  destruct (ceiling_iters (length train) (Args.batch_size args) Hb) as [Hup Hlow].
  set (b := Args.batch_size args) in *.
  exists ((λ i, take b (drop (i * b) train)) <$> seq 0 ((length train + b - 1) / b)).
  split.
  - apply Forall2_fmap_r, Forall_Forall2_diag, Forall_seq.
    intros i Hi. simpl. specialize (Hlow i ltac:(lia)).
    split; [apply batch_of_single_epoch; [done|fold b; lia]|].
    rewrite length_take, length_drop. lia.
  - rewrite concat_windows. by apply take_ge.
Qed.

(** X3. Lines 358-360: without [--train-single-epoch] and with more training
    data than one batch, every step is fed a full window of exactly
    [args.batch_size] consecutive exemplars, and the window ends before the
    last exemplar of the shuffled data, which no step of the task reads. *)
Theorem multi_epoch_batch_window (train : list (Img * Lab)) iters s :
  Args.train_single_epoch args = false →
  Args.batch_size args < length train →
  ∃ offset,
    batch_of train iters s
    = (Val (take (Args.batch_size args) (drop offset train)), s) ∧
    offset + Args.batch_size args < length train ∧
    length (take (Args.batch_size args) (drop offset train)) = Args.batch_size args.
Proof.
  intros Hse Hlt.
  set (b := Args.batch_size args) in *.
  pose proof (Nat.mod_upper_bound (iters * b) (length train - b) ltac:(lia)) as Hoff.
  exists ((iters * b) mod (length train - b)). subst b. split_and!.
  - unfold batch_of, mbind, M_bind, bind.
    rewrite batch_bounds_multi_epoch by done. cbn beta iota.
    rewrite py_slice_window by lia. done.
  - lia.
  - rewrite length_take, length_drop. lia.
Qed.

(** X4. Line 359: without [--train-single-epoch], a task that has exactly
    [args.batch_size] training exemplars stops at its first step with a
    [ZeroDivisionError], before the memory, the generator or the model are
    touched. *)
Theorem multi_epoch_exact_batch_raises runid task classes_per_task episodic_mem_size
    labels (train : list (Img * Lab)) iters s :
  Args.train_single_epoch args = false →
  length train = Args.batch_size args →
  train_iter runid task classes_per_task episodic_mem_size labels train iters s
  = (Abort (Raise ZeroDivisionError), s).
Proof.
  intros Hse Hlen. unfold train_iter, batch_bounds, pymod, mbind, M_bind, bind.
  rewrite Hse, Hlen, decide_True by lia. done.
Qed.


(** X5. Lines 358-360: without [--train-single-epoch], a task with fewer
    training exemplars than one batch takes its offset modulo the negative
    [num_train_examples - batch_size]: the offset is zero or negative, the
    slice is cut from the end, and the step is fed the last exemplars of the
    shuffled data, at least one and fewer than [args.batch_size]. *)
Theorem multi_epoch_short_task_suffix (train : list (Img * Lab)) iters s :
  Args.train_single_epoch args = false →
  length train < Args.batch_size args →
  ∃ first,
    batch_of train iters s = (Val (drop first train), s) ∧
    (train ≠ [] → first < length train).
Proof.
  intros Hse Hlt. unfold batch_of, batch_bounds, pymod. rewrite Hse.
  rewrite decide_False by lia.
  unfold mbind, M_bind, bind, mret, M_ret, ret.
  set (offset := (Z.of_nat (iters * Args.batch_size args)
                  mod (Z.of_nat (length train) - Z.of_nat (Args.batch_size args)))%Z).
  assert (Z.of_nat (length train) - Z.of_nat (Args.batch_size args) < offset ≤ 0)%Z
    as Hoff by (apply Z.mod_neg_bound; lia).
  unfold py_slice, py_index.
  rewrite (decide_False (P := (offset + Z.of_nat (Args.batch_size args) < 0)%Z))
    by lia.
  rewrite (Nat.min_r (Z.to_nat (offset + Z.of_nat (Args.batch_size args)))) by lia.
  destruct (decide (offset < 0)%Z) as [Hneg|Hzero].
  - exists (Z.to_nat (offset + Z.of_nat (length train))). split.
    + rewrite take_ge; [done|]. rewrite length_drop. lia.
    + intros Hne. destruct train; [done|]. simpl length in *. lia.
  - exists 0. assert (offset = 0%Z) as -> by lia. split.
    + rewrite take_ge; [done|]. rewrite length_drop. simpl. lia.
    + intros Hne. destruct train; [done|]. simpl. lia.
Qed.

(** ** The training steps of an execution

    Lines 252, 292-298, 319 and 651-658: which steps are taken, in which
    order, and what the step of a method without a branch does. *)

Definition is_step (e : event) : bool :=
  match e with TrainStep _ _ _ _ => true | _ => false end.

(** The events of the episodic memory. *)
Definition memory_event (e : event) : bool :=
  match e with
  | Allocate _ | Replay _ | FifoUpdate _ _ | Offer _ _ => true
  | TaskLabels _ _ | TrainStep _ _ _ _ => false
  end.

(** The exemplars offered to the reservoir, each with the value of
    [examples_seen_so_far] it was offered under, in order. *)
Definition offered (l : list event) : list ((Img * Lab) * nat) :=
  omap (λ e, match e with
             | Offer exemplar seen => Some (exemplar, seen)
             | _ => None
             end) l.

(** The training steps among the events, in order. *)
Definition steps (l : list event) : list event :=
  filter (λ e, is_step e = true) l.

(** Lines 292-298: [num_iters] of a task with [num_train_examples]
    exemplars. *)
Definition num_iters_of (num_train_examples : nat) : nat :=
  if Args.train_single_epoch args
  then (num_train_examples + Args.batch_size args - 1) / Args.batch_size args
  else Args.train_iters args.

(** The steps of task [task] of run [runid]: [for iters in range(num_iters)],
    each with the loss TensorFlow returns for it. *)
Definition task_steps (runid : nat) (task_labels : list (list nat)) (task : nat)
  : list event :=
  let labels := default [] (task_labels !! task) in
  let num_train_examples := length (load_task_specific_data labels) in
  (λ iters, TrainStep runid task iters (sess_run_loss runid task iters))
    <$> seq 0 (num_iters_of num_train_examples).

(** [for task in range(len(task_labels))]. *)
Definition run_steps (runid : nat) (task_labels : list (list nat)) : list event :=
  concat (task_steps runid task_labels <$> seq 0 (length task_labels)).

(** [for runid in range(args.num_runs)], given the partition of each run. *)
Definition execution_steps (task_labels_dataset : list (list (list nat)))
  : list event :=
  concat (zip_with run_steps (seq 0 (length task_labels_dataset))
            task_labels_dataset).

(** The variables of the episodic memory. *)
Definition memory_vars (s : state)
  : list Img * list Lab * list nat * nat * nat :=
  (episodic_images s, episodic_labels s, count_cls s,
   episodic_filled_counter s, examples_seen_so_far s).

(** Neither a step nor an event of the memory has happened. *)
Definition memory_untouched (v : list Img * list Lab * list nat * nat * nat)
    (s : state) : Prop :=
  memory_vars s = v ∧ Forall (λ e, memory_event e = false) (log s).

Lemma steps_snoc l e :
  steps (l ++ [e]) = if is_step e then steps l ++ [e] else steps l.
Proof.
  unfold steps. rewrite filter_app.
  destruct e; simpl; by rewrite ?app_nil_r.
Qed.

(** What observes the state through everything but the events of the memory
    is left alone by the memory's part of a training step. *)
Section keeps_but_memory_events.
Context {X : Type} (f : state → X).
Hypothesis f_rng : ∀ g s, f (set_np_random g s) = f s.
Hypothesis f_slot : ∀ i x y s, f (set_slot i x y s) = f s.
Hypothesis f_cls : ∀ c s, f (set_count_cls c s) = f s.
Hypothesis f_seen : ∀ n s, f (set_examples_seen_so_far n s) = f s.
Hypothesis f_mem : ∀ e s, memory_event e = true → f (append_log e s) = f s.

Lemma keeps_memory_emit e : memory_event e = true → keeps f (emit e).
Proof using f_mem. intros He s. by apply f_mem. Qed.

Lemma keeps_memory_read idx : keeps f (episodic_read idx).
Proof using f_mem.
  unfold episodic_read. apply keeps_bind; [by apply keeps_memory_emit|]. intros [].
  apply keeps_bind; [apply keeps_get|]. intros s.
  destruct (decide _); [apply keeps_ret|apply keeps_raise].
Qed.

Lemma keeps_memory_put_batch task labels batch :
  keeps f (put_batch_in_ring_buffer task labels batch).
Proof using f_slot f_cls f_mem.
  unfold put_batch_in_ring_buffer. apply keeps_bind; [apply keeps_get|]. intros s.
  apply keeps_bind; [by apply keeps_memory_emit|]. intros [].
  by apply keeps_update_fifo_buffer.
Qed.

Lemma keeps_memory_reservoir_update episodic_mem_size batch :
  keeps f (reservoir_update episodic_mem_size batch).
Proof using f_rng f_slot f_seen f_mem.
  apply keeps_for_each. intros exemplar. unfold offer_to_reservoir.
  apply keeps_bind; [apply keeps_get|]. intros s.
  apply keeps_bind; [by apply keeps_memory_emit|]. intros [].
  apply keeps_bind; [by apply keeps_update_reservior|]. intros [] s'. apply f_seen.
Qed.

Lemma keeps_memory_replay_earlier_task task classes_per_task :
  keeps f (replay_earlier_task task classes_per_task).
Proof using f_rng f_mem.
  unfold replay_earlier_task. destruct (decide _); [|apply keeps_ret].
  apply keeps_bind; [by apply keeps_draw|]. intros r. apply keeps_memory_read.
Qed.

Lemma keeps_memory_replay (sample : state → sampler (list nat)) :
  keeps f (s ← get; idx ← draw (sample s); episodic_read idx).
Proof using f_rng f_mem.
  apply keeps_bind; [apply keeps_get|]. intros s.
  apply keeps_bind; [by apply keeps_draw|]. intros idx. apply keeps_memory_read.
Qed.

Lemma keeps_memory_replay_and_update task classes_per_task episodic_mem_size
    labels batch :
  keeps f (replay_and_update task classes_per_task episodic_mem_size labels batch).
Proof using f_rng f_slot f_cls f_seen f_mem.
  unfold replay_and_update. destruct (Model.imp_method model);
    try apply keeps_ret.
  - apply keeps_bind; [|intros []; apply keeps_memory_put_batch].
    destruct (decide _); [apply keeps_ret|].
    apply (keeps_memory_replay (λ s, agem_mem_sample_mask _ _)).
  - apply keeps_bind; [apply keeps_get|]. intros s.
    apply keeps_bind; [by apply keeps_draw|]. intros idx.
    apply keeps_bind; [apply keeps_memory_read|]. intros [].
    apply keeps_memory_reservoir_update.
  - apply keeps_bind; [apply keeps_get|]. intros s.
    apply keeps_bind; [by apply keeps_draw|]. intros idx.
    apply keeps_bind; [apply keeps_memory_read|]. intros [].
    apply keeps_memory_put_batch.
  - apply keeps_bind; [apply keeps_memory_replay_earlier_task|]. intros [].
    apply keeps_memory_put_batch.
  - apply keeps_bind; [apply keeps_memory_replay_earlier_task|]. intros [].
    apply keeps_bind; [|intros []; apply keeps_memory_put_batch].
    destruct (decide _); [apply keeps_ret|].
    apply (keeps_memory_replay (λ s, ringbuffer_er_mem_indices _ _ _)).
Qed.
End keeps_but_memory_events.

Lemma keeps_steps_replay_and_update task classes_per_task episodic_mem_size
    labels batch :
  keeps (λ s, steps (log s))
    (replay_and_update task classes_per_task episodic_mem_size labels batch).
Proof.
  apply keeps_memory_replay_and_update; try done.
  intros e s He. simpl. rewrite steps_snoc. by destruct e.
Qed.

(** One step: the memory's part logs no step, then the step is logged with
    the loss of the session, and a step that returns had no NaN loss. *)
Lemma train_iter_steps runid task classes_per_task episodic_mem_size
    labels train iters l :
  triple (λ s, steps (log s) = l)
    (train_iter runid task classes_per_task episodic_mem_size labels train iters)
    (λ _ s, steps (log s)
            = l ++ [TrainStep runid task iters (sess_run_loss runid task iters)])
    (λ _ _, True).
Proof.
  unfold train_iter. eapply triple_bind.
  { instantiate (1 := λ _ s, steps (log s) = l).
    unfold batch_bounds. destruct (Args.train_single_epoch args);
      [by apply triple_ret|].
    apply (triple_bind _ _ _ (λ _ s, steps (log s) = l));
      [|intros a; by apply triple_ret].
    unfold pymod. destruct (decide _); [by apply triple_raise|by apply triple_ret]. }
  intros [offset residual]. apply (triple_seq _ (λ s, steps (log s) = l)).
  { eapply triple_conseq;
      [apply (keeps_triple (λ s, steps (log s)) _ l), keeps_steps_replay_and_update
      |done|done|done]. }
  eapply triple_bind.
  { instantiate (1 := λ loss s, steps (log s) = l
                                ∧ loss = sess_run_loss runid task iters).
    destruct has_branch; [by apply triple_ret|by apply triple_raise]. }
  intros loss. apply triple_assume. intros ->.
  eapply triple_seq.
  { apply (triple_modify _ _ (λ _ s, steps (log s)
      = l ++ [TrainStep runid task iters (sess_run_loss runid task iters)])).
    intros s Hs. simpl. by rewrite steps_snoc, Hs. }
  destruct (math_isnan _); [done|by apply triple_ret].
Qed.

Lemma train_task_steps runid classes_per_task episodic_mem_size task_labels task l :
  triple (λ s, steps (log s) = l)
    (train_task runid classes_per_task episodic_mem_size task_labels task)
    (λ _ s, steps (log s) = l ++ task_steps runid task_labels task)
    (λ _ _, True).
Proof.
  unfold train_task, task_steps.
  set (labels := default [] (task_labels !! task)).
  set (n := length (load_task_specific_data labels)).
  eapply triple_bind.
  { instantiate (1 := λ num_iters s, steps (log s) = l ∧ num_iters = num_iters_of n).
    unfold num_iters_of. destruct (Args.train_single_epoch args);
      [|by apply triple_ret].
    unfold floordiv. destruct (decide _); [by apply triple_raise|by apply triple_ret]. }
  intros num_iters. apply triple_assume. intros ->.
  apply (triple_seq _ (λ s, steps (log s) = l)).
  { destruct (_ && _); [by apply triple_ret|].
    by apply (checks_triple _ _ _ _ (checks_assign_logit_mask task_labels task)). }
  eapply triple_bind.
  { apply (triple_draw _ _ (λ _ s, steps (log s) = l)); [|done].
    by intros s a g Hs _. }
  intros perm.
  set (step := λ iters, TrainStep runid task iters (sess_run_loss runid task iters)).
  apply (triple_seq _ (λ s, steps (log s) = l ++ (step <$> seq 0 (num_iters_of n)))).
  { eapply triple_conseq;
      [apply (triple_for_each (λ i s, steps (log s) = l ++ (step <$> seq 0 i))
                (λ _ _, True))
      | | |done].
    - intros i iters Hi. apply lookup_seq in Hi as [-> Hi]. unfold train_step.
      apply (triple_seq _ (λ s, steps (log s) = l ++ (step <$> seq 0 i))).
      { by apply (checks_triple _ _ _ _ (checks_snapshot task_labels task i)). }
      eapply triple_conseq;
        [apply train_iter_steps with (l := l ++ (step <$> seq 0 i))
        |done| |done].
      intros [] s Hs. cbn beta in Hs.
      by rewrite Hs, seq_S, fmap_app, app_assoc.
    - intros s Hs. simpl. by rewrite app_nil_r.
    - intros [] s Hs. by rewrite length_seq in Hs. }
  destruct use_episodic_memory; [by apply triple_modify|by apply triple_ret].
Qed.

Lemma train_run_steps runid l :
  triple (λ s, steps (log s) = l) (train_run runid)
    (λ task_labels s, steps (log s) = l ++ run_steps runid task_labels)
    (λ _ _, True).
Proof.
  unfold train_run.
  apply (triple_seq _ (λ s, steps (log s) = l)).
  { unfold seed_generator.
    destruct (decide _); [by apply triple_modify|by apply triple_raise]. }
  apply (triple_bind _ _ _ (λ _ s, steps (log s) = l)).
  { unfold floordiv. destruct (decide _); [by apply triple_raise|by apply triple_ret]. }
  intros classes_per_task.
  apply (triple_bind _ _ _ (λ _ s, steps (log s) = l)).
  { apply triple_draw; [|done]. by intros s a g Hs _. }
  intros shuffled.
  set (task_labels := split_task_labels shuffled classes_per_task (Model.num_tasks model)).
  apply (triple_seq _ (λ s, steps (log s) = l)).
  { apply triple_modify. intros s Hs. simpl. by rewrite steps_snoc. }
  apply (triple_seq _ (λ s, steps (log s) = l)).
  { destruct use_episodic_memory; [|by apply triple_ret].
    apply triple_modify. intros s Hs. simpl. by rewrite steps_snoc. }
  apply (triple_seq _ (λ s, steps (log s) = l)); [by apply triple_modify|].
  apply (triple_seq _ (λ s, steps (log s) = l ++ run_steps runid task_labels));
    [|by apply triple_ret].
  unfold run_steps.
  eapply triple_conseq;
    [apply (triple_for_each
       (λ i s, steps (log s)
               = l ++ concat (task_steps runid task_labels <$> seq 0 i))
       (λ _ _, True))
    | | |done].
  - intros i task Hi. apply lookup_seq in Hi as [-> Hi]. cbn beta.
    apply (triple_seq _ (λ s, steps (log s)
             = l ++ concat (task_steps runid task_labels <$> seq 0 (S i))));
      [|by apply (checks_triple _ _ _ _ (checks_after_task task_labels i))].
    eapply triple_conseq;
      [apply train_task_steps
         with (l := l ++ concat (task_steps runid task_labels <$> seq 0 i))
      |done| |done].
    intros [] s Hs. cbn beta in Hs.
    rewrite Hs, seq_S, fmap_app, concat_app. simpl.
    by rewrite app_nil_r, app_assoc.
  - intros s Hs. simpl. by rewrite app_nil_r.
  - intros [] s Hs. by rewrite length_seq in Hs.
Qed.

Lemma run_loop_steps runids task_labels_dataset l :
  triple (λ s, steps (log s) = l) (run_loop runids task_labels_dataset)
    (λ result s, ∃ rest,
       result = task_labels_dataset ++ rest ∧ length rest = length runids ∧
       steps (log s) = l ++ concat (zip_with run_steps runids rest))
    (λ _ _, True).
Proof.
  revert task_labels_dataset l. induction runids as [|runid runids IH];
    intros task_labels_dataset l; simpl.
  - apply triple_ret. intros s Hs. exists []. by rewrite !app_nil_r.
  - eapply triple_bind; [apply train_run_steps|]. intros task_labels.
    eapply triple_conseq;
      [apply IH with (l := l ++ run_steps runid task_labels)|done| |done].
    intros result s (rest & -> & Hlen & Hs). exists (task_labels :: rest).
    split_and!; [by rewrite <-app_assoc|by rewrite length_cons, Hlen|].
    by rewrite Hs, <-app_assoc.
Qed.

Lemma train_iter_without_branch runid task classes_per_task episodic_mem_size
    labels (train : list (Img * Lab)) iters s :
  Model.imp_method model = S_GEM →
  train_iter runid task classes_per_task episodic_mem_size labels train iters s
  = (Abort (Raise (if decide (Args.train_single_epoch args = false
                              ∧ length train = Args.batch_size args)
                   then ZeroDivisionError else NameError)), s).
Proof.
  intros Hm.
  unfold train_iter, replay_and_update, has_branch, batch_bounds, pymod.
  rewrite Hm. unfold mbind, M_bind, bind.
  destruct (Args.train_single_epoch args).
  - by destruct (decide (true = false ∧ _)) as [[? _]|_].
  - destruct (decide (false = false ∧ _)) as [[_ Heq]|Hne].
    + by rewrite decide_True by lia.
    + rewrite decide_False; [done|]. intros Heq. apply Hne. split; [done|lia].
Qed.

Lemma snapshot_raises task_labels task iters s :
  (snapshot task_labels task iters s).1 ≠ Val () →
  ¬ can_evaluate task_labels task ∧
  Args.train_single_epoch args = true ∧
  Args.cross_validate_mode args = false ∧
  snapshot_due iters = true.
Proof.
  intros Hs. split.
  - destruct (checks_snapshot task_labels task iters s) as [Heq|[_ Hno]]; [|done].
    by rewrite Heq in Hs.
  - unfold snapshot in Hs.
    destruct (Args.train_single_epoch args), (Args.cross_validate_mode args);
      try done.
    by destruct (snapshot_due iters).
Qed.

(** X6. Lines 50 and 319-658: [MODELS] admits S-GEM, but the training step
    has no branch for it, so [loss] is never bound: no step of an S-GEM run
    completes, and nothing has been logged or changed when it stops.  It
    stops with the [IndexError] of the snapshot of lines 321-337 when that
    raises, which takes [--train-single-epoch] without
    [--cross-validate-mode], a step the snapshot is due at, and a label or a
    task the masks have no place for; otherwise with the
    [ZeroDivisionError] of line 359 in the situation of that line, and with
    a [NameError] where [loss] is read (line 651 or 656) in every other
    case. *)
Theorem sgem_step_never_completes runid task classes_per_task episodic_mem_size
    task_labels (train : list (Img * Lab)) iters s :
  Model.imp_method model = S_GEM →
  train_step runid task classes_per_task episodic_mem_size task_labels train iters s
  = (Abort (Raise match (snapshot task_labels task iters s).1 with
                  | Val _ =>
                      if decide (Args.train_single_epoch args = false
                                 ∧ length train = Args.batch_size args)
                      then ZeroDivisionError else NameError
                  | Abort _ => IndexError
                  end), s) ∧
  ((snapshot task_labels task iters s).1 ≠ Val () →
   ¬ can_evaluate task_labels task ∧
   Args.train_single_epoch args = true ∧
   Args.cross_validate_mode args = false ∧
   snapshot_due iters = true).
Proof.
  intros Hm. split; [|apply snapshot_raises].
  unfold train_step, mbind, M_bind, bind.
  destruct (checks_snapshot task_labels task iters s) as [->|[-> _]]; [|done].
  simpl. by apply train_iter_without_branch.
Qed.

(** X7. Lines 188, 252, 292-298, 319 and 656-658: an execution that returns
    has taken, for every run in order and every task of the run's partition
    in order, the steps [0 .. num_iters - 1] in order, each once and none with
    a NaN loss, [num_iters] being the ceiling of
    [num_train_examples / batch_size] with [--train-single-epoch] and
    [args.train_iters] without; the partitions are those of the arguments. *)
Theorem completed_execution_steps g :
  match execute g with
  | (Val task_labels_dataset, s) =>
      steps (log s) = execution_steps task_labels_dataset ∧
      Forall2 (λ runid task_labels, run_task_labels runid = Some task_labels)
        (seq 0 (Args.num_runs args)) task_labels_dataset ∧
      Forall (λ e, nan_step e = false) (log s)
  | (Abort _, _) => True
  end.
Proof.
  pose proof (run_loop_steps (seq 0 (Args.num_runs args)) [] [] (initial_state g)
                eq_refl) as Hsteps.
  pose proof (execute_spec g) as Hspec.
  unfold execute, train_task_sequence in *.
  destruct (run_loop _ _ _) as [[result|r] s]; [|done].
  destruct Hsteps as (rest & -> & Hlen & Hsteps).
  destruct Hspec as [[_ Hnan] Hlabels].
  unfold execution_steps. cbn [app] in *. rewrite Hlen, length_seq. done.
Qed.

(** ** Methods without episodic memory *)

Lemma replay_and_update_without_memory task classes_per_task episodic_mem_size
    labels batch :
  use_episodic_memory = false →
  replay_and_update task classes_per_task episodic_mem_size labels batch = mret ().
Proof.
  unfold use_episodic_memory, replay_and_update.
  by destruct (Model.imp_method model).
Qed.

Lemma memory_untouched_append_log v e s :
  memory_event e = false →
  memory_untouched v s → memory_untouched v (append_log e s).
Proof.
  intros He [Hv Hlog]. split; [done|]. simpl.
  apply Forall_app. split; [done|]. by apply Forall_singleton.
Qed.

Lemma train_iter_without_memory v runid task classes_per_task episodic_mem_size
    labels train iters :
  use_episodic_memory = false →
  triple (memory_untouched v)
    (train_iter runid task classes_per_task episodic_mem_size labels train iters)
    (λ _, memory_untouched v) (λ _, memory_untouched v).
Proof.
  intros Hep. unfold train_iter.
  apply (triple_bind _ _ _ (λ _, memory_untouched v)).
  { unfold batch_bounds. destruct (Args.train_single_epoch args);
      [by apply triple_ret|].
    apply (triple_bind _ _ _ (λ _, memory_untouched v));
      [|intros a; by apply triple_ret].
    unfold pymod. destruct (decide _); [by apply triple_raise|by apply triple_ret]. }
  intros [offset residual]. rewrite replay_and_update_without_memory by done.
  apply (triple_seq _ (memory_untouched v)); [by apply triple_ret|].
  apply (triple_bind _ _ _ (λ _, memory_untouched v)).
  { destruct has_branch; [by apply triple_ret|by apply triple_raise]. }
  intros loss. apply (triple_seq _ (memory_untouched v)).
  { apply triple_modify. intros s Hs. by apply memory_untouched_append_log. }
  destruct (math_isnan loss); [by intros s Hs|by apply triple_ret].
Qed.

Lemma train_run_without_memory v runid :
  use_episodic_memory = false →
  triple (memory_untouched v) (train_run runid)
    (λ _, memory_untouched v) (λ _, memory_untouched v).
Proof.
  intros Hep. unfold train_run. rewrite Hep.
  apply (triple_seq _ (memory_untouched v)).
  { unfold seed_generator.
    destruct (decide _); [by apply triple_modify|by apply triple_raise]. }
  apply (triple_bind _ _ _ (λ _, memory_untouched v)).
  { unfold floordiv. destruct (decide _); [by apply triple_raise|by apply triple_ret]. }
  intros classes_per_task.
  apply (triple_bind _ _ _ (λ _, memory_untouched v)).
  { apply triple_draw; [|done]. by intros s a g Hs _. }
  intros shuffled.
  apply (triple_seq _ (memory_untouched v)).
  { apply triple_modify. intros s Hs. by apply memory_untouched_append_log. }
  apply (triple_seq _ (memory_untouched v)); [by apply triple_ret|].
  apply (triple_seq _ (memory_untouched v)); [by apply triple_modify|].
  apply (triple_seq _ (memory_untouched v)); [|by apply triple_ret].
  apply triple_for_each_inv. intros task _.
  set (task_labels := split_task_labels _ _ _).
  apply (triple_seq _ (memory_untouched v));
    [|by apply (checks_triple _ _ _ _ (checks_after_task task_labels task))].
  unfold train_task. rewrite Hep.
  apply (triple_bind _ _ _ (λ _, memory_untouched v)).
  { destruct (Args.train_single_epoch args); [|by apply triple_ret].
    unfold floordiv. destruct (decide _); [by apply triple_raise|by apply triple_ret]. }
  intros num_iters.
  apply (triple_seq _ (memory_untouched v)).
  { destruct (_ && _); [by apply triple_ret|].
    by apply (checks_triple _ _ _ _ (checks_assign_logit_mask task_labels task)). }
  apply (triple_bind _ _ _ (λ _, memory_untouched v)).
  { apply triple_draw; [|done]. by intros s a g Hs _. }
  intros perm.
  apply (triple_seq _ (memory_untouched v)); [|by apply triple_ret].
  apply triple_for_each_inv. intros iters _. unfold train_step.
  apply (triple_seq _ (memory_untouched v));
    [by apply (checks_triple _ _ _ _ (checks_snapshot task_labels task iters))|].
  by apply train_iter_without_memory.
Qed.

Lemma run_loop_without_memory v runids task_labels_dataset :
  use_episodic_memory = false →
  triple (memory_untouched v) (run_loop runids task_labels_dataset)
    (λ _, memory_untouched v) (λ _, memory_untouched v).
Proof.
  intros Hep. revert task_labels_dataset.
  induction runids as [|runid runids IH]; intros task_labels_dataset; simpl.
  - by apply triple_ret.
  - eapply triple_bind; [by apply train_run_without_memory|].
    intros task_labels. apply IH.
Qed.

(** X8. Lines 181-184, 229-235 and 688-689: under a method other than A-GEM,
    ER-Ringbuffer, ER-Reservoir, ER-SUBSPACE and ER-SUBSPACE-GP an execution
    never allocates, reads or writes the episodic memory and never moves its
    counters, however it ends: the variables of the memory are as at the
    start, and all it does is record partitions and take training steps. *)
Theorem no_memory_without_episodic_method g :
  use_episodic_memory = false →
  memory_vars (execute g).2 = memory_vars (initial_state g) ∧
  Forall (λ e, memory_event e = false) (log (execute g).2).
Proof.
  intros Hep.
  pose proof (run_loop_without_memory (memory_vars (initial_state g))
                (seq 0 (Args.num_runs args)) [] Hep (initial_state g)) as H.
  unfold execute, train_task_sequence.
  destruct (run_loop _ _ _) as [[result|r] s]; by apply H.
Qed.

(** X9. Lines 188, 192 and 197: without runs the loop returns no partition
    and touches nothing, not even the generator; with runs, a seed
    [args.random_seed] that is negative or not below [2**32] stops the first
    run at [np.random.seed] with a [ValueError] and nothing touched; with
    runs, a seed the generator accepts and [--num-tasks 0], the first run
    stops at [TOTAL_CLASSES // args.num_tasks] with a [ZeroDivisionError],
    after it seeded the generator and before anything is recorded, allocated
    or trained. *)
Theorem degenerate_arguments g :
  (Args.num_runs args = 0 → execute g = (Val [], initial_state g)) ∧
  (Args.num_runs args ≠ 0 →
   ¬ (0 ≤ Args.random_seed args < 2 ^ 32)%Z →
   execute g = (Abort (Raise ValueError), initial_state g)) ∧
  (Args.num_runs args ≠ 0 →
   (0 ≤ Args.random_seed args < 2 ^ 32)%Z →
   Args.num_tasks args = 0 →
   execute g
   = (Abort (Raise ZeroDivisionError),
      set_np_random (np_random_seed (Args.random_seed args + 0)) (initial_state g))).
Proof.
  unfold execute, train_task_sequence. split_and!.
  - by intros ->.
  - intros Hruns Hseed.
    destruct (Args.num_runs args) as [|n]; [done|].
    cbn [seq run_loop]. unfold train_run, seed_generator.
    rewrite decide_False; [done|]. simpl. by rewrite Z.add_0_r.
  - intros Hruns Hseed Htasks.
    destruct (Args.num_runs args) as [|n]; [done|].
    cbn [seq run_loop]. unfold train_run, seed_generator.
    rewrite decide_True by (simpl; by rewrite Z.add_0_r).
    unfold floordiv. rewrite decide_True by done. done.
Qed.

(** ** The draws of A-GEM and of the subspace methods *)

Lemma sampled_without_replacement_NoDup filled k idx :
  sampled_without_replacement filled k idx →
  length idx = filled `min` k ∧ NoDup idx ∧ ∀ i, i ∈ idx → i < filled.
Proof.
  intros [Hall Hsub]. destruct (decide (filled ≤ k)) as [Hle|Hgt].
  - specialize (Hall Hle). split_and!.
    + rewrite Hall, length_seq. lia.
    + rewrite Hall. apply NoDup_seq.
    + intros i Hi. rewrite Hall in Hi. apply elem_of_seq in Hi. lia.
  - destruct (Hsub ltac:(lia)) as (Hlen & Hnd & Hin). split_and!; [lia|done|done].
Qed.

(** X10. Lines 459-469: the reference batch of A-GEM is always drawn without
    error; it holds [min(episodic_filled_counter, eps_mem_batch)] pairwise
    distinct slots below [episodic_filled_counter], which is the size passed
    as [mem_batch_size]; and while the memory holds no more than
    [eps_mem_batch] exemplars it is the whole filled range in ascending
    order, for which the generator is not consulted. *)
Theorem agem_reference_batch episodic_filled_counter eps_mem_batch g :
  ∃ mem_sample_mask g',
    agem_mem_sample_mask episodic_filled_counter eps_mem_batch g
      = Some (mem_sample_mask, g') ∧
    length mem_sample_mask = episodic_filled_counter `min` eps_mem_batch ∧
    NoDup mem_sample_mask ∧
    (∀ i, i ∈ mem_sample_mask → i < episodic_filled_counter) ∧
    (episodic_filled_counter ≤ eps_mem_batch →
     mem_sample_mask = seq 0 episodic_filled_counter ∧ g' = g).
Proof.
  destruct (agem_draw_spec episodic_filled_counter eps_mem_batch g)
    as (idx & g' & Hdraw & Hs).
  exists idx, g'.
  destruct (sampled_without_replacement_NoDup _ _ _ Hs) as (Hlen & Hnd & Hin).
  split_and!; try done.
  intros Hle. unfold agem_mem_sample_mask in Hdraw.
  rewrite decide_True in Hdraw by done. injection Hdraw as <- <-.
  unfold arange, arange2. by rewrite Nat.sub_0_r.
Qed.


(** ** One pass over a task with the reservoir *)

Lemma offered_snoc l e :
  offered (l ++ [e])
  = offered l ++ match e with Offer exemplar seen => [(exemplar, seen)] | _ => [] end.
Proof. unfold offered. rewrite omap_app. by destruct e. Qed.

(** What the reservoir has been offered so far, and its counter. *)
Definition Offered (l : list ((Img * Lab) * nat)) (n : nat) (s : state) : Prop :=
  offered (log s) = l ∧ examples_seen_so_far s = n.

Lemma offer_to_reservoir_offered episodic_mem_size exemplar l n :
  triple (Offered l n) (offer_to_reservoir episodic_mem_size exemplar)
    (λ _, Offered (l ++ [(exemplar, n)]) (S n)) (λ _ _, True).
Proof.
  intros s [Hl Hn].
  unfold offer_to_reservoir, mbind, M_bind, bind, get, emit, modify. cbn.
  set (s1 := append_log (Offer exemplar (examples_seen_so_far s)) s).
  pose proof (keeps_update_reservior (λ s', (log s', examples_seen_so_far s'))
                (λ _ _, eq_refl) (λ _ _ _ _, eq_refl) exemplar.1 exemplar.2
                episodic_mem_size (examples_seen_so_far s) s1) as Hkeep.
  destruct (update_reservior _ _ _ _ s1) as [[[]|r] s2]; [|done].
  simpl in Hkeep. injection Hkeep as Hlog Hseen.
  split; simpl.
  - by rewrite Hlog, offered_snoc, Hl, Hn.
  - rewrite Hseen, Hn. lia.
Qed.

Lemma reservoir_update_offered episodic_mem_size batch : ∀ l n,
  triple (Offered l n) (reservoir_update episodic_mem_size batch)
    (λ _, Offered (l ++ imap (λ i x, (x, n + i)) batch) (n + length batch))
    (λ _ _, True).
Proof.
  unfold reservoir_update.
  induction batch as [|exemplar batch IH]; intros l n; cbn [for_each].
  - apply triple_ret. intros s [Hl Hn]. split; simpl.
    + by rewrite app_nil_r.
    + lia.
  - apply (triple_seq _ (Offered (l ++ [(exemplar, n)]) (S n)));
      [apply offer_to_reservoir_offered|].
    eapply triple_conseq; [apply IH|done| |done].
    intros [] s [Hl Hn]. split.
    + rewrite Hl, <-app_assoc. simpl. rewrite Nat.add_0_r. do 2 f_equal.
      apply imap_ext. intros i y _. simpl. f_equal. lia.
    + rewrite Hn. simpl. lia.
Qed.

Lemma episodic_read_offered idx l n :
  triple (Offered l n) (episodic_read idx) (λ _, Offered l n) (λ _ _, True).
Proof.
  intros s [Hl Hn].
  unfold episodic_read, mbind, M_bind, bind, get, emit, modify. cbn.
  destruct (decide _); [|done]. split; simpl; [|done].
  by rewrite offered_snoc, app_nil_r.
Qed.

Lemma reservoir_step_offered runid task classes_per_task episodic_mem_size labels
    (train : list (Img * Lab)) iters l n :
  Model.imp_method model = ER_Reservoir →
  Args.train_single_epoch args = true →
  iters * Args.batch_size args ≤ length train →
  triple (Offered l n)
    (train_iter runid task classes_per_task episodic_mem_size labels train iters)
    (λ _, let batch := take (Args.batch_size args)
                         (drop (iters * Args.batch_size args) train) in
          Offered (l ++ imap (λ i x, (x, n + i)) batch) (n + length batch))
    (λ _ _, True).
Proof.
  intros Hm Hse Hle s Hs. rewrite train_iter_batch_of.
  unfold mbind at 1. unfold M_bind, bind.
  rewrite batch_of_single_epoch by done. cbv zeta.
  set (batch := take _ _). revert s Hs.
  change (triple (Offered l n)
            (train_on_batch runid task classes_per_task episodic_mem_size
               labels iters batch)
            (λ _, Offered (l ++ imap (λ i x, (x, n + i)) batch) (n + length batch))
            (λ _ _, True)).
  unfold train_on_batch, replay_and_update. rewrite Hm.
  set (Q := Offered (l ++ imap (λ i x, (x, n + i)) batch) (n + length batch)).
  apply (triple_seq _ Q).
  { apply (triple_bind _ _ _ (λ _, Offered l n)); [by apply triple_get|].
    intros s0.
    apply (triple_bind _ _ _ (λ _, Offered l n)).
    { apply triple_draw; [|done]. by intros s a g Hs _. }
    intros er_mem_indices.
    apply (triple_seq _ (Offered l n)); [apply episodic_read_offered|].
    apply reservoir_update_offered. }
  apply (triple_bind _ _ _ (λ _, Q)).
  { destruct has_branch; [by apply triple_ret|by apply triple_raise]. }
  intros loss. apply (triple_seq _ Q).
  { apply triple_modify. intros s [Hl Hn]. split; simpl; [|done].
    by rewrite offered_snoc, app_nil_r. }
  destruct (math_isnan loss); [done|by apply triple_ret].
Qed.

Lemma imap_take_window {X Y} (f : nat → X → Y) (l : list X) (a w : nat) :
  imap f (take (a + w) l)
  = imap f (take a l)
    ++ imap (λ i, f (length (take a l) + i)) (take w (drop a l)).
Proof. by rewrite <-take_take_drop, imap_app. Qed.

(** X12. Lines 292-294, 305-310, 339-344, 527-530: with ER-Reservoir and
    [--train-single-epoch], a task that is trained to its end has offered
    each of its exemplars to the reservoir exactly once: the exemplars
    offered during the task are the training data of the task in the order
    line 310 shuffled them into, which is a rearrangement of the loaded data,
    each under the next value of [examples_seen_so_far], and the counter has
    grown by the number of training exemplars of the task. *)
Theorem reservoir_single_epoch_sees_task_once
    runid classes_per_task episodic_mem_size task_labels task s :
  Model.imp_method model = ER_Reservoir →
  Args.train_single_epoch args = true →
  match train_task runid classes_per_task episodic_mem_size task_labels task s with
  | (Val _, s') =>
      let task_train :=
        load_task_specific_data (default [] (task_labels !! task)) in
      let train :=
        omap (λ i, task_train !! i)
          (shuffle (np_random s) (arange (length task_train))).1 in
      train ≡ₚ task_train ∧
      offered (log s')
      = offered (log s) ++ imap (λ i x, (x, examples_seen_so_far s + i)) train ∧
      examples_seen_so_far s'
      = examples_seen_so_far s + length task_train
  | (Abort _, _) => True
  end.
Proof.
  intros Hm Hse.
  set (labels := default [] (task_labels !! task)).
  set (task_train := load_task_specific_data labels).
  set (train := omap (λ i, task_train !! i)
                  (shuffle (np_random s) (arange (length task_train))).1).
  set (l0 := offered (log s)).
  set (n0 := examples_seen_so_far s).
  set (b := Args.batch_size args).
  assert (train ≡ₚ task_train) as Hperm.
  { unfold train. rewrite shuffle_Permutation. unfold arange, arange2.
    by rewrite Nat.sub_0_r, omap_lookup_seq. }
  pose proof (Permutation_length Hperm) as Hlen.
  set (offers := λ i, imap (λ j x, (x, n0 + j)) (take i train)).
  assert (triple (λ s', Offered l0 n0 s' ∧ np_random s' = np_random s)
            (train_task runid classes_per_task episodic_mem_size task_labels task)
            (λ _, Offered (l0 ++ offers (length train)) (n0 + length train))
            (λ _ _, True)) as H.
  { unfold train_task. fold labels task_train. rewrite Hse. fold b.
    apply (triple_bind _ _ _
             (λ num_iters s', (Offered l0 n0 s' ∧ np_random s' = np_random s)
                ∧ (num_iters = (length task_train + b - 1) / b ∧ b ≠ 0))).
    { unfold floordiv.
      destruct (decide _); [by apply triple_raise|by apply triple_ret]. }
    intros num_iters. apply triple_assume. intros [-> Hb].
    destruct (ceiling_iters (length task_train) b Hb) as [Hup Hlow].
    apply (triple_seq _ (λ s', Offered l0 n0 s' ∧ np_random s' = np_random s)).
    { destruct (_ && _); [by apply triple_ret|].
      by apply (checks_triple _ _ _ _ (checks_assign_logit_mask task_labels task)). }
    apply (triple_bind _ _ _
             (λ perm s', Offered l0 n0 s'
                ∧ omap (λ i, task_train !! i) perm = train)).
    { apply triple_draw; [|done]. intros s' perm g [Hs' Hg] [= Heq].
      split; [done|]. unfold train. by rewrite <-Hg, Heq. }
    intros perm. apply triple_assume. intros ->.
    apply (triple_seq _ (Offered (l0 ++ offers (length train)) (n0 + length train)));
      [|destruct use_episodic_memory; [by apply triple_modify|by apply triple_ret]].
    eapply triple_conseq;
      [apply (triple_for_each
         (λ i, Offered (l0 ++ offers (i * b)) (n0 + length (take (i * b) train)))
         (λ _ _, True))
      | | |done].
    - intros i iters Hi. apply lookup_seq in Hi as [-> Hi]. unfold train_step.
      change (0 + i) with i. specialize (Hlow i Hi).
      apply (triple_seq _
               (Offered (l0 ++ offers (i * b)) (n0 + length (take (i * b) train))));
        [by apply (checks_triple _ _ _ _ (checks_snapshot task_labels task i))|].
      eapply triple_conseq;
        [apply reservoir_step_offered; [done|done|fold b; lia]|done| |done].
      intros [] s' Hs'. cbv zeta in Hs'. fold b in Hs'.
      destruct Hs' as [Hl' Hn']. split.
      + rewrite Hl', <-app_assoc. f_equal. unfold offers.
        replace (S i * b) with (i * b + b) by lia.
        rewrite imap_take_window. f_equal.
        apply imap_ext. intros j x _. simpl. f_equal. lia.
      + rewrite Hn'. replace (S i * b) with (i * b + b) by lia.
        rewrite <-(take_take_drop train (i * b) b), length_app. lia.
    - intros s' [Hl' Hn']. unfold offers. rewrite Nat.mul_0_l, take_0.
      split; simpl; [by rewrite app_nil_r|lia].
    - intros [] s' Hs'. rewrite length_seq in Hs'.
      unfold offers in *. rewrite take_ge in Hs' by lia.
      by rewrite take_ge by lia. }
  specialize (H s (conj (conj eq_refl eq_refl) eq_refl)).
  destruct (train_task _ _ _ _ _ s) as [[[]|r] s']; [|done].
  destruct H as [Hl' Hn']. cbv zeta. fold labels task_train train.
  split_and!; [done| |by rewrite Hn', Hlen].
  rewrite Hl'. unfold offers. by rewrite firstn_all.
Qed.

(** ** The classes of an experiment

    Lines 859-863 of [main]: the model is built for [K_FOR_CROSS_VAL] tasks
    when the hyper-parameters are searched ([--online-cross-val]) and for the
    remaining [args.num_tasks - K_FOR_CROSS_VAL] tasks otherwise;
    [model.num_tasks] is the number of tasks the model was built for.  (For
    fewer than [K_FOR_CROSS_VAL] tasks Python's difference is negative; the
    statements below are about the other case.) *)
Definition main_num_tasks : nat :=
  if Args.online_cross_val args then K_FOR_CROSS_VAL
  else Args.num_tasks args - K_FOR_CROSS_VAL.

(** The classes a run draws its tasks from (lines 199-203), for the model
    of [main]. *)
Definition main_classes : list nat :=
  if Args.online_cross_val args then seq 0 (K_FOR_CROSS_VAL * cpt)
  else seq (K_FOR_CROSS_VAL * cpt) ((Args.num_tasks args - K_FOR_CROSS_VAL) * cpt).

Lemma cpt_num_tasks_le : cpt * Args.num_tasks args ≤ TOTAL_CLASSES.
Proof.
  unfold cpt. rewrite Nat.mul_comm. apply Nat.Div0.mul_div_le.
Qed.

Lemma main_label_array :
  Model.num_tasks model = main_num_tasks →
  label_array cpt (cpt * Model.num_tasks model) = main_classes.
Proof.
  intros ->. unfold label_array, main_classes, main_num_tasks, arange, arange2.
  destruct (Args.online_cross_val args);
    [rewrite Nat.sub_0_r|rewrite Nat.add_sub]; by rewrite (Nat.mul_comm cpt).
Qed.

Lemma main_classes_valid :
  K_FOR_CROSS_VAL ≤ Args.num_tasks args →
  Forall (λ c, c < TOTAL_CLASSES) main_classes.
Proof.
  intros HK. pose proof cpt_num_tasks_le as Hle. unfold main_classes.
  assert ((Args.num_tasks args - K_FOR_CROSS_VAL) * cpt + K_FOR_CROSS_VAL * cpt
          = cpt * Args.num_tasks args) as Hsum.
  { rewrite <-Nat.mul_add_distr_r, Nat.mul_comm. f_equal. lia. }
  destruct (Args.online_cross_val args); apply Forall_seq; intros c Hc; lia.
Qed.

Lemma main_labels_valid runid task_labels :
  K_FOR_CROSS_VAL ≤ Args.num_tasks args →
  Model.num_tasks model = main_num_tasks →
  run_task_labels runid = Some task_labels →
  Forall (Forall (λ c, c < TOTAL_CLASSES)) task_labels.
Proof.
  intros HK Hmodel Hrun. apply Forall_concat.
  rewrite (run_task_labels_concat _ _ Hrun), main_label_array by done.
  by apply main_classes_valid.
Qed.

(** X13. Lines 196-208 with lines 859-863: for the model [main] builds, and
    at least [K_FOR_CROSS_VAL] tasks, every run has a partition, and its
    tasks together hold each class of the run's range exactly once: the first
    [K_FOR_CROSS_VAL * classes_per_task] classes when the hyper-parameters
    are searched, and the following
    [(args.num_tasks - K_FOR_CROSS_VAL) * classes_per_task] classes
    otherwise.  The experiment therefore never trains on a class of the
    search, and every label is a column below [TOTAL_CLASSES]. *)
Theorem main_label_ranges runid :
  K_FOR_CROSS_VAL ≤ Args.num_tasks args →
  Model.num_tasks model = main_num_tasks →
  match run_task_labels runid with
  | Some task_labels =>
      concat task_labels ≡ₚ main_classes ∧
      Forall (λ c, c < TOTAL_CLASSES) (concat task_labels) ∧
      (Args.online_cross_val args = false →
       Forall (λ c, K_FOR_CROSS_VAL * cpt ≤ c) (concat task_labels))
  | None => False
  end.
Proof.
  intros HK Hmodel.
  destruct (run_task_labels runid) as [task_labels|] eqn:Hrun.
  - assert (concat task_labels ≡ₚ main_classes) as Hperm.
    { by rewrite (run_task_labels_concat _ _ Hrun), main_label_array. }
    split_and!; [done| |].
    + rewrite Hperm. by apply main_classes_valid.
    + intros Hcv. rewrite Hperm. unfold main_classes. rewrite Hcv.
      apply Forall_seq. intros c Hc. lia.
  - unfold run_task_labels in Hrun. destruct (decide _) as [Hz|]; [|done].
    unfold K_FOR_CROSS_VAL in HK. lia.
Qed.

(** ** Evaluation *)

Section evaluation.

Context {Acc : Type}.
Variable zero_acc : Acc.
Variable accuracy_eval : nat → list nat → logit_mask → Acc.

(** X14. Lines 750-753, 776-777, 787-788 and 802-803: the mask of task [tt]
    is built without error exactly when every label is below [TOTAL_CLASSES]
    and, with a row per task, the model has a task [tt]; otherwise building
    it is an [IndexError].  The mask that is built lets through exactly the
    classes of that task, in the row of its own head when there is a row per
    task, all other rows staying closed. *)
Theorem evaluation_mask_exposes_task tt labels :
  (is_Some (task_logit_mask tt labels) ↔
   Forall (λ c, c < TOTAL_CLASSES) labels ∧
   (multi_head = true → tt < Model.num_tasks model)) ∧
  match task_logit_mask tt labels with
  | Some mask =>
      (∀ c, mask_at mask tt c
            = if decide (c < TOTAL_CLASSES)
              then Some (bool_decide (c ∈ labels)) else None) ∧
      (∀ head c, multi_head = true → head ≠ tt →
         head < Model.num_tasks model → c < TOTAL_CLASSES →
         mask_at mask head c = Some false)
  | None =>
      ¬ Forall (λ c, c < TOTAL_CLASSES) labels ∨
      (multi_head = true ∧ Model.num_tasks model ≤ tt)
  end.
Proof. split; [apply task_logit_mask_defined|apply task_logit_mask_spec]. Qed.

Lemma elem_of_concat_lookup {X} (ls : list (list X)) i l c :
  ls !! i = Some l → c ∈ l → c ∈ concat ls.
Proof.
  intros Hi Hc. rewrite <-(take_drop_middle ls i l Hi), concat_app. simpl.
  rewrite !elem_of_app. auto.
Qed.

Lemma NoDup_concat_lookup {X} (ls : list (list X)) : ∀ i j l l' c,
  NoDup (concat ls) →
  ls !! i = Some l → ls !! j = Some l' → c ∈ l → c ∈ l' → i = j.
Proof.
  induction ls as [|l0 ls IH]; intros i j l l' c Hnd Hi Hj Hc Hc'; [done|].
  simpl in Hnd. apply NoDup_app in Hnd as (_ & Hdisj & Hnd).
  destruct i as [|i], j as [|j]; simpl in *; simplify_eq; [done| | |].
  - exfalso. eapply Hdisj; [done|]. by eapply elem_of_concat_lookup.
  - exfalso. eapply Hdisj; [done|]. by eapply elem_of_concat_lookup.
  - f_equal. by eapply IH.
Qed.

(** X15. Lines 741-815: when every label is below [TOTAL_CLASSES] and the
    model has a task for every entry of [test_tasks], the evaluation after
    task [task] returns without error an array of [model.num_tasks]
    accuracies: for each task up to [task] the accuracy evaluated with that
    task's own mask, and [0.0] for every task not yet trained, which is not
    evaluated at all. *)
Theorem test_task_sequence_result test_tasks task :
  Forall (Forall (λ c, c < TOTAL_CLASSES)) test_tasks →
  length test_tasks ≤ Model.num_tasks model →
  ∃ final_acc,
    test_task_sequence zero_acc accuracy_eval test_tasks task = Val final_acc ∧
    length final_acc = Model.num_tasks model ∧
    (∀ tt labels, test_tasks !! tt = Some labels → tt ≤ task →
       ∃ mask, task_logit_mask tt labels = Some mask ∧
               final_acc !! tt = Some (accuracy_eval tt labels mask)) ∧
    (∀ tt, tt < Model.num_tasks model → task < tt ∨ length test_tasks ≤ tt →
       final_acc !! tt = Some zero_acc).
Proof.
  intros Hall Hlen.
  destruct (test_loop_spec accuracy_eval task test_tasks 0
              (replicate (Model.num_tasks model) zero_acc) Hall ltac:(lia)
              ltac:(by rewrite length_replicate))
    as (result & Hrun & Hres & Hdone & Hrest).
  exists result. split_and!; [done|done| |].
  - intros tt labels Htt Hle. by apply (Hdone tt labels).
  - intros tt Htt Hnot. rewrite Hrest by lia. by apply lookup_replicate_2.
Qed.

(** X16. Lines 324, 704 and 723 with lines 196-208 and 859-863: for the
    model of [main] and at least [K_FOR_CROSS_VAL] tasks, evaluating on the
    partition of a run never fails, whichever task has just been trained,
    and no class is let through by the masks of two different tasks. *)
Theorem evaluation_of_run_partition runid task :
  K_FOR_CROSS_VAL ≤ Args.num_tasks args →
  Model.num_tasks model = main_num_tasks →
  match run_task_labels runid with
  | Some task_labels =>
      (∃ final_acc,
         test_task_sequence zero_acc accuracy_eval task_labels task
         = Val final_acc ∧
         length final_acc = length task_labels) ∧
      (∀ tt tt' labels labels' mask mask' c,
         task_labels !! tt = Some labels → task_labels !! tt' = Some labels' →
         task_logit_mask tt labels = Some mask →
         task_logit_mask tt' labels' = Some mask' →
         mask_at mask tt c = Some true → mask_at mask' tt' c = Some true →
         tt = tt')
  | None => False
  end.
Proof.
  intros HK Hmodel.
  destruct (run_task_labels runid) as [task_labels|] eqn:Hrun; last first.
  { unfold run_task_labels in Hrun. destruct (decide _) as [Hz|]; [|done].
    unfold K_FOR_CROSS_VAL in HK. lia. }
  pose proof (main_labels_valid runid task_labels HK Hmodel Hrun) as Hvalid.
  pose proof (run_task_labels_partition runid) as Hpart. rewrite Hrun in Hpart.
  destruct Hpart as (Hlen & _ & Hnd). split.
  - destruct (test_loop_spec accuracy_eval task task_labels 0
                (replicate (Model.num_tasks model) zero_acc) Hvalid ltac:(lia)
                ltac:(by rewrite length_replicate))
      as (final_acc & Hrun' & Hres & _).
    exists final_acc. split; [done|lia].
  - intros tt tt' labels labels' mask mask' c Htt Htt' Hmask Hmask' Hc Hc'.
    assert (∀ t l m, task_logit_mask t l = Some m →
                     mask_at m t c = Some true → c ∈ l) as Hexposed.
    { intros t l m Hm Hat.
      pose proof (task_logit_mask_spec t l) as H. rewrite Hm in H.
      destruct H as [H _]. rewrite H in Hat.
      destruct (decide _); [|done]. injection Hat as Hat.
      by apply bool_decide_eq_true in Hat. }
    eapply (NoDup_concat_lookup task_labels); eauto.
Qed.

End evaluation.
End train.

(** ** Across executions *)

Lemma Forall2_functional {X Y} (P : X → Y → Prop) (l : list X) (k k' : list Y) :
  (∀ x y y', P x y → P x y' → y = y') →
  Forall2 P l k → Forall2 P l k' → k = k'.
Proof.
  intros Hfun Hk. revert k'. induction Hk as [|x y l k Hxy Hk IH]; intros k' Hk'.
  - by inversion Hk'.
  - inversion Hk' as [|? y' ? k'' Hxy' Hk'']; subst. f_equal; eauto.
Qed.

(** C10. The class-to-task partition of run [runid] is a function of the
    arguments: of [args.random_seed + runid] through [np.random.seed], and of
    the task counts.  Two executions with the same arguments record the same
    partition for every run they both reach and return the same
    [task_labels_dataset], whatever losses TensorFlow returns, whatever
    state the generator was left in, whatever the other collaborators do. *)
Theorem task_labels_deterministic {Img Lab : Type}
    (zero_image zero_image' : Img) (zero_label zero_label' : Lab)
    (class_of class_of' : Lab → nat)
    (np_random_seed : Z → RandomState)
    (generate_projection_matrix generate_projection_matrix' : RandomState → RandomState)
    (load_task_specific_data load_task_specific_data' : list nat → list (Img * Lab))
    (sess_run_loss sess_run_loss' : nat → nat → nat → pyfloat)
    (model : Model.t) (args : Args.t) (g g' : RandomState) :
  let r := execute zero_image zero_label class_of np_random_seed
             generate_projection_matrix load_task_specific_data sess_run_loss
             model args g in
  let r' := execute zero_image' zero_label' class_of' np_random_seed
              generate_projection_matrix' load_task_specific_data' sess_run_loss'
              model args g' in
  (∀ runid task_labels,
     TaskLabels runid task_labels ∈ log r.2 →
     run_task_labels np_random_seed model args runid = Some task_labels) ∧
  (∀ runid task_labels task_labels',
     TaskLabels runid task_labels ∈ log r.2 →
     TaskLabels runid task_labels' ∈ log r'.2 →
     task_labels = task_labels') ∧
  (∀ dataset dataset', r.1 = Val dataset → r'.1 = Val dataset' → dataset = dataset') ∧
  (∀ args' runid runid',
     (Args.random_seed args + Z.of_nat runid
      = Args.random_seed args' + Z.of_nat runid')%Z →
     Args.num_tasks args = Args.num_tasks args' →
     Args.online_cross_val args = Args.online_cross_val args' →
     run_task_labels np_random_seed model args runid
     = run_task_labels np_random_seed model args' runid').
Proof.
  intros r r'.
  assert (∀ runid task_labels,
    TaskLabels runid task_labels ∈ log r.2 →
    run_task_labels np_random_seed model args runid = Some task_labels) as Hr.
  { intros runid tl Hin.
    destruct (execute_Inv zero_image zero_label class_of np_random_seed
                generate_projection_matrix load_task_specific_data sess_run_loss
                model args g) as [Hev _].
    by apply (proj1 (Forall_forall _ _) Hev) in Hin. }
  assert (∀ runid task_labels,
    TaskLabels runid task_labels ∈ log r'.2 →
    run_task_labels np_random_seed model args runid = Some task_labels) as Hr'.
  { intros runid tl Hin.
    destruct (execute_Inv zero_image' zero_label' class_of' np_random_seed
                generate_projection_matrix' load_task_specific_data' sess_run_loss'
                model args g') as [Hev _].
    by apply (proj1 (Forall_forall _ _) Hev) in Hin. }
  split_and!; [done| | |].
  - intros runid tl tl' Hin Hin'. apply Hr in Hin. apply Hr' in Hin'. congruence.
  - intros d d' Hd Hd'.
    pose proof (execute_spec zero_image zero_label class_of np_random_seed
                  generate_projection_matrix load_task_specific_data sess_run_loss
                  model args g) as H.
    pose proof (execute_spec zero_image' zero_label' class_of' np_random_seed
                  generate_projection_matrix' load_task_specific_data' sess_run_loss'
                  model args g') as H'.
    fold r in H. fold r' in H'.
    destruct r as [[d0|?] s]; [|done]. destruct r' as [[d0'|?] s']; [|done].
    simpl in *. simplify_eq. destruct H as [_ H]. destruct H' as [_ H'].
    eapply Forall2_functional; [|exact H|exact H']. simpl. congruence.
  - intros args' runid runid' Hseed Hnum Hcv.
    unfold run_task_labels, cpt, label_array. by rewrite Hseed, Hnum, Hcv.
Qed.

(** ** The small experiment *)

(** The end-to-end scenario of the ring buffer: six slots, two classes of
    three slots each; four exemplars of class 0 ([10..13]) and two of class
    1 ([20, 21]).  The fourth exemplar of class 0 overwrites the first. *)
Example fifo_end_to_end :
  let s0 := State [] (replicate 6 0) (replicate 6 0)
              (replicate TOTAL_CLASSES 0) 0 0 [] in
  let r := update_fifo_buffer id
             [(10, 0); (11, 0); (12, 0); (13, 0); (20, 1); (21, 1)]
             [0; 1] 3 0 s0 in
  r.1 = Val () ∧
  episodic_images r.2 = [13; 11; 12; 20; 21; 0] ∧
  take 2 (count_cls r.2) = [4; 2].
Proof. vm_compute. done. Qed.

(** A NaN at the second step of the first task: the process exits there. *)
Example nan_run_exits :
  let r := execute 0 0 id small_seed id small_data nan_at_second_step
             (small_model ER_Reservoir) small_args [] in
  r.1 = Abort (SysExit 0) ∧
  last (log r.2) = Some (TrainStep 0 0 1 nan) ∧
  examples_seen_so_far r.2 = 4.
Proof. vm_compute. done. Qed.

(** The reservoir draw of the small experiment once the buffer is full. *)
Example small_reservoir_draw :
  reservoir_er_mem_indices 12 8 4 [3; 3; 1; 0; 1; 1; 6; 2; 2; 0]
  = Some ([4; 2; 5; 6], []).
Proof. vm_compute. done. Qed.

(** The replay of the second task of the small experiment's first run with
    the ring buffer: the four slots of the first task, shuffled, and the base
    offset of the second task. *)
Example small_ringbuffer_run :
  let r := execute 0 0 id small_seed id small_data always_finite
             (small_model ER_Ringbuffer) small_args [] in
  take 3 (drop 11 (log r.2))
    = [Replay [1; 2; 3; 0]; FifoUpdate 1 4; TrainStep 0 1 0 finite] ∧
  length (episodic_images r.2) = 8 ∧
  episodic_filled_counter r.2 = 8.
Proof. vm_compute. done. Qed.

(** A-GEM reads the same four slots in ascending order. *)
Example small_agem_run :
  let r := execute 0 0 id small_seed id small_data always_finite
             (small_model A_GEM) small_args [] in
  take 3 (drop 8 (log r.2))
    = [Replay [0; 1; 2; 3]; FifoUpdate 1 4; TrainStep 0 1 0 finite].
Proof. vm_compute. done. Qed.

(** A full reservoir that turns the exemplar down still counts it. *)
Example reservoir_discard_still_counts :
  let s := State [15] (replicate 8 0) (replicate 8 0)
             (replicate TOTAL_CLASSES 0) 0 20 [] in
  let r := offer_to_reservoir 8 (99, 9) s in
  r.1 = Val () ∧
  episodic_images r.2 = replicate 8 0 ∧
  examples_seen_so_far r.2 = 21.
Proof. vm_compute. done. Qed.

(** Witness of C2: the first step of the small experiment under
    ER-Reservoir, from empty buffers; its batch is the first two exemplars
    of the task. *)
Lemma examples_seen_counts_offers_small :
  let s := State [] (replicate 8 0) (replicate 8 0)
             (replicate TOTAL_CLASSES 0) 0 0 [] in
  let train := small_data [0; 1] in
  let batch := [(0, 0); (1, 0)] in
  buffers_sized (small_model ER_Reservoir) small_args s ∧
  batch_of small_args train 0 s = (Val batch, s) ∧
  (∃ s',
     reservoir_update (capacity (small_model ER_Reservoir) small_args) batch s
     = (Val (), s') ∧
     examples_seen_so_far s' = 2 ∧
     log s' = [Offer (0, 0) 0; Offer (1, 0) 1]) ∧
  (∃ er_mem_indices s',
     train_iter id always_finite (small_model ER_Reservoir) small_args 0 0
       (cpt small_args) (capacity (small_model ER_Reservoir) small_args)
       [0; 1] train 0 s
     = (if math_isnan (always_finite 0 0 0) then Abort (SysExit 0) else Val (),
        s') ∧
     log s' = [Replay er_mem_indices; Offer (0, 0) 0; Offer (1, 0) 1;
               TrainStep 0 0 0 (always_finite 0 0 0)] ∧
     examples_seen_so_far s' = 2).
Proof.
  intros s train batch.
  assert (buffers_sized (small_model ER_Reservoir) small_args s)
    as Hsized by (by vm_compute).
  assert (batch_of small_args train 0 s = (Val batch, s)) as Hbatch
    by reflexivity.
  pose proof (examples_seen_counts_offers 0 0 id small_seed id small_data
                always_finite (small_model ER_Reservoir) small_args []
                batch s Hsized) as (Hloop & Hstep & _).
  split; [exact Hsized|]. split; [exact Hbatch|]. split; [exact Hloop|].
  exact (Hstep eq_refl 0 0 [0; 1] train 0 Hbatch).
Defined.

(** Witness of C6, on the end-to-end scenario: the fourth write for class 0,
    after two interleaved writes for class 1, lands at slot [0 + 3 % 3]. *)
Lemma fifo_nth_write_slot_small :
  let before := [([0; 1], 0, (10, 0)); ([0; 1], 0, (20, 1)); ([0; 1], 0, (11, 0));
                 ([0; 1], 0, (21, 1)); ([0; 1], 0, (12, 0))] in
  let s0 := State [] (replicate 6 0) (replicate 6 0)
              (replicate TOTAL_CLASSES 0) 0 0 [] in
  ∃ s2,
    count_cls s0 = replicate TOTAL_CLASSES 0 ∧
    fifo_writes id 3 (before ++ [([0; 1], 0, (13, 0))]) s0 = (Val (), s2) ∧
    ∃ s1 offset,
      fifo_writes id 3 before s0 = (Val (), s1) ∧
      class_offset [0; 1] 3 0 0 = Some offset ∧
      offset + 3 mod 3 < length (episodic_images s1) ∧
      episodic_images s2 = <[offset + 3 mod 3:=13]> (episodic_images s1) ∧
      episodic_labels s2 = <[offset + 3 mod 3:=0]> (episodic_labels s1) ∧
      count_cls s2 !! 0 = Some 4.
Proof.
  intros before s0.
  exists (fifo_writes id 3 (before ++ [([0; 1], 0, (13, 0))]) s0).2.
  assert (count_cls s0 = replicate TOTAL_CLASSES 0) as Hzero by reflexivity.
  assert (fifo_writes id 3 (before ++ [([0; 1], 0, (13, 0))]) s0
          = (Val (), (fifo_writes id 3 (before ++ [([0; 1], 0, (13, 0))]) s0).2))
    as Hrun by (vm_compute; reflexivity).
  split; [exact Hzero|]. split; [exact Hrun|].
  exact (fifo_nth_write_slot id 3 before [0; 1] 0 (13, 0) s0 _ Hzero Hrun).
Defined.

(** ** Where the code departs from the specification *)

(** One exemplar per class, none with a zero image. *)
Definition sparse_data (labels : list nat) : list (nat * nat) :=
  (λ c, (10 * c + 1, c)) <$> labels.

(** Counterexample to C1. With the ring buffer the bound of the draw is not
    the number of valid slots.  One exemplar per class and two slots per
    class: the only step of the first task writes slots 0 and 2, line 689
    advances [episodic_filled_counter] by 4, and the replay of the second
    task reads the slots 0 to 3, of which 1 and 3 were never written: they
    hold the zero rows of lines 231-232 to the end, and no exemplar has a
    zero image. *)
Lemma ringbuffer_replay_reads_unwritten_slots :
  let r := execute 0 0 id small_seed id sparse_data always_finite
             (small_model ER_Ringbuffer) single_epoch_args [] in
  (∀ labels exemplar, exemplar ∈ sparse_data labels → exemplar.1 ≠ 0) ∧
  r.1 = Val [[[6; 7]; [9; 8]]] ∧
  log r.2
  = [TaskLabels 0 [[6; 7]; [9; 8]]; Allocate 8;
     Replay []; FifoUpdate 0 0; TrainStep 0 0 0 finite;
     Replay [3; 0; 2; 1]; FifoUpdate 1 4; TrainStep 0 1 0 finite] ∧
  episodic_images r.2 = [61; 0; 71; 0; 91; 0; 81; 0] ∧
  ¬ (∀ idx i, Replay idx ∈ log r.2 → i ∈ idx →
       ∃ exemplar, exemplar ∈ sparse_data [6; 7; 9; 8] ∧
                   episodic_images r.2 !! i = Some exemplar.1).
Proof.
  intros r.
  assert (∀ labels exemplar, exemplar ∈ sparse_data labels → exemplar.1 ≠ 0)
    as Hdata.
  { intros labels exemplar Hin. unfold sparse_data in Hin.
    apply list_elem_of_fmap in Hin as (c & -> & _). simpl. lia. }
  split; [exact Hdata|]. split; [by vm_compute|]. split; [by vm_compute|].
  split; [by vm_compute|].
  intros H.
  destruct (H [3; 0; 2; 1] 1) as (exemplar & Hin & Hslot).
  - vm_compute. do 5 apply list_elem_of_further. apply list_elem_of_here.
  - do 3 apply list_elem_of_further. apply list_elem_of_here.
  - vm_compute in Hslot. injection Hslot as Hslot.
    by apply (Hdata _ _ Hin).
Qed.

(** The same without any data, where nothing depends on what
    [update_fifo_buffer] does with an exemplar: no slot is ever written, and
    every step of the second task reads four slots. *)
Example ringbuffer_replay_without_data :
  let r := execute 0 0 id small_seed id (λ _, []) always_finite
             (small_model ER_Ringbuffer)
             (Args.mk 1 1234 5 3 2 4 50 false false false) [] in
  r.1 = Val [[[6; 7]; [9; 8]]] ∧
  drop 11 (log r.2)
  = [Replay [3; 2; 1; 0]; FifoUpdate 1 4; TrainStep 0 1 0 finite;
     Replay [3; 0; 1; 2]; FifoUpdate 1 4; TrainStep 0 1 1 finite;
     Replay [1; 2; 3; 0]; FifoUpdate 1 4; TrainStep 0 1 2 finite] ∧
  episodic_images r.2 = replicate 8 0.
Proof. vm_compute. done. Qed.


(** Counterexample to C7. An infinite loss is not fatal: in the small
    experiment the first step has loss [+inf] and training goes on after
    it, through all four runs. *)
Lemma infinite_loss_is_not_fatal :
  ¬ fatal_loss non_finite
      (execute 0 0 id small_seed id small_data inf_at_first_step
         (small_model VAN) small_args []).
Proof.
  intros H.
  set (r := execute 0 0 id small_seed id small_data inf_at_first_step
              (small_model VAN) small_args []) in *.
  destruct (H (take 1 (log r.2)) (TrainStep 0 0 0 pos_inf) (drop 2 (log r.2)))
    as [Hpost _].
  - vm_compute. reflexivity.
  - reflexivity.
  - vm_compute in Hpost. discriminate.
Qed.

(** Counterexample to C8. With the defaults of the script ([--num-tasks 10],
    a model of [10 - K_FOR_CROSS_VAL = 7] tasks) a run generates seven tasks
    of ten classes: no single [num_tasks] is both the number of tasks and
    the divisor of [TOTAL_CLASSES] that gives their size. *)
Lemma default_partition_has_two_task_counts :
  ∃ task_labels,
    run_task_labels small_seed (default_model VAN) default_args 0
      = Some task_labels ∧
    ¬ ∃ num_tasks,
        task_partition num_tasks (TOTAL_CLASSES / num_tasks) task_labels.
Proof.
  eexists. split; [vm_compute; reflexivity|].
  intros (n & Hlen & Hall & _). simpl in Hlen. subst n.
  apply Forall_cons in Hall as [Hlen _]. vm_compute in Hlen. discriminate.
Qed.

(** ** Batches, steps and evaluation on the small experiment *)

(** An accuracy that tells which task was evaluated on how many classes. *)
Definition small_accuracy (tt : nat) (labels : list nat) (mask : logit_mask) : nat :=
  10 * tt + length labels.

(** Three exemplars in batches of two: a full batch and the rest. *)
Example single_epoch_batches_small :
  let s := initial_state [] in
  batch_of single_epoch_args (small_data [0]) 0 s = (Val [(0, 0); (1, 0)], s) ∧
  batch_of single_epoch_args (small_data [0]) 1 s = (Val [(2, 0)], s).
Proof. vm_compute. done. Qed.

(** Six exemplars in windows of two: the window of step 3 starts at
    [6 % 4], and no window reaches the sixth exemplar. *)
Example multi_epoch_batches_small :
  let s := initial_state [] in
  batch_of small_args (small_data [0; 1]) 3 s = (Val [(2, 0); (10, 1)], s) ∧
  batch_of small_args (small_data [0; 1]) 1 s = (Val [(2, 0); (10, 1)], s) ∧
  batch_of small_args (small_data [0; 1]) 2 s = (Val [(0, 0); (1, 0)], s).
Proof. vm_compute. done. Qed.

(** The small experiment takes [4 * 2 * 3] steps, and a method without
    episodic memory logs nothing but the partitions and the steps. *)
Example small_vanilla_run :
  let r := execute 0 0 id small_seed id small_data always_finite
             (small_model VAN) small_args [] in
  length (steps (log r.2)) = 24 ∧ length (log r.2) = 28 ∧
  episodic_images r.2 = [].
Proof. vm_compute. done. Qed.

(** Evaluation after the first of two tasks: the second is not evaluated. *)
Example small_evaluation :
  test_task_sequence (small_model VAN) 0 small_accuracy [[40; 41]; [42; 43]] 0
  = Val [2; 0] ∧
  test_task_sequence (small_model A_GEM) 0 small_accuracy [[40; 41]; [42; 43]] 1
  = Val [2; 12].
Proof. vm_compute. done. Qed.

(** A label that is no column of the mask, and a task the model has no head
    for. *)
Example evaluation_index_errors :
  test_task_sequence (small_model VAN) 0 small_accuracy [[40; 100]] 0
  = Abort (Raise IndexError) ∧
  test_task_sequence (small_model A_GEM) 0 small_accuracy [[0]; [1]; [2]] 2
  = Abort (Raise IndexError).
Proof. vm_compute. done. Qed.

(** One pass over the six exemplars of the first task fills the reservoir
    with all of them. *)
Example small_reservoir_pass :
  let s := State [] (replicate 8 0) (replicate 8 0)
             (replicate TOTAL_CLASSES 0) 0 0 [] in
  let r := train_task id small_data always_finite (small_model ER_Reservoir)
             single_epoch_args 0 2 8 [[0; 1]; [2; 3]] 0 s in
  r.1 = Val () ∧ examples_seen_so_far r.2 = 6 ∧
  take 6 (episodic_images r.2) ≡ₚ [0; 1; 2; 10; 11; 12].
Proof.
  vm_compute. split_and!; [done|done|].
  by apply (bool_decide_unpack _).
Qed.

(** Witness of X2. *)
Lemma single_epoch_batches_cover_small :
  let train := small_data [0] in
  let s := initial_state [] in
  Args.train_single_epoch single_epoch_args = true ∧
  Args.batch_size single_epoch_args ≠ 0 ∧
  ∃ batches,
    Forall2 (λ iters batch,
               batch_of single_epoch_args train iters s = (Val batch, s) ∧
               0 < length batch ≤ Args.batch_size single_epoch_args)
      (seq 0 ((length train + Args.batch_size single_epoch_args - 1)
              / Args.batch_size single_epoch_args))
      batches ∧
    concat batches = train.
Proof.
  intros train s.
  assert (Args.batch_size single_epoch_args ≠ 0) as Hb by (simpl; lia).
  split; [reflexivity|]. split; [exact Hb|].
  exact (single_epoch_batches_cover single_epoch_args train s eq_refl Hb).
Defined.

(** Witness of X3. *)
Lemma multi_epoch_batch_window_small :
  let train := small_data [0; 1] in
  let s := initial_state [] in
  Args.train_single_epoch small_args = false ∧
  Args.batch_size small_args < length train ∧
  ∃ offset,
    batch_of small_args train 3 s
    = (Val (take (Args.batch_size small_args) (drop offset train)), s) ∧
    offset + Args.batch_size small_args < length train ∧
    length (take (Args.batch_size small_args) (drop offset train))
    = Args.batch_size small_args.
Proof.
  intros train s.
  assert (Args.batch_size small_args < length train) as Hlt by (simpl; lia).
  split; [reflexivity|]. split; [exact Hlt|].
  exact (multi_epoch_batch_window small_args train 3 s eq_refl Hlt).
Defined.

(** Witness of X4: a task of exactly one batch. *)
Lemma multi_epoch_exact_batch_raises_small :
  let train := [(0, 0); (1, 0)] in
  let s := initial_state [] in
  Args.train_single_epoch small_args = false ∧
  length train = Args.batch_size small_args ∧
  train_iter id always_finite (small_model ER_Reservoir) small_args
    0 0 2 8 [0; 1] train 0 s
  = (Abort (Raise ZeroDivisionError), s).
Proof.
  intros train s. split; [reflexivity|]. split; [reflexivity|].
  exact (multi_epoch_exact_batch_raises id always_finite
           (small_model ER_Reservoir) small_args 0 0 2 8 [0; 1] train 0 s
           eq_refl eq_refl).
Defined.

(** The first step of an S-GEM run: a [NameError] in the small experiment,
    and the [IndexError] of the snapshot when the experiment is run in one
    pass over classes the masks have no column for. *)
Example sgem_first_step :
  let s := initial_state [] in
  train_step id always_finite (small_model S_GEM) small_args
    0 0 2 8 [[0; 1]; [2; 3]] (small_data [0; 1]) 0 s
  = (Abort (Raise NameError), s) ∧
  train_step id always_finite (small_model S_GEM) single_epoch_args
    0 0 2 8 [[0; 100]; [2; 3]] (small_data [0; 100]) 0 s
  = (Abort (Raise IndexError), s).
Proof. vm_compute. done. Qed.

(** Witness of X6. *)
Lemma sgem_step_never_completes_small :
  let train := small_data [0; 1] in
  let task_labels := [[0; 1]; [2; 3]] in
  let s := initial_state [] in
  Model.imp_method (small_model S_GEM) = S_GEM ∧
  train_step id always_finite (small_model S_GEM) small_args
    0 0 2 8 task_labels train 0 s
  = (Abort (Raise match (snapshot (small_model S_GEM) small_args
                           task_labels 0 0 s).1 with
                  | Val _ =>
                      if decide (Args.train_single_epoch small_args = false
                                 ∧ length train = Args.batch_size small_args)
                      then ZeroDivisionError else NameError
                  | Abort _ => IndexError
                  end), s) ∧
  ((snapshot (small_model S_GEM) small_args task_labels 0 0 s).1 ≠ Val () →
   ¬ can_evaluate (small_model S_GEM) task_labels 0 ∧
   Args.train_single_epoch small_args = true ∧
   Args.cross_validate_mode small_args = false ∧
   snapshot_due 0 = true).
Proof.
  intros train task_labels s. split; [reflexivity|].
  exact (sgem_step_never_completes id always_finite (small_model S_GEM)
           small_args 0 0 2 8 task_labels train 0 s eq_refl).
Defined.

(** The search for hyper-parameters over two tasks: 50 classes per task and a
    model of [K_FOR_CROSS_VAL] tasks, so the labels reach 149. *)
Definition cross_val_args : Args.t :=
  Args.mk 1 1234 2 3 2 4 2 false true false.

(** The masks have 100 columns: the run stops at line 300, before the
    first step, and not in a read of the memory. *)
Example cross_val_index_error :
  let r := execute 0 0 id small_seed id small_data always_finite
             (Model.mk ER_Ringbuffer K_FOR_CROSS_VAL) cross_val_args [] in
  r.1 = Abort (Raise IndexError) ∧
  last (log r.2) = Some (Allocate 300) ∧
  last_is_read (log r.2) = false.
Proof. vm_compute. done. Qed.

(** [np.random.seed(-1)] is a [ValueError]; nothing has happened by then. *)
Example negative_seed_value_error :
  execute 0 0 id small_seed id small_data always_finite (small_model VAN)
    (Args.mk 2 (-1) 2 3 2 4 50 false false false) [7]
  = (Abort (Raise ValueError), initial_state [7]).
Proof. vm_compute. done. Qed.

(** Witness of X8. *)
Lemma no_memory_without_episodic_method_small :
  let r := execute 0 0 id small_seed id small_data always_finite
             (small_model VAN) small_args [] in
  use_episodic_memory (small_model VAN) = false ∧
  memory_vars r.2 = memory_vars (initial_state []) ∧
  Forall (λ e, memory_event e = false) (log r.2).
Proof.
  intros r. split; [reflexivity|].
  exact (no_memory_without_episodic_method 0 0 id small_seed id small_data
           always_finite (small_model VAN) small_args [] eq_refl).
Defined.

(** Witness of X13: the defaults of the script. *)
Lemma main_label_ranges_default :
  K_FOR_CROSS_VAL ≤ Args.num_tasks default_args ∧
  Model.num_tasks (default_model VAN) = main_num_tasks default_args ∧
  match run_task_labels small_seed (default_model VAN) default_args 0 with
  | Some task_labels =>
      concat task_labels ≡ₚ main_classes default_args ∧
      Forall (λ c, c < TOTAL_CLASSES) (concat task_labels) ∧
      (Args.online_cross_val default_args = false →
       Forall (λ c, K_FOR_CROSS_VAL * cpt default_args ≤ c) (concat task_labels))
  | None => False
  end.
Proof.
  assert (K_FOR_CROSS_VAL ≤ Args.num_tasks default_args) as HK
    by (unfold K_FOR_CROSS_VAL; simpl; lia).
  split; [exact HK|]. split; [reflexivity|].
  exact (main_label_ranges small_seed (default_model VAN) default_args 0
           HK eq_refl).
Defined.

(** Witness of X15. *)
Lemma test_task_sequence_result_small :
  let test_tasks := [[40; 41]; [42; 43]] in
  Forall (Forall (λ c, c < TOTAL_CLASSES)) test_tasks ∧
  length test_tasks ≤ Model.num_tasks (small_model VAN) ∧
  ∃ final_acc,
    test_task_sequence (small_model VAN) 0 small_accuracy test_tasks 0
    = Val final_acc ∧
    length final_acc = Model.num_tasks (small_model VAN) ∧
    (∀ tt labels, test_tasks !! tt = Some labels → tt ≤ 0 →
       ∃ mask, task_logit_mask (small_model VAN) tt labels = Some mask ∧
               final_acc !! tt = Some (small_accuracy tt labels mask)) ∧
    (∀ tt, tt < Model.num_tasks (small_model VAN) →
       0 < tt ∨ length test_tasks ≤ tt → final_acc !! tt = Some 0).
Proof.
  intros test_tasks.
  assert (Forall (Forall (λ c, c < TOTAL_CLASSES)) test_tasks) as Hall
    by (repeat constructor; unfold TOTAL_CLASSES; lia).
  assert (length test_tasks ≤ Model.num_tasks (small_model VAN)) as Hlen
    by (simpl; lia).
  split; [exact Hall|]. split; [exact Hlen|].
  exact (test_task_sequence_result (small_model VAN) 0 small_accuracy
           test_tasks 0 Hall Hlen).
Defined.

(** Witness of X16: the defaults of the script, with a head per task. *)
Lemma evaluation_of_run_partition_default :
  K_FOR_CROSS_VAL ≤ Args.num_tasks default_args ∧
  Model.num_tasks (default_model A_GEM) = main_num_tasks default_args ∧
  match run_task_labels small_seed (default_model A_GEM) default_args 0 with
  | Some task_labels =>
      (∃ final_acc,
         test_task_sequence (default_model A_GEM) 0 small_accuracy task_labels 2
         = Val final_acc ∧
         length final_acc = length task_labels) ∧
      (∀ tt tt' labels labels' mask mask' c,
         task_labels !! tt = Some labels → task_labels !! tt' = Some labels' →
         task_logit_mask (default_model A_GEM) tt labels = Some mask →
         task_logit_mask (default_model A_GEM) tt' labels' = Some mask' →
         mask_at mask tt c = Some true → mask_at mask' tt' c = Some true →
         tt = tt')
  | None => False
  end.
Proof.
  assert (K_FOR_CROSS_VAL ≤ Args.num_tasks default_args) as HK
    by (unfold K_FOR_CROSS_VAL; simpl; lia).
  split; [exact HK|]. split; [reflexivity|].
  exact (evaluation_of_run_partition small_seed (default_model A_GEM)
           default_args 0 small_accuracy 0 2 HK eq_refl).
Defined.

(** Witness of X12: the pass of [small_reservoir_pass]. *)
Lemma reservoir_single_epoch_sees_task_once_small :
  let s := State [] (replicate 8 0) (replicate 8 0)
             (replicate TOTAL_CLASSES 0) 0 0 [] in
  let task_labels := [[0; 1]; [2; 3]] in
  Model.imp_method (small_model ER_Reservoir) = ER_Reservoir ∧
  Args.train_single_epoch single_epoch_args = true ∧
  match train_task id small_data always_finite (small_model ER_Reservoir)
          single_epoch_args 0 2 8 task_labels 0 s with
  | (Val _, s') =>
      let task_train := small_data (default [] (task_labels !! 0)) in
      let train :=
        omap (λ i, task_train !! i)
          (shuffle (np_random s) (arange (length task_train))).1 in
      train ≡ₚ task_train ∧
      offered (log s')
      = offered (log s) ++ imap (λ i x, (x, examples_seen_so_far s + i)) train ∧
      examples_seen_so_far s'
      = examples_seen_so_far s + length task_train
  | (Abort _, _) => True
  end.
Proof.
  intros s task_labels. split; [reflexivity|]. split; [reflexivity|].
  exact (reservoir_single_epoch_sees_task_once id small_data always_finite
           (small_model ER_Reservoir) single_epoch_args 0 2 8 task_labels 0 s
           eq_refl eq_refl).
Defined.

(** Batches of five over a task of three exemplars. *)
Definition wide_batch_args : Args.t :=
  Args.mk 1 1234 5 3 2 4 50 false false false.

(** Step 1 has offset [5 % -2 = -1] and is fed the last exemplar alone; step
    2 has offset [10 % -2 = 0] and is fed all three. *)
Example short_task_batches :
  let s := initial_state [] in
  batch_of wide_batch_args (small_data [0]) 1 s = (Val [(2, 0)], s) ∧
  batch_of wide_batch_args (small_data [0]) 2 s
  = (Val [(0, 0); (1, 0); (2, 0)], s).
Proof. vm_compute. done. Qed.

(** Witness of X5. *)
Lemma multi_epoch_short_task_suffix_small :
  let train := small_data [0] in
  let s := initial_state [] in
  Args.train_single_epoch wide_batch_args = false ∧
  length train < Args.batch_size wide_batch_args ∧
  ∃ first,
    batch_of wide_batch_args train 1 s = (Val (drop first train), s) ∧
    (train ≠ [] → first < length train).
Proof.
  intros train s.
  assert (length train < Args.batch_size wide_batch_args) as Hlt by (simpl; lia).
  split; [reflexivity|]. split; [exact Hlt|].
  exact (multi_epoch_short_task_suffix wide_batch_args train 1 s eq_refl Hlt).
Defined.
